(** * leveldown N-API binding (src/napi/leveldown.cc): a shallow embedding

    The binding is modelled the way it is written: the structs [Database],
    [Iterator] and the workers derived from [BaseWorker] are records, the
    functions exported to JavaScript ([db_close], [db_get], [iterator],
    [iterator_next], [iterator_end]) are functions on a [World] that holds the
    objects the C++ code reaches through pointers, the work queue of
    napi_queue_async_work and the log of JavaScript callbacks invoked.

    The storage engine (namespace leveldb) is an external collaborator; its
    status type and its iterator are modelled in [Module leveldb] after the
    engine's documented interface. *)

From Stdlib Require Import ZArith String Ascii List Bool Lia.
From stdpp Require Import base option list gmap strings.

Open Scope Z_scope.

(** ** Machine integers *)

(** uint32_t: values are taken modulo 2^32. *)
Definition to_uint32 (z : Z) : Z := z mod 2 ^ 32.

(** int: 32 bits, two's complement.  Signed overflow is undefined in C++; the
    model wraps, as the usual targets do. *)
Definition to_int32 (z : Z) : Z := (z + 2 ^ 31) mod 2 ^ 32 - 2 ^ 31.

(** size_t: 64 bits. *)
Definition to_size_t (z : Z) : Z := z mod 2 ^ 64.

(** [std::string::size]. *)
Definition size (s : string) : Z := Z.of_nat (String.length s).

(** [std::string::compare] and [leveldb::Slice::compare]: bytewise
    lexicographic order on unsigned bytes; negative, zero or positive. *)
Definition compare (a b : string) : Z :=
  match String.compare a b with
  | Lt => -1
  | Eq => 0
  | Gt => 1
  end.

(** ** C strings and UTF-8 *)

Definition byte (c : ascii) : Z := Z.of_N (N_of_ascii c).

(** What a const char* to the bytes of [s] designates for strlen and for a
    copy of strlen + 1 bytes: the bytes before the first NUL. *)
Fixpoint c_str (s : string) : string :=
  match s with
  | EmptyString => EmptyString
  | String c s => if byte c =? 0 then EmptyString else String c (c_str s)
  end.

(** U+FFFD REPLACEMENT CHARACTER in UTF-8: EF BF BD. *)
Definition replacement : string :=
  String (ascii_of_N 239) (String (ascii_of_N 191)
                                  (String (ascii_of_N 189) EmptyString)).

Definition between (lo hi b : Z) : bool := (lo <=? b) && (b <=? hi).

(** The UTF-8 decoder of the JavaScript engine, read back as UTF-8: a
    well-formed sequence is kept; each ill-formed byte, and each truncated
    sequence up to the byte that cannot continue it, is replaced by U+FFFD.
    [pending] holds the bytes of the sequence under way, [needed] the number
    of continuation bytes it still lacks and [lo], [hi] the range of the
    next one. *)
Fixpoint utf8_decode (pending : string) (needed : nat) (lo hi : Z)
  (s : string) : string :=
  match s with
  | EmptyString =>
    match needed with O => EmptyString | S _ => replacement end
  | String c rest =>
    let b := byte c in
    let lead :=
      if b <=? 127 then String c (utf8_decode EmptyString 0 128 191 rest)
      else if between 194 223 b then
        utf8_decode (String c EmptyString) 1 128 191 rest
      else if between 224 239 b then
        utf8_decode (String c EmptyString) 2
                    (if b =? 224 then 160 else 128)
                    (if b =? 237 then 159 else 191) rest
      else if between 240 244 b then
        utf8_decode (String c EmptyString) 3
                    (if b =? 240 then 144 else 128)
                    (if b =? 244 then 143 else 191) rest
      else (replacement ++ utf8_decode EmptyString 0 128 191 rest)%string in
    match needed with
    | O => lead
    | S n =>
      if between lo hi b then
        match n with
        | O => (pending ++ String c (utf8_decode EmptyString 0 128 191 rest))
                 %string
        | S _ =>
          utf8_decode (pending ++ String c EmptyString) n 128 191 rest
        end
      else (replacement ++ lead)%string
    end
  end.

(** napi_create_string_utf8 (env, str, length, &result): the string made of
    the [length] bytes at [str], as the UTF-8 bytes it reads back as. *)
Definition napi_create_string_utf8 (s : string) : string :=
  utf8_decode EmptyString 0 128 191 s.

(** Bytes 00 to 7F only: text that is its own UTF-8 decoding. *)
Fixpoint seven_bit (s : string) : bool :=
  match s with
  | EmptyString => true
  | String c s => (byte c <=? 127) && seven_bit s
  end.

(** Bytes 01 to 7F only: text that is its own C string and its own UTF-8
    decoding. *)
Fixpoint plain (s : string) : bool :=
  match s with
  | EmptyString => true
  | String c s => between 1 127 (byte c) && plain s
  end.

(** ** The storage engine *)

Module leveldb.

(** leveldb::Status: a code and, for a failure, the engine's message. *)
Inductive Code : Type :=
| kOk | kNotFound | kCorruption | kNotSupported | kInvalidArgument | kIOError.

Record Status : Type := mkStatus { code : Code; message : string }.

Definition OK : Status := mkStatus kOk "".

Definition ok (s : Status) : bool :=
  match code s with kOk => true | _ => false end.

Definition IsNotFound (s : Status) : bool :=
  match code s with kNotFound => true | _ => false end.

Definition prefix (c : Code) : string :=
  match c with
  | kOk => "OK"
  | kNotFound => "NotFound: "
  | kCorruption => "Corruption: "
  | kNotSupported => "Not implemented: "
  | kInvalidArgument => "Invalid argument: "
  | kIOError => "IO error: "
  end.

(** Status::ToString: "OK", or the code's prefix followed by the message. *)
Definition ToString (s : Status) : string :=
  match code s with
  | kOk => "OK"
  | c => (prefix c ++ message s)%string
  end.

(** A snapshot: the entries of the store at the time it was taken, in the
    order of the engine's bytewise comparator, and the status an iterator
    over it reports. *)
Record Snapshot : Type := mkSnapshot {
  snap_entries : list (string * string);
  snap_status : Status
}.

Record ReadOptions : Type := mkReadOptions {
  fill_cache : bool;
  snapshot : Snapshot
}.

(** leveldb::Iterator: the entries it ranges over and the index of the
    current entry; [None] when the iterator is not valid. *)
Record Iterator : Type := mkIterator {
  entries : list (string * string);
  pos : option nat;
  iter_status : Status
}.

Definition current (it : Iterator) : option (string * string) :=
  match pos it with
  | Some p => entries it !! p
  | None => None
  end.

Definition Valid (it : Iterator) : bool :=
  match current it with Some _ => true | None => false end.

Definition key (it : Iterator) : string :=
  match current it with Some kv => fst kv | None => "" end.

Definition value (it : Iterator) : string :=
  match current it with Some kv => snd kv | None => "" end.

Definition status (it : Iterator) : Status := iter_status it.

Definition at_index (it : Iterator) (i : nat) : Iterator :=
  mkIterator (entries it)
             (if (i <? length (entries it))%nat then Some i else None)
             (iter_status it).

Definition invalid (it : Iterator) : Iterator :=
  mkIterator (entries it) None (iter_status it).

Definition SeekToFirst (it : Iterator) : Iterator := at_index it 0.

Definition SeekToLast (it : Iterator) : Iterator :=
  match length (entries it) with
  | O => invalid it
  | S n => at_index it n
  end.

(** Index of the first entry whose key is at or past [target]. *)
Fixpoint lower_bound (target : string) (l : list (string * string)) : nat :=
  match l with
  | [] => O
  | kv :: r => if compare (fst kv) target >=? 0 then O
               else S (lower_bound target r)
  end.

Definition Seek (target : string) (it : Iterator) : Iterator :=
  at_index it (lower_bound target (entries it)).

(** Next and Prev require a valid iterator in the engine; on an iterator
    that is not valid the model leaves it not valid. *)
Definition Next (it : Iterator) : Iterator :=
  match pos it with
  | Some p => at_index it (S p)
  | None => it
  end.

Definition Prev (it : Iterator) : Iterator :=
  match pos it with
  | Some (S p) => at_index it p
  | Some O => invalid it
  | None => it
  end.

Definition NewIterator (options : ReadOptions) : Iterator :=
  mkIterator (snap_entries (snapshot options)) None
             (snap_status (snapshot options)).

(** leveldb::DB: the stored entries in key order, the status every
    operation reports when the store is damaged ([OK] when it is sound),
    and the number of snapshots handed out and not yet released. *)
Record DB : Type := mkDB {
  store : list (string * string);
  health : Status;
  held_snapshots : nat
}.

(** DB::Get: the status and, on success, the value found. *)
Definition Get (db : DB) (k : string) : Status * option string :=
  if ok (health db) then
    match List.find (fun kv => compare (fst kv) k =? 0) (store db) with
    | Some kv => (OK, Some (snd kv))
    | None => (mkStatus kNotFound "", None)
    end
  else (health db, None).

Definition GetSnapshot (db : DB) : DB * Snapshot :=
  (mkDB (store db) (health db) (S (held_snapshots db)),
   mkSnapshot (store db) (health db)).

Definition ReleaseSnapshot (db : DB) : DB :=
  mkDB (store db) (health db) (Nat.pred (held_snapshots db)).

(** A position, when there is one, designates an entry. *)
Definition wf (d : Iterator) : Prop :=
  match pos d with
  | Some p => (p < length (entries d))%nat
  | None => True
  end.

End leveldb.

(** ** JavaScript values seen through N-API *)

(** A string is held as the bytes napi_get_value_string_utf8 reads from it,
    a buffer as its bytes. *)

#[warnings="-register-all"]
Inductive napi_value : Type :=
| JsUndefined
| JsNull
| JsBoolean (b : bool)
| JsNumber (n : Z)
| JsString (utf8 : string)
| JsBuffer (bytes : string)
| JsError (msg : string)
| JsArray (elems : list napi_value)
| JsObject (props : gmap string napi_value).

(** Returns true if 'value' is a string otherwise false. *)
Definition IsString (value : napi_value) : bool :=
  match value with JsString _ => true | _ => false end.

(** Returns true if 'value' is a buffer otherwise false. *)
Definition IsBuffer (value : napi_value) : bool :=
  match value with JsBuffer _ => true | _ => false end.

(** Returns true if 'obj' has a property 'key'. *)
Definition HasProperty (obj : gmap string napi_value) (key : string) : bool :=
  bool_decide (is_Some (obj !! key)).

(** Returns a property in napi_value form. *)
Definition GetProperty (obj : gmap string napi_value) (key : string)
  : napi_value :=
  default JsUndefined (obj !! key).

(** napi_get_value_bool, napi_get_value_uint32, napi_get_value_int32: the
    value written to [*result].  On a value of another type the call fails
    and writes nothing: [None]. *)
Definition napi_get_value_bool (value : napi_value) : option bool :=
  match value with JsBoolean b => Some b | _ => None end.

Definition napi_get_value_uint32 (value : napi_value) : option Z :=
  match value with JsNumber n => Some (to_uint32 n) | _ => None end.

Definition napi_get_value_int32 (value : napi_value) : option Z :=
  match value with JsNumber n => Some (to_int32 n) | _ => None end.

(** The three property readers return their local [result], which nothing
    has initialised when the N-API call has failed: the value returned is
    then indeterminate, [None] here, and so is what the caller does with
    it. *)
Definition BooleanProperty (obj : gmap string napi_value) (key : string)
  (DEFAULT : bool) : option bool :=
  if HasProperty obj key then napi_get_value_bool (GetProperty obj key)
  else Some DEFAULT.

Definition Uint32Property (obj : gmap string napi_value) (key : string)
  (DEFAULT : Z) : option Z :=
  if HasProperty obj key then napi_get_value_uint32 (GetProperty obj key)
  else Some DEFAULT.

Definition Int32Property (obj : gmap string napi_value) (key : string)
  (DEFAULT : Z) : option Z :=
  if HasProperty obj key then napi_get_value_int32 (GetProperty obj key)
  else Some DEFAULT.

(** Returns length of string or buffer. *)
Definition StringOrBufferLength (value : napi_value) : Z :=
  match value with
  | JsString s => size s
  | JsBuffer b => size b
  | _ => 0
  end.

(** LD_STRING_OR_BUFFER_TO_COPY: the bytes copied out of a string or buffer
    ([to##Ch_] with length [to##Sz_]); nothing for another value. *)
Definition LD_STRING_OR_BUFFER_TO_COPY (from : napi_value) : option string :=
  match from with
  | JsString s => Some s
  | JsBuffer b => Some b
  | _ => None
  end.

(** Convert a napi_value to a leveldb::Slice. *)
Definition ToSlice (from : napi_value) : string :=
  default "" (LD_STRING_OR_BUFFER_TO_COPY from).

(** napi_create_array_with_length and napi_set_element: an element that was
    never set reads undefined; setting past the end extends the array. *)
Definition napi_create_array_with_length (n : nat) : list napi_value :=
  replicate n JsUndefined.

Definition napi_set_element (arr : list napi_value) (index : Z)
  (v : napi_value) : list napi_value :=
  let i := Z.to_nat (to_uint32 index) in
  if (i <? length arr)%nat then <[i := v]> arr
  else arr ++ replicate (i - length arr) JsUndefined ++ [v].

(** ** Workers *)

(** Pointers to [Iterator] objects and references to JavaScript callbacks. *)
Abbreviation ptr := positive.
Abbreviation napi_ref := positive.

(** What a worker derived from [BaseWorker] carries besides the base fields. *)
Inductive WorkerKind : Type :=
| CloseWorker
| GetWorker (key_ : string) (asBuffer_ : bool)
            (options_fill_cache : bool) (value_ : string)
| EndWorker (iterator_ : ptr)
| NextWorker (iterator_ : ptr) (result_ : list (string * string)) (ok_ : bool).

Record BaseWorker : Type := mkWorker {
  callbackRef_ : napi_ref;
  kind : WorkerKind;
  status_ : leveldb.Status;
  errMsg_ : option string
}.

(** The constructor: status_ is default-constructed (ok), errMsg_ is NULL. *)
Definition new_worker (callback : napi_ref) (k : WorkerKind) : BaseWorker :=
  mkWorker callback k leveldb.OK None.

(** Copied error message: strlen (msg) + 1 bytes of [msg]. *)
Definition SetErrorMessage (msg : string) (w : BaseWorker) : BaseWorker :=
  mkWorker (callbackRef_ w) (kind w) (status_ w) (Some (c_str msg)).

(** Store status. Note that error message has to be copied. *)
Definition SetStatus (status : leveldb.Status) (w : BaseWorker) : BaseWorker :=
  let w := mkWorker (callbackRef_ w) (kind w) status (errMsg_ w) in
  if leveldb.ok status then w
  else SetErrorMessage (leveldb.ToString status) w.

Definition set_kind (k : WorkerKind) (w : BaseWorker) : BaseWorker :=
  mkWorker (callbackRef_ w) k (status_ w) (errMsg_ w).

(** ** struct Iterator: owns a leveldb iterator *)

Record Iterator : Type := mkIterator {
  id_ : Z;
  start_ : option string;
  end_ : option string;
  reverse_ : bool;
  keys_ : bool;
  values_ : bool;
  limit_ : Z;
  lt_ : option string;
  lte_ : option string;
  gt_ : option string;
  gte_ : option string;
  keyAsBuffer_ : bool;
  valueAsBuffer_ : bool;
  highWaterMark_ : Z;
  dbIterator_ : option leveldb.Iterator;
  count_ : Z;
  target_ : option string;
  seeking_ : bool;
  landed_ : bool;
  nexting_ : bool;
  ended_ : bool;
  options_ : leveldb.ReadOptions;
  endWorker_ : option BaseWorker
}.

(** Assignments to the fields that change after construction. *)
Definition set_dbIterator (d : option leveldb.Iterator) (i : Iterator) :=
  mkIterator (id_ i) (start_ i) (end_ i) (reverse_ i) (keys_ i) (values_ i)
    (limit_ i) (lt_ i) (lte_ i) (gt_ i) (gte_ i) (keyAsBuffer_ i)
    (valueAsBuffer_ i) (highWaterMark_ i) d (count_ i) (target_ i)
    (seeking_ i) (landed_ i) (nexting_ i) (ended_ i) (options_ i)
    (endWorker_ i).

Definition set_count (c : Z) (i : Iterator) :=
  mkIterator (id_ i) (start_ i) (end_ i) (reverse_ i) (keys_ i) (values_ i)
    (limit_ i) (lt_ i) (lte_ i) (gt_ i) (gte_ i) (keyAsBuffer_ i)
    (valueAsBuffer_ i) (highWaterMark_ i) (dbIterator_ i) c (target_ i)
    (seeking_ i) (landed_ i) (nexting_ i) (ended_ i) (options_ i)
    (endWorker_ i).

Definition set_target (t : option string) (i : Iterator) :=
  mkIterator (id_ i) (start_ i) (end_ i) (reverse_ i) (keys_ i) (values_ i)
    (limit_ i) (lt_ i) (lte_ i) (gt_ i) (gte_ i) (keyAsBuffer_ i)
    (valueAsBuffer_ i) (highWaterMark_ i) (dbIterator_ i) (count_ i) t
    (seeking_ i) (landed_ i) (nexting_ i) (ended_ i) (options_ i)
    (endWorker_ i).

Definition set_seeking (b : bool) (i : Iterator) :=
  mkIterator (id_ i) (start_ i) (end_ i) (reverse_ i) (keys_ i) (values_ i)
    (limit_ i) (lt_ i) (lte_ i) (gt_ i) (gte_ i) (keyAsBuffer_ i)
    (valueAsBuffer_ i) (highWaterMark_ i) (dbIterator_ i) (count_ i)
    (target_ i) b (landed_ i) (nexting_ i) (ended_ i) (options_ i)
    (endWorker_ i).

Definition set_landed (b : bool) (i : Iterator) :=
  mkIterator (id_ i) (start_ i) (end_ i) (reverse_ i) (keys_ i) (values_ i)
    (limit_ i) (lt_ i) (lte_ i) (gt_ i) (gte_ i) (keyAsBuffer_ i)
    (valueAsBuffer_ i) (highWaterMark_ i) (dbIterator_ i) (count_ i)
    (target_ i) (seeking_ i) b (nexting_ i) (ended_ i) (options_ i)
    (endWorker_ i).

Definition set_nexting (b : bool) (i : Iterator) :=
  mkIterator (id_ i) (start_ i) (end_ i) (reverse_ i) (keys_ i) (values_ i)
    (limit_ i) (lt_ i) (lte_ i) (gt_ i) (gte_ i) (keyAsBuffer_ i)
    (valueAsBuffer_ i) (highWaterMark_ i) (dbIterator_ i) (count_ i)
    (target_ i) (seeking_ i) (landed_ i) b (ended_ i) (options_ i)
    (endWorker_ i).

Definition set_ended (b : bool) (i : Iterator) :=
  mkIterator (id_ i) (start_ i) (end_ i) (reverse_ i) (keys_ i) (values_ i)
    (limit_ i) (lt_ i) (lte_ i) (gt_ i) (gte_ i) (keyAsBuffer_ i)
    (valueAsBuffer_ i) (highWaterMark_ i) (dbIterator_ i) (count_ i)
    (target_ i) (seeking_ i) (landed_ i) (nexting_ i) b (options_ i)
    (endWorker_ i).

Definition set_endWorker (w : option BaseWorker) (i : Iterator) :=
  mkIterator (id_ i) (start_ i) (end_ i) (reverse_ i) (keys_ i) (values_ i)
    (limit_ i) (lt_ i) (lte_ i) (gt_ i) (gte_ i) (keyAsBuffer_ i)
    (valueAsBuffer_ i) (highWaterMark_ i) (dbIterator_ i) (count_ i)
    (target_ i) (seeking_ i) (landed_ i) (nexting_ i) (ended_ i) (options_ i)
    w.

(** The constructor, given the snapshot [database->NewSnapshot()] returned. *)
Definition new_Iterator (id : Z) (start end' : option string)
  (reverse keys values : bool) (limit : Z) (lt lte gt gte : option string)
  (fillCache keyAsBuffer valueAsBuffer : bool) (highWaterMark : Z)
  (snap : leveldb.Snapshot) : Iterator :=
  mkIterator id start end' reverse keys values limit lt lte gt gte
    keyAsBuffer valueAsBuffer highWaterMark None 0 None false false false
    false (leveldb.mkReadOptions fillCache snap) None.

Definition ReleaseTarget (i : Iterator) : Iterator := set_target None i.

Definition IteratorStatus (i : Iterator) : leveldb.Status :=
  match dbIterator_ i with
  | Some d => leveldb.status d
  | None => leveldb.OK
  end.

(** Creates and positions the leveldb iterator on first use; returns true
    when it did.  The iterator is created by database_->NewIterator, which
    dereferences db_: [GetIterator], [Read] and [IteratorNext] are the code
    on an open database, and [DoExecute] accounts for the dereference. *)
Definition GetIterator (i : Iterator) : bool * Iterator :=
  match dbIterator_ i with
  | Some _ => (false, i)
  | None =>
    let d := leveldb.NewIterator (options_ i) in
    let d :=
      match start_ i with
      | Some start =>
        let d := leveldb.Seek start d in
        if reverse_ i then
          let d :=
            if negb (leveldb.Valid d) then
              (* if it's past the last key, step back *)
              leveldb.SeekToLast d
            else
              let keyStr := leveldb.key d in
              match lt_ i, lte_ i with
              | Some lt, _ =>
                if compare lt keyStr <=? 0 then leveldb.Prev d else d
              | None, Some lte =>
                if compare lte keyStr <? 0 then leveldb.Prev d else d
              | None, None =>
                if negb (compare start keyStr =? 0) then leveldb.Prev d else d
              end in
          match lt_ i with
          | Some lt =>
            if leveldb.Valid d && (compare lt (leveldb.key d) <=? 0)
            then leveldb.Prev d else d
          | None => d
          end
        else
          match gt_ i with
          | Some gt =>
            if leveldb.Valid d && (compare gt (leveldb.key d) =? 0)
            then leveldb.Next d else d
          | None => d
          end
      | None =>
        if reverse_ i then leveldb.SeekToLast d else leveldb.SeekToFirst d
      end in
    (true, set_dbIterator (Some d) i)
  end.

(** The conjunction [Read] tests on a valid iterator, with [count] the value
    of count_ after its conditional increment. *)
Definition in_range (i : Iterator) (count : Z) (keyStr : string) : bool :=
  let isEnd := match end_ i with None => 1 | Some e => compare e keyStr end in
  ((limit_ i <? 0) || (count <=? limit_ i))
  && (match end_ i with
      | None => true
      | Some _ => (reverse_ i && (isEnd <=? 0))
                  || (negb (reverse_ i) && (isEnd >=? 0))
      end)
  && (match lt_ i, lte_ i with
      | Some lt, _ => compare lt keyStr >? 0
      | None, Some lte => compare lte keyStr >=? 0
      | None, None => true
      end)
  && (match gt_ i, gte_ i with
      | Some gt, _ => compare gt keyStr <? 0
      | None, Some gte => compare gte keyStr <=? 0
      | None, None => true
      end).

(** One step of the scan: the flag returned, the key and the value assigned
    (empty when not assigned) and the iterator afterwards. *)
Definition Read (i : Iterator) : bool * string * string * Iterator :=
  let '(fresh, i) := GetIterator i in
  match dbIterator_ i with
  | None => (false, "", "", i)  (* not reached: GetIterator has set it *)
  | Some d =>
    (* if it's not the first call, move to next item. *)
    let d := if negb fresh && negb (seeking_ i)
             then (if reverse_ i then leveldb.Prev d else leveldb.Next d)
             else d in
    let i := set_seeking false (set_dbIterator (Some d) i) in
    if leveldb.Valid d then
      let keyStr := leveldb.key d in
      (* limit_ < 0 || ++count_ <= limit_ *)
      let count := if limit_ i <? 0 then count_ i
                   else to_int32 (count_ i + 1) in
      let i := set_count count i in
      if in_range i count keyStr then
        (true,
         if keys_ i then leveldb.key d else "",
         if values_ i then leveldb.value d else "",
         i)
      else (false, "", "", i)
    else (false, "", "", i)
  end.

(** Positions the scan can still visit: a bound on the number of further
    successful [Read]s, and so on the turns of the loop in [IteratorNext]. *)
Definition remaining (i : Iterator) : nat :=
  match dbIterator_ i with
  | None => length (leveldb.snap_entries (leveldb.snapshot (options_ i)))
  | Some d =>
    match leveldb.pos d with
    | None => O
    | Some p =>
      ((if seeking_ i then 1 else 0)
       + (if reverse_ i then p else length (leveldb.entries d) - S p))%nat
    end
  end.

(** The body of [while (true)] in IteratorNext, [fuel] turns at most. *)
Fixpoint IteratorNext_loop (fuel : nat) (i : Iterator)
  (result : list (string * string)) (sz : Z)
  : option (bool * Iterator * list (string * string)) :=
  match fuel with
  | O => None
  | S fuel =>
    let '(ok, key, value, i) := Read i in
    if ok then
      let result := result ++ [(key, value)] in
      if negb (landed_ i) then Some (true, set_landed true i, result)
      else
        let sz := to_size_t (sz + size key + size value) in
        if sz >? highWaterMark_ i then Some (true, i, result)
        else IteratorNext_loop fuel i result sz
    else Some (false, i, result)
  end.

(** One advance: the flag returned, the iterator afterwards and [result]
    with the pairs pushed.  [None] would mean the loop has not returned
    within [S (remaining i)] turns; [IteratorNext_total] shows it always
    has. *)
Definition IteratorNext (i : Iterator) (result : list (string * string))
  : option (bool * Iterator * list (string * string)) :=
  IteratorNext_loop (S (remaining i)) i result 0.

(** Deletes the leveldb iterator; the caller releases the snapshot. *)
Definition IteratorEnd (i : Iterator) : Iterator := set_dbIterator None i.

(** ** struct Database *)

Record Database : Type := mkDatabase {
  db_ : option leveldb.DB;
  blockCache_ : option Z;
  filterPolicy_ : option Z;
  currentIteratorId_ : Z;
  pendingCloseWorker_ : option BaseWorker;
  iterators_ : gmap Z ptr
}.

(** Database (napi_env env): nothing open, no iterator, no pending close. *)
Definition new_Database : Database := mkDatabase None None None 0 None ∅.

Definition set_db (d : option leveldb.DB) (db : Database) : Database :=
  mkDatabase d (blockCache_ db) (filterPolicy_ db) (currentIteratorId_ db)
             (pendingCloseWorker_ db) (iterators_ db).

Definition CloseDatabase (db : Database) : Database :=
  mkDatabase None None None (currentIteratorId_ db) (pendingCloseWorker_ db)
             (iterators_ db).

(** Database::NewIterator: db_->NewIterator with the options.  [None]: db_
    is NULL. *)
Definition NewIterator (db : Database) (options : leveldb.ReadOptions)
  : option leveldb.Iterator :=
  _ ← db_ db; Some (leveldb.NewIterator options).

(** ** The objects, the work queue and the callbacks invoked *)

Record World : Type := mkWorld {
  database : Database;
  heap : gmap ptr Iterator;
  queue : list BaseWorker;
  calls : list (napi_ref * list napi_value)
}.

Definition set_database (db : Database) (w : World) : World :=
  mkWorld db (heap w) (queue w) (calls w).

Definition set_heap (h : gmap ptr Iterator) (w : World) : World :=
  mkWorld (database w) h (queue w) (calls w).

(** BaseWorker::Queue: napi_queue_async_work. *)
Definition Queue (worker : BaseWorker) (w : World) : World :=
  mkWorld (database w) (heap w) (queue w ++ [worker]) (calls w).

(** napi_call_function (env_, global, callback, argc, argv, NULL). *)
Definition napi_call_function (callback : napi_ref) (argv : list napi_value)
  (w : World) : World :=
  mkWorld (database w) (heap w) (queue w) (calls w ++ [(callback, argv)]).

(** Database::ReleaseIterator: called each time an Iterator is End()ed, in
    the main thread; removes the reference and, if it was the last iterator,
    invokes a pending CloseWorker if there is one. *)
Definition ReleaseIterator (id : Z) (w : World) : World :=
  let db := database w in
  let its := delete id (iterators_ db) in
  let db := mkDatabase (db_ db) (blockCache_ db) (filterPolicy_ db)
                       (currentIteratorId_ db) (pendingCloseWorker_ db) its in
  let w := set_database db w in
  match pendingCloseWorker_ db with
  | Some pending =>
    if bool_decide (its = ∅) then
      let w := Queue pending w in
      set_database (mkDatabase (db_ db) (blockCache_ db) (filterPolicy_ db)
                               (currentIteratorId_ db) None its) w
    else w
  | None => w
  end.

(** Close a database. *)
Definition db_close (callback : napi_ref) (w : World) : World :=
  let worker := new_worker callback CloseWorker in
  Queue worker w.

(** Gets a value from a database.  [None]: an option read is
    indeterminate. *)
Definition db_get (key : napi_value) (options : gmap string napi_value)
  (callback : napi_ref) (w : World) : option World :=
  asBuffer ← BooleanProperty options "asBuffer" true;
  fillCache ← BooleanProperty options "fillCache" true;
  let worker := new_worker callback
                  (GetWorker (ToSlice key) asBuffer fillCache "") in
  Some (Queue worker w).

(** The block [iterator] repeats for each of start, end, lt, lte, gt and
    gte: the option counts only if the property exists, is a string or a
    buffer and has a length above zero; the bytes are then copied. *)
Definition bound_option (options : gmap string napi_value) (name : string)
  : option string :=
  if HasProperty options name then
    let value := GetProperty options name in
    if IsString value || IsBuffer value then
      if StringOrBufferLength value >? 0
      then LD_STRING_OR_BUFFER_TO_COPY value
      else None
    else None
  else None.

(** [start] after the block of a directional bound: the bound replaces it
    when the bound is given and the scan runs in the bound's direction. *)
Definition override_start (applies : bool) (bound start : option string)
  : option string :=
  match bound with
  | Some b => if applies then Some b else start
  | None => start
  end.

(** Creates an iterator.  [None]: an option read is indeterminate, or the
    database is not open (db_ is NULL when the snapshot is taken). *)
Definition iterator (options : gmap string napi_value) (w : World)
  : option (ptr * World) :=
  reverse ← BooleanProperty options "reverse" false;
  keys ← BooleanProperty options "keys" true;
  values ← BooleanProperty options "values" true;
  fillCache ← BooleanProperty options "fillCache" false;
  keyAsBuffer ← BooleanProperty options "keyAsBuffer" true;
  valueAsBuffer ← BooleanProperty options "valueAsBuffer" true;
  limit ← Int32Property options "limit" (-1);
  highWaterMark ← Uint32Property options "highWaterMark" (16 * 1024);
  let start := bound_option options "start" in
  let end' := bound_option options "end" in
  let lt := bound_option options "lt" in
  let start := override_start reverse lt start in
  let lte := bound_option options "lte" in
  let start := override_start reverse lte start in
  let gt := bound_option options "gt" in
  let start := override_start (negb reverse) gt start in
  let gte := bound_option options "gte" in
  let start := override_start (negb reverse) gte start in
  let db := database w in
  match db_ db with
  | None => None
  | Some engine =>
    let id := currentIteratorId_ db in
    let '(engine, snap) := leveldb.GetSnapshot engine in
    let it := new_Iterator id start end' reverse keys values limit
                           lt lte gt gte fillCache keyAsBuffer valueAsBuffer
                           highWaterMark snap in
    let p := fresh (dom (heap w)) in
    let db := mkDatabase (Some engine) (blockCache_ db) (filterPolicy_ db)
                         (to_uint32 (id + 1)) (pendingCloseWorker_ db)
                         (<[id := p]> (iterators_ db)) in
    Some (p, mkWorld db (<[p := it]> (heap w)) (queue w) (calls w))
  end.

(** Ends an iterator.  A handle that designates no iterator is not modelled:
    the world stays as it is. *)
Definition iterator_end (p : ptr) (callback : napi_ref) (w : World) : World :=
  match heap w !! p with
  | None => w
  | Some it =>
    if negb (ended_ it) then
      let worker := new_worker callback (EndWorker p) in
      let it := set_ended true it in
      if nexting_ it then
        (* waiting for a next() to return, queue the end *)
        set_heap (<[p := set_endWorker (Some worker) it]> (heap w)) w
      else
        Queue worker (set_heap (<[p := it]> (heap w)) w)
    else w
  end.

Definition CheckEndCallback (p : ptr) (w : World) : World :=
  match heap w !! p with
  | None => w
  | Some it =>
    let it := set_nexting false (ReleaseTarget it) in
    match endWorker_ it with
    | Some worker =>
      set_heap (<[p := set_endWorker None it]> (heap w)) (Queue worker w)
    | None => set_heap (<[p := it]> (heap w)) w
    end
  end.

(** Moves an iterator to next element. *)
Definition iterator_next (p : ptr) (callback : napi_ref) (w : World) : World :=
  match heap w !! p with
  | None => w
  | Some it =>
    if ended_ it then w
    else
      let worker := new_worker callback (NextWorker p [] false) in
      Queue worker (set_heap (<[p := set_nexting true it]> (heap w)) w)
  end.

(** ** Running a worker *)

(** BaseWorker::Execute: the virtual DoExecute, off the main thread.  [None]
    stands for a dereferenced null or dangling pointer. *)
Definition DoExecute (worker : BaseWorker) (w : World)
  : option (BaseWorker * World) :=
  match kind worker with
  | CloseWorker =>
    Some (worker, set_database (CloseDatabase (database w)) w)
  | GetWorker key asBuffer fillCache _ =>
    engine ← db_ (database w);
    let '(st, v) := leveldb.Get engine key in
    Some (SetStatus st
            (set_kind (GetWorker key asBuffer fillCache (default "" v)) worker),
          w)
  | EndWorker p =>
    it ← heap w !! p;
    engine ← db_ (database w);
    Some (worker,
          set_heap (<[p := IteratorEnd it]> (heap w))
            (set_database
               (set_db (Some (leveldb.ReleaseSnapshot engine)) (database w))
               w))
  | NextWorker p result _ =>
    it ← heap w !! p;
    (* the first Read calls GetIterator, which calls database_->NewIterator
       when dbIterator_ is NULL *)
    _ ← match dbIterator_ it with
        | Some d => Some d
        | None => NewIterator (database w) (options_ it)
        end;
    '(ok, it, result) ← IteratorNext it result;
    let worker := set_kind (NextWorker p result ok) worker in
    let worker := if ok then worker
                  else SetStatus (IteratorStatus it) worker in
    Some (worker, set_heap (<[p := it]> (heap w)) w)
  end.

(** napi_create_buffer_copy or napi_create_string_utf8, by the flag. *)
Definition to_js (asBuffer : bool) (s : string) : napi_value :=
  if asBuffer then JsBuffer s else JsString (napi_create_string_utf8 s).

(** The loop of NextWorker::HandleOKCallback from row [idx] on: put the key
    and value in a descending order, so that they can be .pop:ed in
    javascript-land. *)
Fixpoint fill_array (keyAsBuffer valueAsBuffer : bool) (arraySize : Z)
  (idx : nat) (rows : list (string * string)) (jsArray : list napi_value)
  : list napi_value :=
  match rows with
  | [] => jsArray
  | row :: rows =>
    let returnKey := to_js keyAsBuffer (fst row) in
    let returnValue := to_js valueAsBuffer (snd row) in
    let jsArray :=
      napi_set_element jsArray
        (to_int32 (to_size_t (arraySize - Z.of_nat idx * 2 - 1))) returnKey in
    let jsArray :=
      napi_set_element jsArray
        (to_int32 (to_size_t (arraySize - Z.of_nat idx * 2 - 2)))
        returnValue in
    fill_array keyAsBuffer valueAsBuffer arraySize (S idx) rows jsArray
  end.

(** The array NextWorker::HandleOKCallback hands to the callback. *)
Definition result_array (keyAsBuffer valueAsBuffer : bool)
  (result : list (string * string)) : list napi_value :=
  let arraySize := to_size_t (Z.of_nat (length result) * 2) in
  fill_array keyAsBuffer valueAsBuffer arraySize 0 result
             (napi_create_array_with_length (Z.to_nat arraySize)).

(** The virtual HandleOKCallback; the default is to call back with NULL. *)
Definition HandleOKCallback (worker : BaseWorker) (w : World) : World :=
  match kind worker with
  | CloseWorker => napi_call_function (callbackRef_ worker) [JsNull] w
  | GetWorker _ asBuffer _ value =>
    napi_call_function (callbackRef_ worker) [JsNull; to_js asBuffer value] w
  | EndWorker p =>
    let w := match heap w !! p with
             | Some it => ReleaseIterator (id_ it) w   (* iterator_->Release() *)
             | None => w
             end in
    napi_call_function (callbackRef_ worker) [JsNull] w
  | NextWorker p result ok =>
    match heap w !! p with
    | None => w
    | Some it =>
      let jsArray := result_array (keyAsBuffer_ it) (valueAsBuffer_ it) result in
      (* clean up & handle the next/end state *)
      let w := CheckEndCallback p w in
      napi_call_function (callbackRef_ worker)
                         [JsNull; JsArray jsArray; JsBoolean (negb ok)] w
    end
  end.

(** BaseWorker::Complete on the main thread: DoComplete checks the status and
    calls HandleOKCallback if it is ok, and calls back with an error made of
    the copied message otherwise; the worker is then destroyed. *)
Definition DoComplete (worker : BaseWorker) (w : World) : World :=
  if leveldb.ok (status_ worker) then HandleOKCallback worker w
  else
    (* napi_create_string_utf8 (env_, errMsg_, strlen (errMsg_), &msg) *)
    let msg := napi_create_string_utf8 (c_str (default "" (errMsg_ worker))) in
    napi_call_function (callbackRef_ worker) [JsError msg] w.

(** Take the oldest queued worker, execute it and complete it. *)
Definition run_next (w : World) : option World :=
  match queue w with
  | [] => Some w
  | worker :: rest =>
    '(worker, w) ← DoExecute worker
                     (mkWorld (database w) (heap w) rest (calls w));
    Some (DoComplete worker w)
  end.

(** ** Predicates on cursors used in the proofs *)

(** Two iterators with the same construction-time fields. *)
Definition same_config (i j : Iterator) : Prop :=
  id_ j = id_ i /\ start_ j = start_ i /\ end_ j = end_ i
  /\ reverse_ j = reverse_ i /\ keys_ j = keys_ i /\ values_ j = values_ i
  /\ limit_ j = limit_ i /\ lt_ j = lt_ i /\ lte_ j = lte_ i
  /\ gt_ j = gt_ i /\ gte_ j = gte_ i
  /\ keyAsBuffer_ j = keyAsBuffer_ i /\ valueAsBuffer_ j = valueAsBuffer_ i
  /\ highWaterMark_ j = highWaterMark_ i /\ options_ j = options_ i.

(** The entries the scan ranges over. *)
Definition scan_entries (i : Iterator) : list (string * string) :=
  match dbIterator_ i with
  | Some d => leveldb.entries d
  | None => leveldb.snap_entries (leveldb.snapshot (options_ i))
  end.

(** count_ never exceeds the number of positions the scan has visited, so it
    stays below the number of entries. *)
Definition counted (i : Iterator) : Prop :=
  seeking_ i = false
  /\ 0 <= count_ i
  /\ match dbIterator_ i with
     | None => count_ i = 0
     | Some d =>
       match leveldb.pos d with
       | Some p =>
         (p < length (leveldb.entries d))%nat
         /\ count_ i <= (if reverse_ i
                         then Z.of_nat (length (leveldb.entries d) - p)
                         else Z.of_nat (S p))
       | None => count_ i <= Z.of_nat (length (leveldb.entries d))
       end
     end.

(** ** The scan without batching, and batching as the specification has it *)

(** The pairs successive [Read]s emit up to the first [Read] that fails, in
    [fuel] reads at most. *)
Fixpoint scan (fuel : nat) (i : Iterator) : list (string * string) :=
  match fuel with
  | O => []
  | S fuel =>
    let '(ok, key, value, i) := Read i in
    if ok then (key, value) :: scan fuel i else []
  end.

(** The whole remaining range of a cursor: what its per-step reads emit from
    where it stands until the scan stops. *)
Definition remaining_range (i : Iterator) : list (string * string) :=
  scan (S (remaining i)) i.

(** Key and value bytes of a list of pairs. *)
Definition byte_length (l : list (string * string)) : Z :=
  fold_right (fun kv acc => size (fst kv) + size (snd kv) + acc) 0 l.

(** The size_t accumulator [size] of IteratorNext after one more pair, and
    after the pairs of a list from zero. *)
Definition accumulate (sz : Z) (kv : string * string) : Z :=
  to_size_t (sz + size (fst kv) + size (snd kv)).

Definition accumulated (l : list (string * string)) : Z :=
  fold_left accumulate l 0.

(** Batching in the specification's words: take pairs of the range until the
    accumulated length exceeds [highWaterMark] (flag true) or the range is
    used up (flag false). *)
Fixpoint batch (highWaterMark sz : Z) (l : list (string * string))
  : bool * list (string * string) :=
  match l with
  | [] => (false, [])
  | kv :: l =>
    let sz := accumulate sz kv in
    if sz >? highWaterMark then (true, [kv])
    else let '(ok, b) := batch highWaterMark sz l in (ok, kv :: b)
  end.

(** The pairs [n] successive advance calls deliver, in order; each call is a
    new NextWorker, whose result_ starts empty. *)
Fixpoint advances (n : nat) (i : Iterator) : list (string * string) :=
  match n with
  | O => []
  | S n =>
    match IteratorNext i [] with
    | Some (_, i, result) => result ++ advances n i
    | None => []
    end
  end.

(** A forward cursor with no bound and no limit whose leveldb iterator
    stands at [pos]. *)
Definition unbounded_at (E : list (string * string)) (st : leveldb.Status)
  (pos : option nat) (landed : bool) (opts : leveldb.ReadOptions)
  (kb vb : bool) (hwm : Z) (id : Z) : Iterator :=
  mkIterator id None None false true true (-1) None None None None kb vb hwm
             (Some (leveldb.mkIterator E pos st)) 0 None false landed false
             false opts None.

(** ** A store with the keys a to f *)

Definition example_store : list (string * string) :=
  [("a", "va"); ("b", "vb"); ("c", "vc"); ("d", "vd"); ("e", "ve");
   ("f", "vf")]%string.

(** An open database over [example_store], nothing queued. *)
Definition example_world : World :=
  mkWorld (mkDatabase (Some (leveldb.mkDB example_store leveldb.OK 0))
                      (Some (8 * 2 ^ 20)) (Some 10) 0 None ∅)
          ∅ [] [].

(** The cursor [iterator] creates in [example_world] for [options]. *)
Definition example_cursor (options : gmap string napi_value)
  : option Iterator :=
  match iterator options example_world with
  | Some (p, w) => heap w !! p
  | None => None
  end.

(** The cursor of [iterator] with no option given: forward, no bound, no
    limit, highWaterMark 16 * 1024. *)
Definition fresh_cursor : Iterator :=
  new_Iterator 0 None None false true true (-1) None None None None
               false true true (16 * 1024)
               (leveldb.mkSnapshot example_store leveldb.OK).

(** [fresh_cursor] after its first advance: landed on the first entry. *)
Definition landed_cursor : Iterator :=
  set_landed true
    (set_dbIterator
       (Some (leveldb.mkIterator example_store (Some O) leveldb.OK))
       fresh_cursor).

(** A forward cursor over a to f with the option end set to c, standing on
    the entry of key b after it has emitted a and b. *)
Definition end_cursor : Iterator :=
  set_landed true
    (set_dbIterator
       (Some (leveldb.mkIterator example_store (Some 1%nat) leveldb.OK))
       (new_Iterator 0 None (Some "c"%string) false true true (-1)
                     None None None None false true true (16 * 1024)
                     (leveldb.mkSnapshot example_store leveldb.OK))).

(** The options and the cursor of the scan with bounds gte b, lt e and
    limit 2 over a to f. *)
Definition limit_options : gmap string napi_value :=
  <["limit" := JsNumber 2]>
    (<["lt" := JsString "e"]> (<["gte" := JsString "b"]> ∅)).

Definition limit_cursor : Iterator :=
  new_Iterator 0 (Some "b"%string) None false true true 2
               (Some "e"%string) None None (Some "b"%string)
               false true true (16 * 1024)
               (leveldb.mkSnapshot example_store leveldb.OK).

(** A world whose cursor at address 1 is [landed_cursor] with an advance
    in flight, and the worker of that advance after it has executed with two
    pairs and the flag true. *)
Definition advancing_world : World :=
  mkWorld (database example_world)
          {[ 1%positive := set_nexting true landed_cursor ]} [] [].

Definition executed_next_worker : BaseWorker :=
  mkWorker 7%positive
           (NextWorker 1%positive [("b", "vb"); ("c", "vc")]%string true)
           leveldb.OK None.

(** The names of the options [iterator] reads as range bounds. *)
Definition bound_names : list string :=
  ["start"; "end"; "lt"; "lte"; "gt"; "gte"]%string.

(** A world whose cursor at address 1 has ended. *)
Definition ended_world : World :=
  mkWorld (database example_world)
          {[ 1%positive := set_ended true landed_cursor ]} [] [].

(** Options whose end is a number and whose lt is an empty string. *)
Definition ignored_options : gmap string napi_value :=
  <["end" := JsNumber 5]> (<["lt" := JsString ""]> ∅).

(** The worker [db_get] queues in [example_world] for the key z, which the
    store does not hold. *)
Definition get_z_worker : BaseWorker :=
  new_worker 7%positive (GetWorker "z" true true "").

(** A world whose store reports an I/O error on every operation. *)
Definition damaged_world : World :=
  mkWorld (mkDatabase
             (Some (leveldb.mkDB example_store
                                 (leveldb.mkStatus leveldb.kIOError
                                                   "000005.ldb: read failed")
                                 0))
             (Some (8 * 2 ^ 20)) (Some 10) 0 None ∅)
          ∅ [] [].

(** A store that reports a corruption whose message holds a NUL byte. *)
Definition torn_status : leveldb.Status :=
  leveldb.mkStatus leveldb.kCorruption
    ("corrupted key for a" ++ String (ascii_of_N 0) "b.ldb")%string.

Definition torn_world : World :=
  mkWorld (mkDatabase (Some (leveldb.mkDB example_store torn_status 0))
                      (Some (8 * 2 ^ 20)) (Some 10) 0 None ∅)
          ∅ [] [].

(** [example_world] after [iterator] with no option: one cursor, with id 0,
    is registered. *)
Definition registered_world : World :=
  mkWorld (mkDatabase (Some (leveldb.mkDB example_store leveldb.OK 1))
                      (Some (8 * 2 ^ 20)) (Some 10) 1 None
                      {[ 0 := 1%positive ]})
          {[ 1%positive := fresh_cursor ]} [] [].

(** A world with one registered cursor whose snapshot cannot be read: its
    leveldb iterator is never valid and reports an I/O error. *)
Definition failing_cursor : Iterator :=
  new_Iterator 0 None None false true true (-1) None None None None
               false true true (16 * 1024)
               (leveldb.mkSnapshot
                  [] (leveldb.mkStatus leveldb.kIOError
                                       "000005.ldb: read failed")).

Definition failing_world : World :=
  mkWorld (mkDatabase (Some (leveldb.mkDB example_store leveldb.OK 1))
                      (Some (8 * 2 ^ 20)) (Some 10) 1 None
                      {[ 0 := 1%positive ]})
          {[ 1%positive := failing_cursor ]} [] [].

(** The options of the scans with bounds gte b and lt e, forward and in
    reverse. *)
Definition range_options (reverse : bool) : gmap string napi_value :=
  <["reverse" := JsBoolean reverse]>
    (<["lt" := JsString "e"]> (<["gte" := JsString "b"]> ∅)).

(** The flag and the pairs of each of [n] successive advance calls. *)
Fixpoint advance_calls (n : nat) (i : Iterator)
  : list (bool * list (string * string)) :=
  match n with
  | O => []
  | S n =>
    match IteratorNext i [] with
    | Some (ok, i, result) => (ok, result) :: advance_calls n i
    | None => []
    end
  end.

(** ** The scan as a function of the store *)

(** The pair [Read] assigns for an entry: the key and the value, each left
    empty when the cursor does not materialize it. *)
Definition emit (i : Iterator) (kv : string * string) : string * string :=
  (if keys_ i then fst kv else ""%string,
   if values_ i then snd kv else ""%string).

(** The test [Read] applies to the key of an entry when limit_ is negative. *)
Definition passes (i : Iterator) (kv : string * string) : bool :=
  in_range i 0 (fst kv).

(** The leveldb iterator [Read] examines: the one [GetIterator] has just
    positioned, or the one in place moved one step unless seeking_ is set. *)
Definition examined (i : Iterator) : leveldb.Iterator :=
  match dbIterator_ i with
  | Some d =>
    if seeking_ i then d
    else if reverse_ i then leveldb.Prev d else leveldb.Next d
  | None =>
    match dbIterator_ (snd (GetIterator i)) with
    | Some d => d
    | None => leveldb.NewIterator (options_ i)
    end
  end.

(** The longest prefix of a list whose elements pass a test. *)
Fixpoint take_while {A : Type} (P : A -> bool) (l : list A) : list A :=
  match l with
  | [] => []
  | x :: l => if P x then x :: take_while P l else []
  end.

(** Keys in strictly ascending byte order, as the engine keeps them. *)
Definition sorted (E : list (string * string)) : Prop :=
  forall m n a b,
    (m < n)%nat -> E !! m = Some a -> E !! n = Some b ->
    compare (fst a) (fst b) < 0.

(** The cursor after a read that examined [d], count_ left as it is. *)
Definition moved (i : Iterator) (d : leveldb.Iterator) : Iterator :=
  set_count (count_ i) (set_seeking false (set_dbIterator (Some d) i)).

(** The conjuncts of [in_range] other than the limit: the end bound, the
    bound of lt or lte and the bound of gt or gte. *)
Definition end_ok (i : Iterator) (keyStr : string) : bool :=
  match end_ i with
  | None => true
  | Some e => (reverse_ i && (compare e keyStr <=? 0))
              || (negb (reverse_ i) && (compare e keyStr >=? 0))
  end.

Definition upper_ok (i : Iterator) (keyStr : string) : bool :=
  match lt_ i, lte_ i with
  | Some lt, _ => compare lt keyStr >? 0
  | None, Some lte => compare lte keyStr >=? 0
  | None, None => true
  end.

Definition lower_ok (i : Iterator) (keyStr : string) : bool :=
  match gt_ i, gte_ i with
  | Some gt, _ => compare gt keyStr <? 0
  | None, Some gte => compare gte keyStr <=? 0
  | None, None => true
  end.

(** The entries a reverse scan has before it, the nearest first. *)
Definition behind (d : leveldb.Iterator) : list (string * string) :=
  match leveldb.pos d with
  | Some s => reverse (take (S s) (leveldb.entries d))
  | None => []
  end.


(** The same cursor with no limit (limit_ is -1, the default of the limit
    option, and count_ is then left at 0). *)
Definition without_limit (i : Iterator) : Iterator :=
  mkIterator (id_ i) (start_ i) (end_ i) (reverse_ i) (keys_ i) (values_ i)
    (-1) (lt_ i) (lte_ i) (gt_ i) (gte_ i) (keyAsBuffer_ i)
    (valueAsBuffer_ i) (highWaterMark_ i) (dbIterator_ i) 0 (target_ i)
    (seeking_ i) (landed_ i) (nexting_ i) (ended_ i) (options_ i)
    (endWorker_ i).

(** Adjacent keys in strictly ascending order, as a test. *)
Fixpoint sortedb (E : list (string * string)) : bool :=
  match E with
  | [] => true
  | a :: E' =>
    match E' with
    | [] => true
    | b :: _ => (compare (fst a) (fst b) <? 0) && sortedb E'
    end
  end.

(** Advance until a call reports the range exhausted, [calls] calls at most;
    the pairs delivered, in order. *)
Fixpoint drain (calls : nat) (i : Iterator) : option (list (string * string)) :=
  match calls with
  | O => None
  | S calls =>
    match IteratorNext i [] with
    | Some (true, i, result) =>
      match drain calls i with
      | Some rest => Some (result ++ rest)
      | None => None
      end
    | Some (false, _, result) => Some result
    | None => None
    end
  end.

(** ** What can happen to a world *)

(** A cursor later in its life: the fields set at construction are the
    same, and ended_ has not gone back to false. *)
Definition evolves (it it' : Iterator) : Prop :=
  same_config it it' /\ (ended_ it = true -> ended_ it' = true).

(** One event: a call of an exported function on the main thread, or one
    queued worker (any of them: the thread pool fixes no order) executing
    and completing. *)
Inductive step : World -> World -> Prop :=
| step_db_close callback w :
    step w (db_close callback w)
| step_db_get key options callback w w' :
    db_get key options callback w = Some w' -> step w w'
| step_iterator options w p w' :
    iterator options w = Some (p, w') -> step w w'
| step_iterator_next p callback w :
    step w (iterator_next p callback w)
| step_iterator_end p callback w :
    step w (iterator_end p callback w)
| step_run w before worker after worker' w' :
    queue w = before ++ worker :: after ->
    DoExecute worker (mkWorld (database w) (heap w) (before ++ after)
                              (calls w))
    = Some (worker', w') ->
    step w (DoComplete worker' w').




(** A later world keeps every cursor of an earlier one, evolved. *)
Definition keeps_cursors (w w' : World) : Prop :=
  forall p it, heap w !! p = Some it ->
               exists it', heap w' !! p = Some it' /\ evolves it it'.


(** ** Cursors over the keys a to f for the scans *)

(** Bounds gte b and lt e, forward and in reverse, as [iterator] creates
    them from [range_options]. *)
Definition range_forward : Iterator :=
  new_Iterator 0 (Some "b"%string) None false true true (-1)
               (Some "e"%string) None None (Some "b"%string)
               false true true (16 * 1024)
               (leveldb.mkSnapshot example_store leveldb.OK).

Definition range_reverse : Iterator :=
  new_Iterator 0 (Some "e"%string) None true true true (-1)
               (Some "e"%string) None None (Some "b"%string)
               false true true (16 * 1024)
               (leveldb.mkSnapshot example_store leveldb.OK).

(** The start option c and nothing else, forward and in reverse. *)
Definition start_forward : Iterator :=
  new_Iterator 0 (Some "c"%string) None false true true (-1)
               None None None None false true true (16 * 1024)
               (leveldb.mkSnapshot example_store leveldb.OK).

Definition start_reverse : Iterator :=
  new_Iterator 0 (Some "c"%string) None true true true (-1)
               None None None None false true true (16 * 1024)
               (leveldb.mkSnapshot example_store leveldb.OK).

(** A landed cursor with highWaterMark 0. *)
Definition tiny_cursor : Iterator :=
  set_landed true
    (set_dbIterator
       (Some (leveldb.mkIterator example_store (Some O) leveldb.OK))
       (new_Iterator 0 None None false true true (-1) None None None None
                     false true true 0
                     (leveldb.mkSnapshot example_store leveldb.OK))).

(** * Properties *)

(** ** The byte order *)

Lemma compare_antisym (a b : string) : compare b a = - compare a b.
Proof.
  unfold compare. rewrite (String.compare_antisym b a).
  destruct (String.compare a b); reflexivity.
Qed.

Lemma compare_refl (a : string) : compare a a = 0.
Proof.
  assert (H : String.compare a a = Eq).
  { induction a as [|c a IH]; [reflexivity|].
    simpl. unfold Ascii.compare. rewrite N.compare_refl. exact IH. }
  unfold compare. rewrite H. reflexivity.
Qed.

Lemma compare_eq (a b : string) : compare a b = 0 -> a = b.
Proof.
  unfold compare. destruct (String.compare a b) eqn:E; try discriminate.
  intros _. apply String.compare_eq_iff. exact E.
Qed.

(** ** The engine's iterator stays inside its entries *)

Module leveldb_facts.
Import leveldb.


Lemma wf_at_index d n : wf (at_index d n).
Proof.
  unfold wf, at_index; simpl.
  destruct (n <? length (entries d))%nat eqn:E; [|exact I].
  apply Nat.ltb_lt. exact E.
Qed.

Lemma wf_invalid d : wf (invalid d).
Proof. exact I. Qed.

Lemma wf_SeekToFirst d : wf (SeekToFirst d).
Proof. apply wf_at_index. Qed.

Lemma wf_SeekToLast d : wf (SeekToLast d).
Proof.
  unfold SeekToLast. destruct (length (entries d)); [apply wf_invalid|apply wf_at_index].
Qed.

Lemma wf_Seek t d : wf (Seek t d).
Proof. apply wf_at_index. Qed.

Lemma wf_Next d : wf d -> wf (Next d).
Proof.
  unfold Next. destruct (pos d) eqn:E; [intros _; apply wf_at_index|auto].
Qed.

Lemma wf_Prev d : wf d -> wf (Prev d).
Proof.
  unfold Prev. destruct (pos d) as [[|p]|] eqn:E; intros H;
    [apply wf_invalid|apply wf_at_index|exact H].
Qed.

Lemma wf_NewIterator o : wf (NewIterator o).
Proof. exact I. Qed.

Lemma entries_at_index d n : entries (at_index d n) = entries d.
Proof. reflexivity. Qed.

Lemma entries_SeekToLast d : entries (SeekToLast d) = entries d.
Proof. unfold SeekToLast. destruct (length (entries d)); reflexivity. Qed.

Lemma entries_Next d : entries (Next d) = entries d.
Proof. unfold Next. destruct (pos d); reflexivity. Qed.

Lemma entries_Prev d : entries (Prev d) = entries d.
Proof. unfold Prev. destruct (pos d) as [[|p]|]; reflexivity. Qed.

Lemma Valid_pos d :
  Valid d = true -> exists p, pos d = Some p /\ (p < length (entries d))%nat.
Proof.
  unfold Valid, current. destruct (pos d) as [p|]; [|discriminate].
  destruct (entries d !! p) eqn:E; [|discriminate].
  intros _. exists p. split; [reflexivity|].
  apply lookup_lt_Some in E. exact E.
Qed.

Lemma pos_at_index_Some d n p :
  pos (at_index d n) = Some p -> p = n /\ (n < length (entries d))%nat.
Proof.
  unfold at_index; simpl.
  destruct (n <? length (entries d))%nat eqn:E; [|discriminate].
  intros [= <-]. split; [reflexivity|]. apply Nat.ltb_lt. exact E.
Qed.

End leveldb_facts.

Create HintDb leveldb.
Create Rewrite HintDb leveldb_entries.

#[local] Hint Resolve leveldb_facts.wf_at_index leveldb_facts.wf_invalid
  leveldb_facts.wf_SeekToFirst leveldb_facts.wf_SeekToLast
  leveldb_facts.wf_Seek leveldb_facts.wf_Next leveldb_facts.wf_Prev
  leveldb_facts.wf_NewIterator : leveldb.

#[local] Hint Rewrite leveldb_facts.entries_at_index
  leveldb_facts.entries_SeekToLast leveldb_facts.entries_Next
  leveldb_facts.entries_Prev : leveldb_entries.

(** ** What [GetIterator] and [Read] leave alone *)


Lemma same_config_refl i : same_config i i.
Proof. repeat split. Qed.


(** [GetIterator] either finds the leveldb iterator in place, or creates one
    over the snapshot and leaves it at a position inside the entries. *)
Lemma GetIterator_cases (i : Iterator) :
  (exists d, dbIterator_ i = Some d /\ GetIterator i = (false, i))
  \/ (dbIterator_ i = None
      /\ exists d, GetIterator i = (true, set_dbIterator (Some d) i)
                   /\ leveldb.wf d
                   /\ leveldb.entries d
                      = leveldb.snap_entries (leveldb.snapshot (options_ i))).
Proof.
  unfold GetIterator. destruct (dbIterator_ i) as [d|] eqn:E.
  - left. exists d. split; reflexivity.
  - right. split; [reflexivity|]. eexists. split; [reflexivity|].
    split.
    + repeat first
        [ progress auto with leveldb
        | apply leveldb_facts.wf_Prev
        | apply leveldb_facts.wf_Next
        | match goal with
          | |- leveldb.wf (match ?x with _ => _ end) => destruct x
          | |- leveldb.wf (if ?x then _ else _) => destruct x
          end ].
    + repeat first
        [ reflexivity
        | progress autorewrite with leveldb_entries
        | match goal with
          | |- leveldb.entries (match ?x with _ => _ end) = _ => destruct x
          | |- leveldb.entries (if ?x then _ else _) = _ => destruct x
          end ].
Qed.

(** Case analysis on [Read i]: [GetIterator] is replaced by its two cases
    and the definition is unfolded. *)
Ltac read_cases i :=
  unfold Read;
  let d := fresh "d" in
  let E := fresh "Edb" in
  let G := fresh "Eget" in
  let W := fresh "Wf" in
  let En := fresh "Eent" in
  destruct (GetIterator_cases i) as [(d & E & G) | (E & d & G & W & En)];
  rewrite G; cbn [dbIterator_ set_dbIterator set_seeking set_count];
  try rewrite E.

Lemma Read_same_config i ok k v i' :
  Read i = (ok, k, v, i') ->
  same_config i i' /\ landed_ i' = landed_ i /\ seeking_ i' = false
  /\ nexting_ i' = nexting_ i /\ ended_ i' = ended_ i
  /\ endWorker_ i' = endWorker_ i.
Proof.
  read_cases i; cbn;
    repeat (match goal with
            | |- context [if ?x then _ else _] => destruct x
            end);
    intros [= <- <- <- <-]; repeat split.
Qed.

(** A successful [Read] uses up one of the positions left to visit. *)
Lemma Read_remaining i k v i' :
  Read i = (true, k, v, i') -> (remaining i' < remaining i)%nat.
Proof.
  read_cases i; cbn.
  - (* the leveldb iterator exists: step unless seeking *)
    destruct (seeking_ i) eqn:Es; cbn.
    + destruct (leveldb.Valid d) eqn:V; [|discriminate].
      destruct (in_range _ _ _); [|discriminate].
      intros [= <- <- <-]. unfold remaining; cbn. rewrite Edb, Es.
      apply leveldb_facts.Valid_pos in V. destruct V as (p & -> & _). lia.
    + set (d' := if reverse_ i then leveldb.Prev d else leveldb.Next d).
      destruct (leveldb.Valid d') eqn:V; [|discriminate].
      destruct (in_range _ _ _); [|discriminate].
      intros [= <- <- <-]. unfold remaining; cbn. rewrite Edb, Es.
      apply leveldb_facts.Valid_pos in V. destruct V as (p & Hp & Hlt).
      rewrite Hp. subst d'. destruct (reverse_ i).
      * unfold leveldb.Prev in *. destruct (leveldb.pos d) as [[|q]|] eqn:Ep;
          try (cbn in Hp; congruence).
        apply leveldb_facts.pos_at_index_Some in Hp. lia.
      * unfold leveldb.Next in *. destruct (leveldb.pos d) as [q|] eqn:Ep;
          try (cbn in Hp; congruence).
        apply leveldb_facts.pos_at_index_Some in Hp.
        rewrite leveldb_facts.entries_at_index in *. lia.
  - (* first use: the iterator has just been positioned *)
    destruct (leveldb.Valid d) eqn:V; [|discriminate].
    destruct (in_range _ _ _); [|discriminate].
    intros [= <- <- <-]. unfold remaining; cbn. rewrite Edb, <- Eent.
    apply leveldb_facts.Valid_pos in V. destruct V as (p & -> & Hlt).
    destruct (reverse_ i); lia.
Qed.

(** ** The loop of [IteratorNext] returns *)

Lemma IteratorNext_loop_total (fuel : nat) :
  forall i result sz,
    (remaining i < fuel)%nat ->
    exists r, IteratorNext_loop fuel i result sz = Some r.
Proof.
  induction fuel as [|fuel IH]; intros i result sz Hrem; [lia|].
  cbn [IteratorNext_loop].
  destruct (Read i) as [[[ok k] v] i1] eqn:ER.
  destruct ok; [|eexists; reflexivity].
  destruct (negb (landed_ i1)); [eexists; reflexivity|].
  destruct (_ >? _); [eexists; reflexivity|].
  apply IH. apply Read_remaining in ER. lia.
Qed.

Lemma IteratorNext_total i result :
  exists r, IteratorNext i result = Some r.
Proof. apply IteratorNext_loop_total. lia. Qed.

(** ** One advance against the scan it batches *)

Lemma scan_Read fuel i :
  scan (S fuel) i
  = (if fst (fst (fst (Read i)))
     then (snd (fst (fst (Read i))), snd (fst (Read i)))
          :: scan fuel (snd (Read i))
     else []).
Proof. cbn [scan]. destruct (Read i) as [[[ok k] v] i1]. reflexivity. Qed.

(** Once the cursor has landed, the loop is [batch] over the scan. *)
Lemma IteratorNext_loop_batch (fuel : nat) :
  forall i result sz,
    landed_ i = true ->
    (remaining i < fuel)%nat ->
    exists i',
      IteratorNext_loop fuel i result sz
      = Some (fst (batch (highWaterMark_ i) sz (scan fuel i)), i',
              result ++ snd (batch (highWaterMark_ i) sz (scan fuel i))).
Proof.
  induction fuel as [|fuel IH]; intros i result sz Hl Hrem; [lia|].
  rewrite scan_Read. cbn [IteratorNext_loop].
  destruct (Read i) as [[[ok k] v] i1] eqn:ER. cbn [fst snd].
  destruct (Read_same_config _ _ _ _ _ ER) as (Hc & Hl1 & _).
  assert (Hh : highWaterMark_ i1 = highWaterMark_ i) by apply Hc.
  destruct ok.
  - rewrite Hl1, Hl, Hh. cbn [negb batch].
    change (accumulate sz (k, v)) with (to_size_t (sz + size k + size v)).
    destruct (to_size_t (sz + size k + size v) >? highWaterMark_ i) eqn:Ehw.
    + eexists. reflexivity.
    + destruct (IH i1 (result ++ [(k, v)])
                   (to_size_t (sz + size k + size v))) as (i' & Hi').
      * congruence.
      * apply Read_remaining in ER. lia.
      * exists i'. rewrite Hh in Hi'. rewrite Hi'.
        destruct (batch (highWaterMark_ i) _ _) as [ok' b]. cbn [fst snd].
        rewrite <- app_assoc. reflexivity.
  - exists i1. cbn [batch fst snd]. rewrite app_nil_r. reflexivity.
Qed.

(** Before the cursor has landed, the loop returns at the first pair. *)
Lemma IteratorNext_loop_landing fuel i result sz :
  landed_ i = false ->
  exists i',
    IteratorNext_loop (S fuel) i result sz
    = Some (match scan (S fuel) i with [] => false | _ => true end, i',
            result ++ take 1 (scan (S fuel) i)).
Proof.
  intros Hl. rewrite scan_Read. cbn [IteratorNext_loop].
  destruct (Read i) as [[[ok k] v] i1] eqn:ER. cbn [fst snd].
  destruct (Read_same_config _ _ _ _ _ ER) as (_ & Hl1 & _).
  destruct ok.
  - rewrite Hl1, Hl. cbn. eexists. reflexivity.
  - exists i1. cbn. rewrite app_nil_r. reflexivity.
Qed.

(** What [batch] returns: a prefix of the range, cut at the first pair with
    which the accumulator exceeds the mark, or the whole range. *)
Lemma batch_cases h :
  forall l sz ok b,
    batch h sz l = (ok, b) ->
    (exists rest, l = b ++ rest)
    /\ (forall n, (0 < n < length b)%nat ->
                  fold_left accumulate (take n b) sz <= h)
    /\ (if ok then b <> [] /\ fold_left accumulate b sz > h
        else b = l /\ (b <> [] -> fold_left accumulate b sz <= h)).
Proof.
  induction l as [|kv l IH]; intros sz ok b; cbn [batch].
  - intros [= <- <-]. split; [exists []; reflexivity|].
    split; [cbn; lia|]. split; [reflexivity|]. intros H; contradiction H; reflexivity.
  - destruct (Z.gtb_spec (accumulate sz kv) h) as [Ehw|Ehw].
    + intros [= <- <-]. split; [exists l; reflexivity|].
      split; [cbn; lia|]. split; [discriminate|]. cbn [fold_left]. lia.
    + destruct (batch h (accumulate sz kv) l) as [ok' b'] eqn:Eb.
      intros [= <- <-].
      destruct (IH _ _ _ Eb) as ((rest & Hrest) & Hpre & Hend).
      split; [exists rest; rewrite Hrest; reflexivity|].
      split.
      * intros n Hn. destruct n as [|n]; [lia|]. cbn [take fold_left].
        destruct n as [|n]; [rewrite firstn_O; cbn [fold_left]; lia|].
        apply Hpre. cbn [length] in Hn. lia.
      * destruct ok'.
        -- split; [discriminate|]. cbn [fold_left]. apply Hend.
        -- destruct Hend as [-> Hle]. split; [reflexivity|].
           intros _. cbn [fold_left].
           destruct l as [|kv' l']; [cbn [fold_left]; lia|].
           apply Hle. discriminate.
Qed.

(** A range that fits under the mark is returned whole. *)
Lemma batch_fits h :
  forall l sz,
    h < 2 ^ 64 -> 0 <= sz -> sz + byte_length l <= h ->
    batch h sz l = (false, l).
Proof.
  induction l as [|kv l IH]; intros sz Hh Hsz Hfit; [reflexivity|].
  cbn [batch]. cbn [byte_length fold_right] in Hfit.
  fold (byte_length l) in Hfit.
  assert (Hl : 0 <= byte_length l).
  { clear. induction l as [|x l IHl]; cbn; [lia|].
    fold (byte_length l). unfold size. lia. }
  assert (Hacc : accumulate sz kv = sz + size (fst kv) + size (snd kv)).
  { unfold accumulate, to_size_t. apply Z.mod_small. unfold size in *. lia. }
  rewrite Hacc.
  destruct (Z.gtb_spec (sz + size (fst kv) + size (snd kv)) h) as [Ehw|Ehw];
    [lia|].
  rewrite IH; [reflexivity|lia| |lia]. unfold size. lia.
Qed.

(** ** The remaining range of a cursor without bounds *)

(** From entry [p] a forward cursor with no bound and no limit scans the
    entries after [p]; created afresh, it scans the whole snapshot. *)
Lemma scan_unbounded_at E st opts kb vb hwm id (fuel : nat) :
  forall p landed,
    (length E - S p < fuel)%nat ->
    scan fuel (unbounded_at E st (Some p) landed opts kb vb hwm id)
    = drop (S p) E.
Proof.
  induction fuel as [|fuel IH]; intros p landed Hfuel; [lia|].
  cbn [scan]. unfold Read, GetIterator, unbounded_at.
  cbn -[Nat.ltb leveldb.Next leveldb.Valid leveldb.key leveldb.value].
  unfold leveldb.Next, leveldb.at_index.
  cbn -[Nat.ltb leveldb.Valid leveldb.key leveldb.value].
  destruct (Nat.ltb_spec (S p) (length E)) as [Hlt|Hge].
  - destruct (lookup_lt_is_Some_2 E (S p) Hlt) as [kv Hkv].
    unfold leveldb.Valid, leveldb.current, leveldb.key, leveldb.value.
    cbn -[Nat.ltb]. rewrite Hkv. cbn -[Nat.ltb].
    rewrite (drop_S E kv (S p) Hkv). destruct kv as [k v]. cbn. f_equal.
    apply (IH (S p) landed). lia.
  - unfold leveldb.Valid, leveldb.current. cbn.
    rewrite drop_ge by lia. reflexivity.
Qed.

Lemma remaining_range_unbounded (id : Z) (fillCache kb vb : bool) (hwm : Z)
  (snap : leveldb.Snapshot) :
  remaining_range
    (new_Iterator id None None false true true (-1) None None None None
                  fillCache kb vb hwm snap)
  = leveldb.snap_entries snap.
Proof.
  unfold remaining_range, remaining, new_Iterator.
  cbn -[scan]. set (E := leveldb.snap_entries snap).
  cbn [scan]. unfold Read, GetIterator.
  cbn -[Nat.ltb leveldb.SeekToFirst leveldb.Valid leveldb.key leveldb.value scan].
  unfold leveldb.SeekToFirst, leveldb.at_index, leveldb.NewIterator.
  cbn -[Nat.ltb leveldb.Valid leveldb.key leveldb.value scan].
  fold E.
  destruct E as [|[k v] E'] eqn:EE; [reflexivity|].
  cbn -[scan]. f_equal.
  change (scan (S (length E'))
            (unbounded_at ((k, v) :: E') (leveldb.snap_status snap) (Some O)
                          false (leveldb.mkReadOptions fillCache snap)
                          kb vb hwm id)
          = drop 1 ((k, v) :: E')).
  apply scan_unbounded_at. cbn. lia.
Qed.

(** ** The scans of the specification's examples *)

Example forward_range_scan :
  option_map remaining_range (example_cursor (range_options false))
  = Some [("b", "vb"); ("c", "vc"); ("d", "vd")]%string.
Proof. vm_compute. reflexivity. Qed.

Example reverse_range_scan :
  option_map remaining_range (example_cursor (range_options true))
  = Some [("d", "vd"); ("c", "vc"); ("b", "vb")]%string.
Proof. vm_compute. reflexivity. Qed.

(** With a highWaterMark below the size of an entry every advance returns
    one pair. *)
Example one_pair_per_advance :
  option_map (advance_calls 4)
             (example_cursor (<["highWaterMark" := JsNumber 0]>
                                (range_options false)))
  = Some [(true, [("b", "vb")]); (true, [("c", "vc")]);
          (true, [("d", "vd")]); (false, [])]%string.
Proof. vm_compute. reflexivity. Qed.

(** ** C2: what one advance call returns *)

Example example_cursor_default : example_cursor ∅ = Some fresh_cursor.
Proof. vm_compute. reflexivity. Qed.

Example fresh_cursor_first_advance :
  IteratorNext fresh_cursor []
  = Some (true, landed_cursor, [("a", "va")]%string).
Proof. vm_compute. reflexivity. Qed.

(** C2, as stated, fails: the fresh cursor over the keys a to f with the
    default highWaterMark of 16384 bytes has a remaining range of six pairs
    and 18 bytes, yet its first advance returns the single pair of key a
    with the flag of [IteratorNext] true (exhausted false), not the whole
    range with exhausted true. *)
Lemma C2_counterexample :
  byte_length (remaining_range fresh_cursor) < highWaterMark_ fresh_cursor
  /\ remaining_range fresh_cursor = example_store
  /\ IteratorNext fresh_cursor []
     = Some (true, landed_cursor, [("a", "va")]%string)
  /\ ~ (exists i', IteratorNext fresh_cursor []
                   = Some (false, i', remaining_range fresh_cursor)).
Proof.
  split; [vm_compute; reflexivity|].
  split; [vm_compute; reflexivity|].
  split; [exact fresh_cursor_first_advance|].
  intros (i' & H). rewrite fresh_cursor_first_advance in H. discriminate H.
Qed.

(** Before the cursor has landed, a call that reads a pair marks the cursor
    landed. *)
Lemma IteratorNext_loop_lands fuel i result sz ok i' result' :
  landed_ i = false ->
  IteratorNext_loop (S fuel) i result sz = Some (ok, i', result') ->
  ok = true -> landed_ i' = true.
Proof.
  intros Hl. cbn [IteratorNext_loop].
  destruct (Read i) as [[[ok1 k] v] i1] eqn:ER.
  destruct (Read_same_config _ _ _ _ _ ER) as (_ & Hl1 & _).
  destruct ok1.
  - rewrite Hl1, Hl. cbn [negb]. intros [= <- <- <-] _. reflexivity.
  - intros [= <- <- <-]. discriminate.
Qed.

(** C2, amended.  Every advance call returns, and its pairs are a prefix of
    the cursor's remaining range.  On a cursor that had not landed yet the
    call returns the first pair of the range alone, with the flag true, and
    the cursor has landed; if the range is empty it returns nothing with the
    flag false.  On a cursor that had landed the call ends in one of two
    ways: it returns with the flag true at the first pair with which the
    accumulated key and value length exceeds highWaterMark_; or the range is
    exhausted: the flag is false and the call has returned all of the
    remaining range, the accumulated length never having exceeded
    highWaterMark_.  In particular, for a cursor that has landed, when
    highWaterMark_ is at least the byte length of the whole remaining range,
    one advance returns the entire remaining range with the flag false
    (exhausted true). *)
Theorem C2_advance_batches (i : Iterator) :
  exists ok i' result,
    IteratorNext i [] = Some (ok, i', result)
    /\ (exists rest, remaining_range i = result ++ rest)
    /\ (if landed_ i
        then (ok = true /\ result <> []
              /\ accumulated result > highWaterMark_ i
              /\ forall n, (0 < n < length result)%nat ->
                           accumulated (take n result) <= highWaterMark_ i)
             \/ (ok = false /\ result = remaining_range i
                 /\ forall n, (0 < n <= length result)%nat ->
                              accumulated (take n result) <= highWaterMark_ i)
        else match remaining_range i with
             | [] => ok = false /\ result = []
             | kv :: _ => ok = true /\ result = [kv] /\ landed_ i' = true
             end)
    /\ (landed_ i = true ->
        highWaterMark_ i < 2 ^ 64 ->
        byte_length (remaining_range i) <= highWaterMark_ i ->
        ok = false /\ result = remaining_range i).
Proof.
  destruct (landed_ i) eqn:Hl.
  - destruct (IteratorNext_loop_batch (S (remaining i)) i [] 0 Hl) as (i' & Hi');
      [lia|].
    fold (remaining_range i) in Hi'. fold (IteratorNext i []) in Hi'.
    destruct (batch (highWaterMark_ i) 0 (remaining_range i)) as [ok b] eqn:Eb.
    cbn [fst snd app] in Hi'.
    destruct (batch_cases _ _ _ _ _ Eb) as (Hrest & Hpre & Hend).
    exists ok, i', b. split; [exact Hi'|]. split; [exact Hrest|]. split.
    + destruct ok.
      * left. destruct Hend as [Hne Hgt]. auto.
      * right. destruct Hend as [Hb Hle].
        split; [reflexivity|]. split; [exact Hb|].
        intros n Hn.
        destruct (decide (n = length b)) as [->|Hne].
        -- rewrite firstn_all. apply Hle. intros ->. cbn in Hn. lia.
        -- apply Hpre. lia.
    + intros _ Hh Hfit.
      rewrite batch_fits in Eb; [|exact Hh|lia|lia].
      injection Eb as <- <-. split; reflexivity.
  - destruct (IteratorNext_loop_landing (remaining i) i [] 0 Hl) as (i' & Hi').
    pose proof (IteratorNext_loop_lands (remaining i) i [] 0 _ _ _ Hl Hi')
      as Hlands.
    fold (remaining_range i) in Hi', Hlands. fold (IteratorNext i []) in Hi'.
    cbn [app] in Hi'.
    destruct (remaining_range i) as [|kv r] eqn:Er.
    + exists false, i', []. split; [exact Hi'|]. split; [exists []; reflexivity|].
      split; [|discriminate]. split; reflexivity.
    + exists true, i', [kv]. split; [exact Hi'|].
      split; [exists r; reflexivity|].
      split; [|discriminate]. split; [reflexivity|].
      split; [reflexivity|]. apply Hlands. reflexivity.
Qed.

(** The amended C2 at work: the first advance of the fresh cursor over a to
    f returns the pair of a alone; the cursor has then landed, and its
    second advance returns the five remaining pairs at once with the flag
    false. *)
Lemma C2_advance_batches_witness :
  (exists i', IteratorNext fresh_cursor []
              = Some (true, i', [("a", "va")]%string)
              /\ landed_ i' = true)
  /\ landed_ landed_cursor = true
  /\ remaining_range landed_cursor = tail example_store
  /\ exists i', IteratorNext landed_cursor []
                = Some (false, i', remaining_range landed_cursor).
Proof.
  split.
  - destruct (C2_advance_batches fresh_cursor)
      as (ok & i' & result & H1 & _ & H3 & _).
    assert (Hr : remaining_range fresh_cursor = example_store)
      by (vm_compute; reflexivity).
    rewrite Hr in H3.
    change (ok = true /\ result = [("a", "va")]%string /\ landed_ i' = true)
      in H3.
    destruct H3 as (-> & -> & Hl). exists i'. split; [exact H1|exact Hl].
  - split; [reflexivity|]. split; [vm_compute; reflexivity|].
    destruct (C2_advance_batches landed_cursor)
      as (ok & i' & result & H1 & _ & _ & H4).
    destruct H4 as [-> ->];
      [reflexivity | reflexivity | vm_compute; discriminate |].
    exists i'. exact H1.
Defined.

(** ** C3: the end bound *)

(** On a valid position the flag of [Read] is the conjunction [in_range]. *)
Lemma Read_flag i ok k v i' d :
  Read i = (ok, k, v, i') ->
  dbIterator_ i' = Some d ->
  leveldb.Valid d = true ->
  ok = in_range i (count_ i') (leveldb.key d).
Proof.
  read_cases i; cbn.
  - set (d' := if negb (seeking_ i) then _ else _).
    destruct (leveldb.Valid d') eqn:V.
    + destruct (in_range _ _ _) eqn:R; intros [= <- <- <- <-] [= <-] _;
        cbn; rewrite <- R; reflexivity.
    + intros [= <- <- <- <-] [= <-] V'. congruence.
  - destruct (leveldb.Valid d0) eqn:V.
    + destruct (in_range _ _ _) eqn:R; intros [= <- <- <- <-] [= <-] _;
        cbn; rewrite <- R; reflexivity.
    + intros [= <- <- <- <-] [= <-] V'. congruence.
Qed.

(** C3, as stated, fails at a key equal to end: the forward cursor with end
    set to c that stands on b reads the entry of key c next; that key is at
    or past end, and [Read] still emits it. *)
Lemma C3_counterexample :
  end_ end_cursor = Some "c"%string
  /\ reverse_ end_cursor = false
  /\ exists i' d,
       Read end_cursor = (true, "c"%string, "vc"%string, i')
       /\ dbIterator_ i' = Some d
       /\ leveldb.Valid d = true
       /\ compare (leveldb.key d) "c" >= 0.
Proof.
  split; [reflexivity|]. split; [reflexivity|].
  eexists. eexists.
  split; [vm_compute; reflexivity|].
  split; [reflexivity|]. split; [reflexivity|].
  vm_compute. discriminate.
Qed.

(** The value of count_ after a read that examines a valid entry. *)
Lemma Read_count i ok k v i' d :
  Read i = (ok, k, v, i') ->
  dbIterator_ i' = Some d ->
  leveldb.Valid d = true ->
  count_ i' = if limit_ i <? 0 then count_ i else to_int32 (count_ i + 1).
Proof.
  read_cases i; cbn.
  - set (d' := if negb (seeking_ i) then _ else _).
    destruct (leveldb.Valid d') eqn:V.
    + destruct (in_range _ _ _) eqn:R; intros [= <- <- <- <-] [= <-] _;
        reflexivity.
    + intros [= <- <- <- <-] [= <-] V'. congruence.
  - destruct (leveldb.Valid d0) eqn:V.
    + destruct (in_range _ _ _) eqn:R; intros [= <- <- <- <-] [= <-] _;
        reflexivity.
    + intros [= <- <- <- <-] [= <-] V'. congruence.
Qed.

(** C3, amended.  For a cursor with an end bound, a per-step read that
    examines a valid key stops the scan once the key is strictly past end in
    the scan direction: a forward scan stops once key > end and a reverse
    scan stops once key < end.  Every key a read emits is at or before end in
    the scan direction.  A key that is not strictly past end, and so a key
    equal to end, is emitted exactly when the limit and the bounds lt, lte,
    gt and gte admit it: the limit is negative or the entries counted, this
    one included, do not exceed it, and the key passes the test of lt or
    lte and that of gt or gte.  End is inclusive. *)
Theorem C3_end_bound i e ok k v i' d :
  end_ i = Some e ->
  Read i = (ok, k, v, i') ->
  dbIterator_ i' = Some d ->
  leveldb.Valid d = true ->
  (reverse_ i = false -> compare (leveldb.key d) e > 0 -> ok = false)
  /\ (reverse_ i = true -> compare (leveldb.key d) e < 0 -> ok = false)
  /\ (ok = true ->
      if reverse_ i then compare (leveldb.key d) e >= 0
      else compare (leveldb.key d) e <= 0)
  /\ ((if reverse_ i then compare (leveldb.key d) e >= 0
       else compare (leveldb.key d) e <= 0) ->
      ok = ((limit_ i <? 0) || (to_int32 (count_ i + 1) <=? limit_ i))
           && (match lt_ i, lte_ i with
               | Some lt, _ => compare lt (leveldb.key d) >? 0
               | None, Some lte => compare lte (leveldb.key d) >=? 0
               | None, None => true
               end)
           && (match gt_ i, gte_ i with
               | Some gt, _ => compare gt (leveldb.key d) <? 0
               | None, Some gte => compare gte (leveldb.key d) <=? 0
               | None, None => true
               end))
  /\ (compare (leveldb.key d) e = 0 ->
      limit_ i < 0 -> lt_ i = None -> lte_ i = None ->
      gt_ i = None -> gte_ i = None -> ok = true).
Proof.
  intros He HR Hd HV.
  pose proof (Read_count _ _ _ _ _ _ HR Hd HV) as Hcount.
  rewrite (Read_flag _ _ _ _ _ _ HR Hd HV).
  unfold in_range. rewrite He, Hcount.
  rewrite (compare_antisym (leveldb.key d) e).
  set (c := compare (leveldb.key d) e).
  repeat split.
  - intros -> Hc. cbn.
    destruct (Z.geb_spec (- c) 0); [lia|].
    rewrite andb_false_r. reflexivity.
  - intros -> Hc. cbn.
    destruct (Z.leb_spec (- c) 0); [lia|].
    rewrite orb_false_r, andb_false_r. reflexivity.
  - intros H. repeat (apply andb_prop in H; destruct H as [H ?]).
    destruct (reverse_ i); cbn in *.
    + rewrite orb_false_r in *.
      destruct (Z.leb_spec (- c) 0); [lia|discriminate].
    + destruct (Z.geb_spec (- c) 0); [lia|discriminate].
  - intros Hc.
    assert (Hend : (reverse_ i && (- c <=? 0)
                    || negb (reverse_ i) && (- c >=? 0)) = true).
    { destruct (reverse_ i); cbn.
      - rewrite orb_false_r. apply Z.leb_le. lia.
      - apply Z.geb_le. lia. }
    rewrite Hend, andb_true_r.
    destruct (Z.ltb_spec (limit_ i) 0) as [Hneg|Hpos]; reflexivity.
  - intros Hc Hlim -> -> -> ->. rewrite Hc. cbn.
    destruct (Z.ltb_spec (limit_ i) 0); [|lia]. cbn.
    destruct (reverse_ i); reflexivity.
Qed.

(** The amended C3 on the cursor of the counterexample: the entry of key c
    is emitted, and c is not past end. *)
Lemma C3_end_bound_witness :
  exists i' d,
    Read end_cursor = (true, "c"%string, "vc"%string, i')
    /\ dbIterator_ i' = Some d
    /\ compare (leveldb.key d) "c" <= 0.
Proof.
  eexists. eexists.
  split; [vm_compute; reflexivity|]. split; [reflexivity|].
  refine (proj1 (proj2 (proj2
            (C3_end_bound end_cursor "c"%string true "c"%string "vc"%string
                          _ _ _ _ _ _))) eq_refl);
    reflexivity.
Defined.

(** ** C6: the limit *)

Lemma to_int32_small z : - 2 ^ 31 <= z < 2 ^ 31 -> to_int32 z = z.
Proof.
  intros H. unfold to_int32. rewrite Z.mod_small; lia.
Qed.

Lemma Valid_of_pos d p :
  leveldb.pos d = Some p -> (p < length (leveldb.entries d))%nat ->
  leveldb.Valid d = true.
Proof.
  intros Hp Hlt. unfold leveldb.Valid, leveldb.current. rewrite Hp.
  destruct (lookup_lt_is_Some_2 (leveldb.entries d) p Hlt) as [kv ->].
  reflexivity.
Qed.

Lemma invalid_pos d :
  leveldb.wf d -> leveldb.Valid d = false -> leveldb.pos d = None.
Proof.
  unfold leveldb.wf. destruct (leveldb.pos d) as [p|] eqn:Hp; [|reflexivity].
  intros Hlt HV. rewrite (Valid_of_pos d p Hp Hlt) in HV. discriminate.
Qed.


Lemma step_counted (rev : bool) d c :
  match leveldb.pos d with
  | Some p =>
    (p < length (leveldb.entries d))%nat
    /\ c <= (if rev then Z.of_nat (length (leveldb.entries d) - p)
             else Z.of_nat (S p))
  | None => c <= Z.of_nat (length (leveldb.entries d))
  end ->
  let d' := if rev then leveldb.Prev d else leveldb.Next d in
  leveldb.entries d' = leveldb.entries d
  /\ match leveldb.pos d' with
     | Some p' =>
       (p' < length (leveldb.entries d))%nat
       /\ c + 1 <= (if rev then Z.of_nat (length (leveldb.entries d) - p')
                    else Z.of_nat (S p'))
     | None => c <= Z.of_nat (length (leveldb.entries d))
     end.
Proof.
  intros H d'. subst d'. split.
  - destruct rev; autorewrite with leveldb_entries; reflexivity.
  - destruct rev.
    + unfold leveldb.Prev. destruct (leveldb.pos d) as [[|q]|] eqn:Hp.
      * cbn. lia.
      * destruct (leveldb.pos (leveldb.at_index d q)) as [p'|] eqn:Hp'.
        -- apply leveldb_facts.pos_at_index_Some in Hp'. lia.
        -- lia.
      * rewrite Hp. exact H.
    + unfold leveldb.Next. destruct (leveldb.pos d) as [q|] eqn:Hp.
      * destruct (leveldb.pos (leveldb.at_index d (S q))) as [p'|] eqn:Hp'.
        -- apply leveldb_facts.pos_at_index_Some in Hp'. lia.
        -- lia.
      * rewrite Hp. exact H.
Qed.

(** One [Read] of a cursor with a limit: the invariant is kept, and the read
    emits only when it has counted one more entry without passing limit_. *)
Lemma Read_counted i ok k v i' :
  counted i ->
  0 <= limit_ i ->
  Z.of_nat (length (scan_entries i)) < 2 ^ 31 ->
  Read i = (ok, k, v, i') ->
  counted i'
  /\ scan_entries i' = scan_entries i
  /\ count_ i <= count_ i'
  /\ (ok = true -> count_ i' = count_ i + 1 /\ count_ i' <= limit_ i).
Proof.
  intros (Hs & Hc0 & Hc) Hlim Hlen.
  assert (Hlimb : (limit_ i <? 0) = false) by (apply Z.ltb_ge; exact Hlim).
  unfold scan_entries in Hlen.
  read_cases i; cbn; rewrite ?Hs, ?Hlimb; cbn.
  - (* the leveldb iterator exists: it moves one position *)
    rewrite Edb in Hc, Hlen.
    destruct (step_counted (reverse_ i) d (count_ i) Hc) as (He & Hc').
    set (d' := if reverse_ i then leveldb.Prev d else leveldb.Next d) in *.
    destruct (leveldb.Valid d') eqn:V.
    + destruct (leveldb_facts.Valid_pos _ V) as (p' & Hp' & Hlt').
      rewrite Hp' in Hc'. destruct Hc' as (_ & Hc'). rewrite He in Hlt'.
      assert (Hsmall : to_int32 (count_ i + 1) = count_ i + 1).
      { apply to_int32_small. destruct (reverse_ i); lia. }
      rewrite Hsmall.
      unfold in_range; cbn; rewrite Hlimb; cbn.
      match goal with
      | |- (if ?c then _ else _) = _ -> _ => destruct c eqn:R
      end; intros [= <- <- <- <-];
        (split; [unfold counted; cbn; rewrite Hp', He;
                 repeat split; try lia; destruct (reverse_ i); lia|]);
        (split; [unfold scan_entries; cbn; rewrite Edb; exact He|]);
        (split; [cbn; lia|]); [|discriminate].
      intros _. cbn. split; [reflexivity|].
      repeat (apply andb_prop in R; destruct R as [R ?]). lia.
    + intros [= <- <- <- <-].
      assert (Hwf : leveldb.wf d').
      { unfold leveldb.wf.
        destruct (leveldb.pos d') as [p'|]; [|exact I]. rewrite He. apply Hc'. }
      rewrite (invalid_pos d' Hwf V) in Hc'.
      split; [unfold counted; cbn; rewrite (invalid_pos d' Hwf V), He;
              repeat split; lia|].
      split; [unfold scan_entries; cbn; rewrite Edb; exact He|].
      split; [cbn; lia|discriminate].
  - (* first use: count_ is still 0 *)
    rewrite Edb in Hc, Hlen. rewrite Hc in *.
    destruct (leveldb.Valid d) eqn:V.
    + destruct (leveldb_facts.Valid_pos _ V) as (p' & Hp' & Hlt').
      rewrite (to_int32_small (0 + 1)) by lia.
      unfold in_range; cbn; rewrite Hlimb; cbn.
      match goal with
      | |- (if ?c then _ else _) = _ -> _ => destruct c eqn:R
      end; intros [= <- <- <- <-];
        (split; [unfold counted; cbn; rewrite Hp';
                 repeat split; try lia; destruct (reverse_ i); lia|]);
        (split; [unfold scan_entries; cbn; rewrite Edb; exact Eent|]);
        (split; [cbn; lia|]); [|discriminate].
      intros _. cbn. split; [reflexivity|].
      repeat (apply andb_prop in R; destruct R as [R ?]). lia.
    + intros [= <- <- <- <-].
      split; [unfold counted; cbn; rewrite (invalid_pos d Wf V), Hc;
              repeat split; lia|].
      split; [unfold scan_entries; cbn; rewrite Edb; exact Eent|].
      split; [cbn; lia|discriminate].
Qed.

(** One advance of a cursor with a limit, [n] pairs having been emitted so
    far: the pairs it adds keep the total at or below count_ and limit_. *)
Lemma IteratorNext_loop_limit (fuel : nat) :
  forall i result sz n ok i' result',
    counted i ->
    0 <= limit_ i ->
    Z.of_nat (length (scan_entries i)) < 2 ^ 31 ->
    n <= count_ i -> n <= limit_ i ->
    IteratorNext_loop fuel i result sz = Some (ok, i', result') ->
    exists new,
      result' = result ++ new
      /\ counted i' /\ limit_ i' = limit_ i
      /\ scan_entries i' = scan_entries i
      /\ n + Z.of_nat (length new) <= count_ i'
      /\ n + Z.of_nat (length new) <= limit_ i.
Proof.
  induction fuel as [|fuel IH];
    intros i result sz n ok i' result' Hc Hlim Hlen Hn Hnl; [discriminate|].
  cbn [IteratorNext_loop].
  destruct (Read i) as [[[ok1 k] v] i1] eqn:ER.
  destruct (Read_counted _ _ _ _ _ Hc Hlim Hlen ER) as (Hc1 & He1 & Hle & Hemit).
  assert (Hl1 : limit_ i1 = limit_ i)
    by apply (Read_same_config _ _ _ _ _ ER).
  destruct ok1.
  - destruct (Hemit eq_refl) as (Hcount & Hcl).
    destruct (negb (landed_ i1)).
    + intros [= <- <- <-]. exists [(k, v)].
      split; [reflexivity|]. split; [exact Hc1|].
      split; [exact Hl1|]. split; [exact He1|]. cbn. lia.
    + destruct (_ >? _).
      * intros [= <- <- <-]. exists [(k, v)].
        split; [reflexivity|]. split; [exact Hc1|].
        split; [exact Hl1|]. split; [exact He1|]. cbn. lia.
      * intros Hloop.
        destruct (IH i1 _ _ (n + 1) _ _ _ Hc1 ltac:(lia)
                     ltac:(rewrite He1; exact Hlen) ltac:(lia) ltac:(lia)
                     Hloop)
          as (new & -> & Hc' & Hl' & He' & Hn' & Hnl').
        exists ((k, v) :: new). rewrite <- app_assoc.
        split; [reflexivity|]. split; [exact Hc'|].
        split; [congruence|]. split; [congruence|].
        cbn [length]. lia.
  - intros [= <- <- <-]. exists []. rewrite app_nil_r.
    split; [reflexivity|]. split; [exact Hc1|].
    split; [exact Hl1|]. split; [exact He1|]. cbn. lia.
Qed.

Lemma advances_limit (calls : nat) :
  forall i n,
    counted i ->
    0 <= limit_ i ->
    Z.of_nat (length (scan_entries i)) < 2 ^ 31 ->
    n <= count_ i -> n <= limit_ i ->
    n + Z.of_nat (length (advances calls i)) <= limit_ i.
Proof.
  induction calls as [|calls IH]; intros i n Hc Hlim Hlen Hn Hnl; [cbn; lia|].
  cbn [advances].
  destruct (IteratorNext i []) as [[[ok i'] result]|] eqn:EN; [|cbn; lia].
  destruct (IteratorNext_loop_limit _ _ _ _ n _ _ _ Hc Hlim Hlen Hn Hnl EN)
    as (new & -> & Hc' & Hl' & He' & Hn' & Hnl').
  cbn [app]. rewrite length_app, Nat2Z.inj_add, Z.add_assoc, <- Hl'.
  apply IH; try congruence; lia.
Qed.

Lemma in_range_limit i c keyStr :
  in_range i c keyStr = true -> limit_ i < 0 \/ c <= limit_ i.
Proof.
  unfold in_range. intros R.
  repeat (apply andb_prop in R; destruct R as [R ?]).
  apply orb_prop in R. destruct R as [R|R]; [left|right]; lia.
Qed.

(** A [Read] that emits stands on a valid entry that passes [in_range]. *)
Lemma Read_emits i k v i' :
  Read i = (true, k, v, i') ->
  exists d, dbIterator_ i' = Some d /\ leveldb.Valid d = true
            /\ in_range i (count_ i') (leveldb.key d) = true.
Proof.
  read_cases i; cbn.
  - set (d' := if negb (seeking_ i) then _ else _).
    destruct (leveldb.Valid d') eqn:V; [|discriminate].
    destruct (in_range _ _ _) eqn:R; [|discriminate].
    intros [= <- <- <-]. exists d'. cbn. auto.
  - destruct (leveldb.Valid d) eqn:V; [|discriminate].
    destruct (in_range _ _ _) eqn:R; [|discriminate].
    intros [= <- <- <-]. exists d. cbn. auto.
Qed.

Example limit_cursor_created : example_cursor limit_options = Some limit_cursor.
Proof. vm_compute. reflexivity. Qed.

(** C6.  A cursor created with limit >= 0 over a snapshot of fewer than 2^31
    entries (count_ is an int) emits at most limit pairs over any number of
    advance calls, and a read that has counted more than limit entries stops
    the scan.  The forward scan over a to f with gte b, lt e and limit 2
    yields exactly b, c: the first advance returns b, the second returns c
    and reports the range exhausted. *)
Theorem C6_limit (id : Z) (start end' : option string)
  (reverse keys values : bool) (limit : Z) (lt lte gt gte : option string)
  (fillCache keyAsBuffer valueAsBuffer : bool) (highWaterMark : Z)
  (snap : leveldb.Snapshot) (calls : nat) :
  0 <= limit ->
  Z.of_nat (length (leveldb.snap_entries snap)) < 2 ^ 31 ->
  let cursor := new_Iterator id start end' reverse keys values limit
                             lt lte gt gte fillCache keyAsBuffer
                             valueAsBuffer highWaterMark snap in
  Z.of_nat (length (advances calls cursor)) <= limit
  /\ (forall i ok k v i', limit_ i = limit -> Read i = (ok, k, v, i') ->
                          count_ i' > limit -> ok = false)
  /\ (example_cursor limit_options = Some limit_cursor
      /\ exists i1 i2,
           IteratorNext limit_cursor [] = Some (true, i1, [("b", "vb")]%string)
           /\ IteratorNext i1 [] = Some (false, i2, [("c", "vc")]%string)).
Proof.
  intros Hlim Hlen cursor. split; [|split].
  - change (0 + Z.of_nat (length (advances calls cursor)) <= limit_ cursor).
    apply advances_limit; try (cbn; lia).
    unfold counted. cbn. repeat split; lia.
  - intros i ok k v i' Hl HR Hover.
    destruct ok; [|reflexivity]. exfalso.
    destruct (Read_emits _ _ _ _ HR) as (d & _ & _ & R).
    apply in_range_limit in R. lia.
  - split; [exact limit_cursor_created|].
    eexists. eexists.
    split; [vm_compute; reflexivity | vm_compute; reflexivity].
Qed.

(** C6 on the cursor with limit 2: three advance calls deliver two pairs. *)
Lemma C6_limit_witness :
  advances 3 limit_cursor = [("b", "vb"); ("c", "vc")]%string
  /\ Z.of_nat (length (advances 3 limit_cursor)) <= 2.
Proof.
  split; [vm_compute; reflexivity|].
  refine (proj1 (C6_limit 0 (Some "b"%string) None false true true 2
                          (Some "e"%string) None None (Some "b"%string)
                          false true true (16 * 1024)
                          (leveldb.mkSnapshot example_store leveldb.OK) 3
                          _ _)).
  - lia.
  - vm_compute. reflexivity.
Defined.

(** ** C10: the array of an advance completion *)

Lemma to_uint32_to_int32 z : 0 <= z < 2 ^ 32 -> to_uint32 (to_int32 z) = z.
Proof.
  intros H. unfold to_uint32, to_int32.
  rewrite Zminus_mod_idemp_l.
  replace (z + 2 ^ 31 - 2 ^ 31) with z by lia.
  apply Z.mod_small. exact H.
Qed.

(** An index inside the array: the casts leave it as it is and the element
    is stored in place. *)
Lemma napi_set_element_inside (arr : list napi_value) z v :
  0 <= z < Z.of_nat (length arr) ->
  Z.of_nat (length arr) < 2 ^ 32 ->
  napi_set_element arr (to_int32 (to_size_t z)) v = <[Z.to_nat z := v]> arr.
Proof.
  intros Hz Hlen. unfold napi_set_element, to_size_t.
  rewrite (Z.mod_small z) by lia.
  rewrite to_uint32_to_int32 by lia.
  destruct (Nat.ltb_spec (Z.to_nat z) (length arr)); [reflexivity|lia].
Qed.

Lemma fill_array_spec (kb vb : bool) (N : nat) :
  forall (rows : list (string * string)) (idx : nat) (arr : list napi_value),
    length arr = N ->
    Z.of_nat N < 2 ^ 32 ->
    (2 * (idx + length rows) <= N)%nat ->
    let out := fill_array kb vb (Z.of_nat N) idx rows arr in
    length out = N
    /\ (forall j row,
          rows !! j = Some row ->
          out !! (N - 2 * (idx + j) - 1)%nat = Some (to_js kb (fst row))
          /\ out !! (N - 2 * (idx + j) - 2)%nat = Some (to_js vb (snd row)))
    /\ (forall m, (N - 2 * idx <= m)%nat -> out !! m = arr !! m).
Proof.
  induction rows as [|row rows IH]; intros idx arr Hlen HN Hfit; cbn zeta.
  - cbn [fill_array]. split; [exact Hlen|]. split; [|reflexivity].
    intros j row Hj. rewrite lookup_nil in Hj. discriminate.
  - cbn [fill_array]. cbn [length] in Hfit.
    rewrite (napi_set_element_inside arr) by lia.
    rewrite napi_set_element_inside by (rewrite length_insert; lia).
    replace (Z.to_nat (Z.of_nat N - Z.of_nat idx * 2 - 1))
      with (N - 2 * idx - 1)%nat by lia.
    replace (Z.to_nat (Z.of_nat N - Z.of_nat idx * 2 - 2))
      with (N - 2 * idx - 2)%nat by lia.
    set (arr2 := <[(N - 2 * idx - 2)%nat := to_js vb (snd row)]>
                   (<[(N - 2 * idx - 1)%nat := to_js kb (fst row)]> arr)).
    assert (Hlen2 : length arr2 = N)
      by (subst arr2; rewrite !length_insert; exact Hlen).
    destruct (IH (S idx) arr2 Hlen2 HN ltac:(lia)) as (Hl & Hrows & Hkeep).
    split; [exact Hl|]. split.
    + intros [|j] r Hj.
      * injection Hj as <-.
        replace (idx + 0)%nat with idx by lia.
        rewrite !Hkeep by lia. subst arr2. split.
        -- rewrite list_lookup_insert_ne by lia.
           apply list_lookup_insert_eq. lia.
        -- apply list_lookup_insert_eq. rewrite length_insert. lia.
      * cbn in Hj. destruct (Hrows j r Hj) as (Hk & Hv).
        replace (idx + S j)%nat with (S idx + j)%nat by lia. auto.
    + intros m Hm. rewrite Hkeep by lia. subst arr2.
      rewrite !list_lookup_insert_ne by lia. reflexivity.
Qed.

Lemma calls_CheckEndCallback p w : calls (CheckEndCallback p w) = calls w.
Proof.
  unfold CheckEndCallback. destruct (heap w !! p) as [it|]; [|reflexivity].
  cbn. destruct (endWorker_ it); reflexivity.
Qed.

(** C10.  A successful advance completion carrying n pairs (2n below 2^32,
    the range of the element index) calls back with null, an array and the
    exhausted flag; the array has length 2n and holds the i-th emitted pair
    with its key at index 2n - 2i - 1 and its value at index 2n - 2i - 2, so
    that the key of the first emitted pair is the last element. *)
Theorem C10_result_array (worker : BaseWorker) (w : World) (p : ptr)
  (result : list (string * string)) (ok : bool) (it : Iterator) :
  kind worker = NextWorker p result ok ->
  leveldb.ok (status_ worker) = true ->
  heap w !! p = Some it ->
  2 * Z.of_nat (length result) < 2 ^ 32 ->
  let n := length result in
  exists jsArray,
    calls (DoComplete worker w)
    = calls w ++ [(callbackRef_ worker,
                   [JsNull; JsArray jsArray; JsBoolean (negb ok)])]
    /\ length jsArray = (2 * n)%nat
    /\ forall i row,
         result !! i = Some row ->
         jsArray !! (2 * n - 2 * i - 1)%nat
         = Some (to_js (keyAsBuffer_ it) (fst row))
         /\ jsArray !! (2 * n - 2 * i - 2)%nat
            = Some (to_js (valueAsBuffer_ it) (snd row)).
Proof.
  intros Hk Hok Hp Hsmall n.
  exists (result_array (keyAsBuffer_ it) (valueAsBuffer_ it) result).
  split.
  - unfold DoComplete, HandleOKCallback. rewrite Hok, Hk, Hp.
    cbn. rewrite calls_CheckEndCallback. reflexivity.
  - unfold result_array, to_size_t.
    rewrite (Z.mod_small (Z.of_nat (length result) * 2)) by lia.
    replace (Z.of_nat (length result) * 2) with (Z.of_nat (2 * n)) by lia.
    rewrite Nat2Z.id.
    destruct (fill_array_spec (keyAsBuffer_ it) (valueAsBuffer_ it) (2 * n)
                result 0
                (napi_create_array_with_length (2 * n)))
      as (Hl & Hrows & _).
    + apply length_replicate.
    + lia.
    + lia.
    + split; [exact Hl|]. intros i row Hi. apply (Hrows i row Hi).
Qed.

(** C10 on a completion with the pairs of b and c: the array is vc, c, vb,
    b, and the key of the first pair is its last element. *)
Lemma C10_result_array_witness :
  exists jsArray,
    calls (DoComplete executed_next_worker advancing_world)
    = [(7%positive, [JsNull; JsArray jsArray; JsBoolean false])]
    /\ length jsArray = 4%nat
    /\ jsArray !! 3%nat = Some (JsBuffer "b").
Proof.
  destruct (C10_result_array executed_next_worker advancing_world 1%positive
              [("b", "vb"); ("c", "vc")]%string true
              (set_nexting true landed_cursor) eq_refl eq_refl)
    as (jsArray & Hcalls & Hlen & Hrows).
  - vm_compute. reflexivity.
  - vm_compute. reflexivity.
  - exists jsArray. split; [exact Hcalls|]. split; [exact Hlen|].
    exact (proj1 (Hrows 0%nat ("b", "vb")%string eq_refl)).
Defined.

(** ** C7 and C8: requests on an ended cursor *)

(** C7.  An advance request on a cursor in the Ended state returns with the
    world as it was: the cursor is unchanged, no worker is queued and no
    callback is called, so no error is signalled. *)
Theorem C7_next_on_ended (p : ptr) (callback : napi_ref) (w : World)
  (it : Iterator) :
  heap w !! p = Some it ->
  ended_ it = true ->
  iterator_next p callback w = w
  /\ heap (iterator_next p callback w) !! p = Some it
  /\ queue (iterator_next p callback w) = queue w
  /\ calls (iterator_next p callback w) = calls w.
Proof.
  intros Hp He.
  assert (H : iterator_next p callback w = w)
    by (unfold iterator_next; rewrite Hp, He; reflexivity).
  rewrite H. auto.
Qed.

(** C8.  An end request on a cursor that has ended leaves the world as it
    was: no worker is created or queued and no callback is called.  So the
    second of two end requests on a cursor does nothing, whatever the state
    of the cursor before the first. *)
Theorem C8_end_idempotent (p : ptr) (callback callback' : napi_ref)
  (w : World) :
  (forall it, heap w !! p = Some it -> ended_ it = true ->
              iterator_end p callback w = w)
  /\ iterator_end p callback' (iterator_end p callback w)
     = iterator_end p callback w.
Proof.
  assert (Hended : forall w' it cb,
             heap w' !! p = Some it -> ended_ it = true ->
             iterator_end p cb w' = w').
  { intros w' it cb Hp He. unfold iterator_end. rewrite Hp, He. reflexivity. }
  split; [intros it; apply Hended|].
  destruct (heap w !! p) as [it|] eqn:Hp.
  - assert (Hafter : exists it', heap (iterator_end p callback w) !! p = Some it'
                                 /\ ended_ it' = true).
    { unfold iterator_end. rewrite Hp.
      destruct (ended_ it) eqn:He; cbn [negb]; [exists it; auto|].
      cbn. destruct (nexting_ it); eexists;
        (split; [cbn; apply lookup_insert_eq|reflexivity]). }
    destruct Hafter as (it' & Hp' & He'). apply (Hended _ it'); assumption.
  - assert (Hnone : forall cb, iterator_end p cb w = w)
      by (intros cb; unfold iterator_end; rewrite Hp; reflexivity).
    rewrite !Hnone. reflexivity.
Qed.

Lemma C7_next_on_ended_witness :
  iterator_next 1%positive 9%positive ended_world = ended_world.
Proof.
  refine (proj1 (C7_next_on_ended 1%positive 9%positive ended_world
                                  (set_ended true landed_cursor) _ _)).
  - vm_compute. reflexivity.
  - reflexivity.
Defined.

Lemma C8_end_idempotent_witness :
  iterator_end 1%positive 9%positive ended_world = ended_world
  /\ queue (iterator_end 1%positive 9%positive
              (iterator_end 1%positive 8%positive advancing_world))
     = [].
Proof.
  split.
  - refine (proj1 (C8_end_idempotent 1%positive 9%positive 9%positive
                                     ended_world)
                  (set_ended true landed_cursor) _ _).
    + vm_compute. reflexivity.
    + reflexivity.
  - rewrite (proj2 (C8_end_idempotent 1%positive 8%positive 9%positive
                                      advancing_world)).
    vm_compute. reflexivity.
Defined.

(** ** C9: bounds that do not count *)

Section Options.

Variable options : gmap string napi_value.
Variable name : string.

Lemma HasProperty_delete_ne k :
  name <> k -> HasProperty (delete name options) k = HasProperty options k.
Proof. intros H. unfold HasProperty. rewrite lookup_delete_ne; auto. Qed.

Lemma GetProperty_delete_ne k :
  name <> k -> GetProperty (delete name options) k = GetProperty options k.
Proof. intros H. unfold GetProperty. rewrite lookup_delete_ne; auto. Qed.

Lemma BooleanProperty_delete_ne k b :
  name <> k ->
  BooleanProperty (delete name options) k b = BooleanProperty options k b.
Proof.
  intros H. unfold BooleanProperty.
  rewrite HasProperty_delete_ne, GetProperty_delete_ne; auto.
Qed.

Lemma Uint32Property_delete_ne k z :
  name <> k ->
  Uint32Property (delete name options) k z = Uint32Property options k z.
Proof.
  intros H. unfold Uint32Property.
  rewrite HasProperty_delete_ne, GetProperty_delete_ne; auto.
Qed.

Lemma Int32Property_delete_ne k z :
  name <> k ->
  Int32Property (delete name options) k z = Int32Property options k z.
Proof.
  intros H. unfold Int32Property.
  rewrite HasProperty_delete_ne, GetProperty_delete_ne; auto.
Qed.

Lemma bound_option_delete_ne k :
  name <> k -> bound_option (delete name options) k = bound_option options k.
Proof.
  intros H. unfold bound_option.
  rewrite HasProperty_delete_ne, GetProperty_delete_ne; auto.
Qed.

Lemma bound_option_delete_eq : bound_option (delete name options) name = None.
Proof.
  unfold bound_option, HasProperty. rewrite lookup_delete_eq.
  rewrite bool_decide_eq_false_2; [reflexivity|].
  intros [x Hx]. discriminate.
Qed.

(** A value that is no string and no buffer, or is one of length zero,
    gives no bound. *)
Lemma bound_option_ignored v :
  options !! name = Some v ->
  (IsString v || IsBuffer v) = false \/ StringOrBufferLength v = 0 ->
  bound_option options name = None.
Proof.
  intros Hv Hbad. unfold bound_option, HasProperty, GetProperty.
  rewrite Hv. cbn.
  destruct Hbad as [-> | ->]; [reflexivity|].
  destruct (IsString v || IsBuffer v); reflexivity.
Qed.

(** C9.  When the value supplied for one of start, end, lt, lte, gt and gte
    is not a string or buffer, or is a string or buffer of length zero,
    [iterator] reads no bound from it and creates the very cursor, in the
    very world, it creates when the option is absent. *)
Theorem C9_ignored_bound (v : napi_value) (w : World) :
  In name bound_names ->
  options !! name = Some v ->
  (IsString v || IsBuffer v) = false \/ StringOrBufferLength v = 0 ->
  bound_option options name = None
  /\ iterator options w = iterator (delete name options) w.
Proof.
  intros Hname Hv Hbad.
  pose proof (bound_option_ignored v Hv Hbad) as Hnone.
  split; [exact Hnone|].
  assert (Hb : forall k, bound_option (delete name options) k
                         = bound_option options k).
  { intros k. destruct (decide (name = k)) as [<-|Hne].
    - rewrite bound_option_delete_eq, Hnone. reflexivity.
    - apply bound_option_delete_ne. exact Hne. }
  unfold iterator. rewrite !Hb.
  unfold bound_names in Hname. cbn [In] in Hname.
  rewrite !BooleanProperty_delete_ne, Int32Property_delete_ne,
    Uint32Property_delete_ne;
    [reflexivity|..];
    intuition (subst; discriminate).
Qed.

End Options.

Lemma C9_ignored_bound_witness :
  bound_option ignored_options "end" = None
  /\ iterator ignored_options example_world
     = iterator (delete "end"%string ignored_options) example_world.
Proof.
  refine (C9_ignored_bound ignored_options "end" (JsNumber 5) example_world
                           _ _ _).
  - cbn. auto.
  - vm_compute. reflexivity.
  - left. reflexivity.
Defined.

(** ** C4: how a failed get completes *)

Lemma ToString_failure st :
  leveldb.ok st = false ->
  leveldb.ToString st
  = (leveldb.prefix (leveldb.code st) ++ leveldb.message st)%string.
Proof.
  unfold leveldb.ok, leveldb.ToString.
  destruct (leveldb.code st); [discriminate|reflexivity..].
Qed.

(** Plain text passes through the copy of the message and through
    napi_create_string_utf8 as it is, also in front of other text. *)
Lemma c_str_app_plain (p m : string) :
  plain p = true -> c_str (p ++ m) = (p ++ c_str m)%string.
Proof.
  induction p as [|c p IH]; [reflexivity|].
  change (String c p ++ m)%string with (String c (p ++ m)%string).
  change (String c p ++ c_str m)%string with (String c (p ++ c_str m)%string).
  cbn [plain c_str]. unfold between.
  intros H. apply andb_prop in H as [Hc Hp]. apply andb_prop in Hc as [Hc _].
  destruct (Z.eqb_spec (byte c) 0) as [E|_].
  - rewrite E in Hc. discriminate Hc.
  - rewrite IH by exact Hp. reflexivity.
Qed.

Lemma utf8_app_plain (p m : string) :
  plain p = true ->
  napi_create_string_utf8 (p ++ m)
  = (p ++ napi_create_string_utf8 m)%string.
Proof.
  unfold napi_create_string_utf8.
  induction p as [|c p IH]; [reflexivity|].
  change (String c p ++ m)%string with (String c (p ++ m)%string).
  change (String c p ++ utf8_decode "" 0 128 191 m)%string
    with (String c (p ++ utf8_decode "" 0 128 191 m)%string).
  cbn [plain utf8_decode]. unfold between.
  intros H. apply andb_prop in H as [Hc Hp]. apply andb_prop in Hc as [_ Hc].
  rewrite Hc. rewrite IH by exact Hp. reflexivity.
Qed.

Lemma string_app_nil_r (s : string) : (s ++ "")%string = s.
Proof.
  induction s as [|c s IH]; [reflexivity|].
  change (String c s ++ "")%string with (String c (s ++ "")%string).
  rewrite IH. reflexivity.
Qed.

Lemma c_str_plain (s : string) : plain s = true -> c_str s = s.
Proof.
  intros H. rewrite <- (string_app_nil_r s) at 1.
  rewrite c_str_app_plain by exact H. apply string_app_nil_r.
Qed.

Lemma utf8_plain (s : string) :
  plain s = true -> napi_create_string_utf8 s = s.
Proof.
  intros H. rewrite <- (string_app_nil_r s) at 1.
  rewrite utf8_app_plain by exact H. apply string_app_nil_r.
Qed.

Lemma plain_app (p m : string) :
  plain p = true -> plain m = true -> plain (p ++ m) = true.
Proof.
  induction p as [|c p IH]; [auto|].
  change (String c p ++ m)%string with (String c (p ++ m)%string).
  cbn [plain].
  intros H Hm. apply andb_prop in H as [Hc Hp].
  rewrite Hc, IH by assumption. reflexivity.
Qed.

Lemma utf8_seven_bit (s : string) :
  seven_bit s = true -> napi_create_string_utf8 s = s.
Proof.
  unfold napi_create_string_utf8.
  induction s as [|c s IH]; [reflexivity|].
  cbn [seven_bit utf8_decode]. intros H. apply andb_prop in H as [Hc Hs].
  rewrite Hc, IH by exact Hs. reflexivity.
Qed.

Lemma c_str_idem (s : string) : c_str (c_str s) = c_str s.
Proof.
  induction s as [|c s IH]; [reflexivity|]. cbn [c_str].
  destruct (byte c =? 0) eqn:E; [reflexivity|].
  cbn [c_str]. rewrite E, IH. reflexivity.
Qed.

Lemma plain_prefix (c : leveldb.Code) : plain (leveldb.prefix c) = true.
Proof. destruct c; reflexivity. Qed.

(** The message of a failed status as JavaScript receives it: the prefix of
    the code, then the engine's message up to its first NUL byte, decoded. *)
Lemma error_text st :
  leveldb.ok st = false ->
  napi_create_string_utf8 (c_str (leveldb.ToString st))
  = (leveldb.prefix (leveldb.code st)
     ++ napi_create_string_utf8 (c_str (leveldb.message st)))%string.
Proof.
  intros Hfail. rewrite (ToString_failure st Hfail).
  rewrite c_str_app_plain, utf8_app_plain by apply plain_prefix.
  reflexivity.
Qed.

(** The text of a NotFound status differs from the text of every other
    failure, whatever the messages. *)
Lemma error_text_NotFound_distinct st st' :
  leveldb.IsNotFound st = true ->
  leveldb.ok st' = false ->
  leveldb.IsNotFound st' = false ->
  napi_create_string_utf8 (c_str (leveldb.ToString st))
  <> napi_create_string_utf8 (c_str (leveldb.ToString st')).
Proof.
  intros Hnf Hfail' Hnf'.
  assert (Hfail : leveldb.ok st = false).
  { unfold leveldb.IsNotFound in Hnf. unfold leveldb.ok.
    destruct (leveldb.code st); try discriminate. reflexivity. }
  rewrite (error_text st Hfail), (error_text st' Hfail').
  unfold leveldb.IsNotFound, leveldb.ok in *.
  destruct (leveldb.code st); try discriminate.
  destruct (leveldb.code st'); try discriminate; cbn; discriminate.
Qed.

(** C4, as stated, fails for an engine message that holds a NUL byte: the
    store reports a corruption whose message is 25 bytes long with a NUL
    after the 19th; the error the callback receives carries the text up to
    that byte only, not the engine's message text. *)
Lemma C4_counterexample :
  let st := fst (leveldb.Get (leveldb.mkDB example_store torn_status 0) "z") in
  leveldb.ok st = false
  /\ leveldb.IsNotFound st = false
  /\ String.length (leveldb.message st) = 25%nat
  /\ exists worker',
       DoExecute get_z_worker torn_world = Some (worker', torn_world)
       /\ calls (DoComplete worker' torn_world)
          = [(7%positive, [JsError "Corruption: corrupted key for a"])]
       /\ JsError "Corruption: corrupted key for a"
          <> JsError (leveldb.ToString st).
Proof.
  cbn zeta. split; [reflexivity|]. split; [reflexivity|].
  split; [reflexivity|].
  eexists. split; [vm_compute; reflexivity|].
  split; [vm_compute; reflexivity|].
  vm_compute. discriminate.
Qed.

(** C4, amended.  A get whose engine call fails completes by calling back
    with one argument, an error.  Its message is the text of the engine's
    status as a C string decoded as UTF-8: the prefix of the status code
    followed by the engine's message up to its first NUL byte, ill-formed
    UTF-8 replaced; it is the whole text of the status when the engine's
    message is plain (bytes 01 to 7F).  When the engine reports the key
    absent the message starts with NotFound, and it is then different from
    the message of every failure of another kind. *)
Theorem C4_get_failure (worker : BaseWorker) (w : World)
  (engine : leveldb.DB) (key : string) (asBuffer fillCache : bool)
  (value0 : string) :
  kind worker = GetWorker key asBuffer fillCache value0 ->
  db_ (database w) = Some engine ->
  let st := fst (leveldb.Get engine key) in
  leveldb.ok st = false ->
  let text := napi_create_string_utf8 (c_str (leveldb.ToString st)) in
  exists worker',
    DoExecute worker w = Some (worker', w)
    /\ calls (DoComplete worker' w)
       = calls w ++ [(callbackRef_ worker, [JsError text])]
    /\ text
       = (leveldb.prefix (leveldb.code st)
          ++ napi_create_string_utf8 (c_str (leveldb.message st)))%string
    /\ (plain (leveldb.message st) = true ->
        text = leveldb.ToString st
        /\ text
           = (leveldb.prefix (leveldb.code st) ++ leveldb.message st)%string)
    /\ (leveldb.IsNotFound st = true ->
        text
        = ("NotFound: "
           ++ napi_create_string_utf8 (c_str (leveldb.message st)))%string
        /\ forall st', leveldb.ok st' = false ->
                       leveldb.IsNotFound st' = false ->
                       JsError text
                       <> JsError (napi_create_string_utf8
                                     (c_str (leveldb.ToString st'))))
    /\ (leveldb.ok (leveldb.health engine) = true ->
        leveldb.IsNotFound st = true /\ text = "NotFound: "%string).
Proof.
  intros Hk Hdb st Hfail text.
  unfold DoExecute. rewrite Hk, Hdb. cbn [mbind option_bind].
  subst text st. destruct (leveldb.Get engine key) as [st v] eqn:EG.
  cbn [fst] in *. eexists. split; [reflexivity|].
  split.
  - unfold DoComplete, SetStatus, SetErrorMessage.
    rewrite Hfail. cbn [status_ errMsg_ callbackRef_ set_kind].
    rewrite Hfail. cbn -[c_str napi_create_string_utf8 leveldb.ToString].
    rewrite c_str_idem. reflexivity.
  - split; [apply error_text; exact Hfail|].
    split.
    + intros Hplain. rewrite <- (ToString_failure st Hfail).
      assert (Hp : plain (leveldb.ToString st) = true).
      { rewrite (ToString_failure st Hfail).
        apply plain_app; [apply plain_prefix|exact Hplain]. }
      rewrite (c_str_plain _ Hp), (utf8_plain _ Hp). split; reflexivity.
    + split.
      * intros Hnf. split.
        -- rewrite (error_text st Hfail).
           unfold leveldb.IsNotFound in Hnf.
           destruct (leveldb.code st); try discriminate. reflexivity.
        -- intros st' Hfail' Hnf' [= H].
           exact (error_text_NotFound_distinct st st' Hnf Hfail' Hnf' H).
      * intros Hsound. unfold leveldb.Get in EG. rewrite Hsound in EG.
        destruct (List.find _ _); injection EG as <- <-;
          [discriminate Hfail|]. split; reflexivity.
Qed.

(** C4 on a key the store does not hold, and on a store that fails. *)
Lemma C4_get_failure_witness :
  (exists worker',
     DoExecute get_z_worker example_world = Some (worker', example_world)
     /\ calls (DoComplete worker' example_world)
        = [(7%positive, [JsError "NotFound: "])])
  /\ (exists worker',
        DoExecute get_z_worker damaged_world = Some (worker', damaged_world)
        /\ calls (DoComplete worker' damaged_world)
           = [(7%positive, [JsError "IO error: 000005.ldb: read failed"])]).
Proof.
  split.
  - destruct (C4_get_failure get_z_worker example_world
                (leveldb.mkDB example_store leveldb.OK 0)
                "z" true true "" eq_refl eq_refl eq_refl)
      as (worker' & Hexec & Hcalls & _).
    exists worker'. split; [exact Hexec|exact Hcalls].
  - destruct (C4_get_failure get_z_worker damaged_world
                (leveldb.mkDB example_store
                              (leveldb.mkStatus leveldb.kIOError
                                                "000005.ldb: read failed") 0)
                "z" true true "" eq_refl eq_refl eq_refl)
      as (worker' & Hexec & Hcalls & _).
    exists worker'. split; [exact Hexec|exact Hcalls].
Defined.

(** ** C1: close and the registry of cursors *)

Example iterator_registers :
  iterator ∅ example_world = Some (1%positive, registered_world).
Proof. vm_compute. reflexivity. Qed.

(** [db_close] queues its worker at once, whatever the registry holds, and
    never stores a pending close. *)
Lemma db_close_queues_at_once (callback : napi_ref) (w : World) :
  queue (db_close callback w) = queue w ++ [new_worker callback CloseWorker]
  /\ database (db_close callback w) = database w.
Proof. split; reflexivity. Qed.

(** What [ReleaseIterator] does with a pending close, were one stored: it
    queues it when the last id leaves the registry. *)
Lemma ReleaseIterator_pending (id : Z) (w : World) (pending : BaseWorker) :
  pendingCloseWorker_ (database w) = Some pending ->
  delete id (iterators_ (database w)) = ∅ ->
  queue (ReleaseIterator id w) = queue w ++ [pending]
  /\ pendingCloseWorker_ (database (ReleaseIterator id w)) = None.
Proof.
  intros Hp He. unfold ReleaseIterator. cbn. rewrite Hp.
  rewrite bool_decide_eq_true_2 by exact He. split; reflexivity.
Qed.

(** C1 at a database with one registered cursor: the close worker is queued
    at once and no pending close is stored; run, it closes the engine while
    the registry still holds the cursor's id, and calls back. *)
Theorem C1_close_not_deferred :
  iterators_ (database registered_world) = {[ 0 := 1%positive ]}
  /\ queue (db_close 5%positive registered_world)
     = [new_worker 5%positive CloseWorker]
  /\ pendingCloseWorker_ (database (db_close 5%positive registered_world))
     = None
  /\ exists w',
       run_next (db_close 5%positive registered_world) = Some w'
       /\ db_ (database w') = None
       /\ iterators_ (database w') = {[ 0 := 1%positive ]}
       /\ calls w' = [(5%positive, [JsNull])].
Proof.
  split; [reflexivity|]. split; [reflexivity|]. split; [reflexivity|].
  eexists. split; [vm_compute; reflexivity|].
  split; [reflexivity|]. split; reflexivity.
Qed.

(** ** C5: end while an advance is in flight *)

(** With an advance in flight, [iterator_end] stores its worker and queues
    nothing. *)
Lemma iterator_end_deferred (p : ptr) (callback : napi_ref) (w : World)
  (it : Iterator) :
  heap w !! p = Some it ->
  ended_ it = false ->
  nexting_ it = true ->
  queue (iterator_end p callback w) = queue w
  /\ database (iterator_end p callback w) = database w
  /\ heap (iterator_end p callback w) !! p
     = Some (set_endWorker (Some (new_worker callback (EndWorker p)))
                           (set_ended true it)).
Proof.
  intros Hp He Hn. unfold iterator_end. rewrite Hp, He. cbn. rewrite Hn.
  cbn. rewrite lookup_insert_eq. auto.
Qed.

(** With no advance in flight, [iterator_end] queues its worker at once. *)
Lemma iterator_end_immediate (p : ptr) (callback : napi_ref) (w : World)
  (it : Iterator) :
  heap w !! p = Some it ->
  ended_ it = false ->
  nexting_ it = false ->
  queue (iterator_end p callback w)
  = queue w ++ [new_worker callback (EndWorker p)].
Proof.
  intros Hp He Hn. unfold iterator_end. rewrite Hp, He. cbn. rewrite Hn.
  reflexivity.
Qed.

(** An advance that completes with an ok status queues the stored end worker
    and clears nexting_. *)
Lemma advance_ok_queues_end (worker endWorker : BaseWorker) (w : World)
  (p : ptr) (result : list (string * string)) (ok : bool) (it : Iterator) :
  kind worker = NextWorker p result ok ->
  leveldb.ok (status_ worker) = true ->
  heap w !! p = Some it ->
  endWorker_ it = Some endWorker ->
  queue (DoComplete worker w) = queue w ++ [endWorker]
  /\ exists it', heap (DoComplete worker w) !! p = Some it'
                 /\ nexting_ it' = false /\ endWorker_ it' = None.
Proof.
  intros Hk Hok Hp He. unfold DoComplete, HandleOKCallback.
  rewrite Hok, Hk, Hp. cbn. unfold CheckEndCallback. rewrite Hp. cbn.
  rewrite He. cbn. split; [reflexivity|].
  eexists. split; [apply lookup_insert_eq|]. split; reflexivity.
Qed.

(** C5 at a cursor whose advance fails: the end request made while the
    advance is in flight is stored and not queued; the advance then completes
    with the error of the engine's iterator, and the stored end worker is
    still not queued: the queue is empty, nexting_ stays true, endWorker_
    stays set, and nothing further runs. *)
Theorem C5_end_lost_when_advance_fails :
  let w1 := iterator_next 1%positive 7%positive failing_world in
  let w2 := iterator_end 1%positive 8%positive w1 in
  length (queue w1) = 1%nat
  /\ queue w2 = queue w1
  /\ exists w3 it,
       run_next w2 = Some w3
       /\ calls w3
          = [(7%positive, [JsError "IO error: 000005.ldb: read failed"])]
       /\ queue w3 = []
       /\ heap w3 !! 1%positive = Some it
       /\ ended_ it = true
       /\ nexting_ it = true
       /\ endWorker_ it = Some (new_worker 8%positive (EndWorker 1%positive))
       /\ iterators_ (database w3) = {[ 0 := 1%positive ]}
       /\ run_next w3 = Some w3.
Proof.
  cbn zeta. split; [vm_compute; reflexivity|]. split; [vm_compute; reflexivity|].
  eexists. eexists. split; [vm_compute; reflexivity|].
  split; [reflexivity|]. split; [reflexivity|].
  split; [vm_compute; reflexivity|].
  split; [reflexivity|]. split; [reflexivity|]. split; [reflexivity|].
  split; reflexivity.
Qed.

(** * Further properties of the code *)

(** ** Transitivity of the byte order *)

Lemma String_compare_Lt_trans (a : string) :
  forall b c, String.compare a b = Lt -> String.compare b c = Lt ->
              String.compare a c = Lt.
Proof.
  induction a as [|x a IH]; intros [|y b] [|z c]; cbn; try discriminate;
    try reflexivity.
  unfold Ascii.compare.
  destruct (N.compare_spec (N_of_ascii x) (N_of_ascii y)) as [Exy|Lxy|Gxy];
    try discriminate;
    destruct (N.compare_spec (N_of_ascii y) (N_of_ascii z)) as [Eyz|Lyz|Gyz];
    try discriminate; intros Hab Hbc.
  - rewrite Exy, Eyz, N.compare_refl. eapply IH; eassumption.
  - rewrite Exy. apply N.compare_lt_iff in Lyz. rewrite Lyz. reflexivity.
  - rewrite <- Eyz. apply N.compare_lt_iff in Lxy. rewrite Lxy. reflexivity.
  - assert (H : (N_of_ascii x < N_of_ascii z)%N) by lia.
    apply N.compare_lt_iff in H. rewrite H. reflexivity.
Qed.

Lemma compare_lt_iff a b : compare a b < 0 <-> String.compare a b = Lt.
Proof.
  unfold compare.
  destruct (String.compare a b); split; (lia || discriminate || reflexivity).
Qed.

Lemma compare_lt_trans a b c :
  compare a b < 0 -> compare b c < 0 -> compare a c < 0.
Proof. rewrite !compare_lt_iff. apply String_compare_Lt_trans. Qed.

Lemma compare_le_lt_trans a b c :
  compare a b <= 0 -> compare b c < 0 -> compare a c < 0.
Proof.
  intros Hab Hbc. destruct (Z.eq_dec (compare a b) 0) as [E|N].
  - apply compare_eq in E. subst. exact Hbc.
  - apply (compare_lt_trans a b c); [lia|exact Hbc].
Qed.

Lemma compare_lt_le_trans a b c :
  compare a b < 0 -> compare b c <= 0 -> compare a c < 0.
Proof.
  intros Hab Hbc. destruct (Z.eq_dec (compare b c) 0) as [E|N].
  - apply compare_eq in E. subst. exact Hab.
  - apply (compare_lt_trans a b c); [exact Hab|lia].
Qed.

Lemma compare_le_trans a b c :
  compare a b <= 0 -> compare b c <= 0 -> compare a c <= 0.
Proof.
  intros Hab Hbc. destruct (Z.eq_dec (compare a b) 0) as [E|N].
  - apply compare_eq in E. subst. exact Hbc.
  - pose proof (compare_lt_le_trans a b c). lia.
Qed.

(** ** [Read] in terms of the entry it examines *)

Lemma Read_unfold (i : Iterator) :
  Read i =
  let d := examined i in
  let i1 := set_seeking false (set_dbIterator (Some d) i) in
  if leveldb.Valid d then
    let count := if limit_ i <? 0 then count_ i
                 else to_int32 (count_ i + 1) in
    let i2 := set_count count i1 in
    if in_range i count (leveldb.key d)
    then (true,
          if keys_ i then leveldb.key d else ""%string,
          if values_ i then leveldb.value d else ""%string, i2)
    else (false, ""%string, ""%string, i2)
  else (false, ""%string, ""%string, i1).
Proof.
  unfold examined.
  read_cases i; cbn.
  - destruct (seeking_ i); cbn; reflexivity.
  - reflexivity.
Qed.

(** ** The engine's iterator at an index *)

Lemma at_index_inside d n kv :
  leveldb.entries d !! n = Some kv ->
  leveldb.pos (leveldb.at_index d n) = Some n
  /\ leveldb.current (leveldb.at_index d n) = Some kv.
Proof.
  intros Hkv. pose proof (lookup_lt_Some _ _ _ Hkv) as Hlt.
  unfold leveldb.current, leveldb.at_index. cbn -[Nat.ltb].
  destruct (Nat.ltb_spec n (length (leveldb.entries d))); [|lia].
  rewrite Hkv. auto.
Qed.

Lemma at_index_outside d n :
  (length (leveldb.entries d) <= n)%nat ->
  leveldb.pos (leveldb.at_index d n) = None
  /\ leveldb.current (leveldb.at_index d n) = None.
Proof.
  intros Hge. unfold leveldb.current, leveldb.at_index. cbn -[Nat.ltb].
  destruct (Nat.ltb_spec n (length (leveldb.entries d))); [lia|]. auto.
Qed.

(** ** One read of a cursor without limit *)

Lemma in_range_no_limit i c keyStr :
  limit_ i < 0 -> in_range i c keyStr = in_range i 0 keyStr.
Proof.
  intros H. unfold in_range.
  destruct (Z.ltb_spec (limit_ i) 0); [reflexivity|lia].
Qed.

Lemma Read_entry i kv :
  leveldb.current (examined i) = Some kv ->
  limit_ i < 0 ->
  Read i =
  let i' := moved i (examined i) in
  if passes i kv then (true, fst (emit i kv), snd (emit i kv), i')
  else (false, ""%string, ""%string, i').
Proof.
  intros Hc Hlim. rewrite Read_unfold. cbn zeta.
  unfold leveldb.Valid, leveldb.key, leveldb.value. rewrite Hc.
  destruct (Z.ltb_spec (limit_ i) 0); [|lia].
  rewrite in_range_no_limit by exact Hlim. reflexivity.
Qed.

Lemma Read_no_entry i :
  leveldb.current (examined i) = None ->
  Read i = (false, ""%string, ""%string,
            set_seeking false (set_dbIterator (Some (examined i)) i)).
Proof.
  intros Hc. rewrite Read_unfold. cbn zeta.
  unfold leveldb.Valid. rewrite Hc. reflexivity.
Qed.

(** ** The scan from a position *)

(** Forward, the reads after entry [p] go through the entries that follow
    it and stop at the first that does not pass. *)
Lemma scan_forward (fuel : nat) :
  forall i d p,
    dbIterator_ i = Some d ->
    leveldb.pos d = Some p ->
    seeking_ i = false ->
    reverse_ i = false ->
    limit_ i < 0 ->
    (length (leveldb.entries d) - S p < fuel)%nat ->
    scan fuel i
    = map (emit i) (take_while (passes i) (drop (S p) (leveldb.entries d))).
Proof.
  induction fuel as [|fuel IH]; intros i d p Hd Hp Hs Hr Hlim Hfuel; [lia|].
  assert (Hex : examined i = leveldb.at_index d (S p)).
  { unfold examined, leveldb.Next. rewrite Hd, Hs, Hr, Hp. reflexivity. }
  rewrite scan_Read.
  destruct (leveldb.entries d !! S p) as [kv|] eqn:Hkv.
  - destruct (at_index_inside d (S p) kv Hkv) as (Hpos & Hcur).
    rewrite (Read_entry i kv) by (rewrite ?Hex; assumption).
    rewrite (drop_S _ _ _ Hkv). cbn [take_while map].
    destruct (passes i kv); cbn [fst snd map]; [|reflexivity].
    rewrite <- surjective_pairing. f_equal.
    rewrite Hex.
    apply (IH (moved i (leveldb.at_index d (S p))) (leveldb.at_index d (S p))
              (S p)); try assumption; try reflexivity.
    rewrite leveldb_facts.entries_at_index.
    pose proof (lookup_lt_Some _ _ _ Hkv). lia.
  - apply lookup_ge_None in Hkv.
    destruct (at_index_outside d (S p) Hkv) as (_ & Hcur).
    rewrite Read_no_entry by (rewrite Hex; exact Hcur).
    rewrite drop_ge by lia. reflexivity.
Qed.

(** In reverse, the reads after entry [p] go through the entries before it,
    the nearest first. *)
Lemma scan_reverse (fuel : nat) :
  forall i d p,
    dbIterator_ i = Some d ->
    leveldb.pos d = Some p ->
    seeking_ i = false ->
    reverse_ i = true ->
    limit_ i < 0 ->
    (p <= length (leveldb.entries d))%nat ->
    (p < fuel)%nat ->
    scan fuel i
    = map (emit i) (take_while (passes i) (reverse (take p (leveldb.entries d)))).
Proof.
  induction fuel as [|fuel IH]; intros i d p Hd Hp Hs Hr Hlim Hle Hfuel; [lia|].
  rewrite scan_Read.
  destruct p as [|q].
  - assert (Hex : examined i = leveldb.invalid d).
    { unfold examined, leveldb.Prev. rewrite Hd, Hs, Hr, Hp. reflexivity. }
    rewrite Read_no_entry by (rewrite Hex; reflexivity). reflexivity.
  - assert (Hex : examined i = leveldb.at_index d q).
    { unfold examined, leveldb.Prev. rewrite Hd, Hs, Hr, Hp. reflexivity. }
    destruct (lookup_lt_is_Some_2 (leveldb.entries d) q ltac:(lia)) as [kv Hkv].
    destruct (at_index_inside d q kv Hkv) as (Hpos & Hcur).
    rewrite (Read_entry i kv) by (rewrite ?Hex; assumption).
    rewrite (take_S_r _ _ _ Hkv), reverse_snoc. cbn [take_while map].
    destruct (passes i kv); cbn [fst snd map]; [|reflexivity].
    rewrite <- surjective_pairing. f_equal.
    rewrite Hex.
    apply (IH (moved i (leveldb.at_index d q)) (leveldb.at_index d q) q);
      try assumption; try reflexivity;
      rewrite ?leveldb_facts.entries_at_index; lia.
Qed.

(** ** The range of a cursor that has not read yet *)

Lemma examined_fresh i :
  dbIterator_ i = None ->
  leveldb.wf (examined i)
  /\ leveldb.entries (examined i)
     = leveldb.snap_entries (leveldb.snapshot (options_ i)).
Proof.
  intros Hd. unfold examined. rewrite Hd.
  destruct (GetIterator_cases i) as [(d & E & _) | (_ & d & G & W & En)];
    [congruence|].
  rewrite G. cbn. auto.
Qed.

Lemma remaining_range_fresh i :
  dbIterator_ i = None ->
  limit_ i < 0 ->
  let E := leveldb.snap_entries (leveldb.snapshot (options_ i)) in
  remaining_range i
  = map (emit i)
        (take_while (passes i)
           (match leveldb.pos (examined i) with
            | Some s => if reverse_ i then reverse (take (S s) E) else drop s E
            | None => []
            end)).
Proof.
  intros Hd Hlim E.
  destruct (examined_fresh i Hd) as (Hwf & Hent). fold E in Hent.
  unfold remaining_range, remaining. rewrite Hd. fold E.
  rewrite scan_Read.
  unfold leveldb.wf in Hwf.
  destruct (leveldb.pos (examined i)) as [s|] eqn:Hpos.
  - rewrite Hent in Hwf.
    destruct (lookup_lt_is_Some_2 E s Hwf) as [kv Hkv].
    assert (Hcur : leveldb.current (examined i) = Some kv).
    { unfold leveldb.current. rewrite Hpos, Hent. exact Hkv. }
    rewrite (Read_entry i kv Hcur Hlim). cbn zeta.
    destruct (reverse_ i) eqn:Hr.
    + rewrite (take_S_r _ _ _ Hkv), reverse_snoc. cbn [take_while map].
      destruct (passes i kv); cbn [fst snd map]; [|reflexivity].
      rewrite <- surjective_pairing. f_equal.
      assert (Hsc := scan_reverse (length E) (moved i (examined i))
                                  (examined i) s eq_refl Hpos eq_refl Hr Hlim).
      rewrite Hent in Hsc. apply Hsc; lia.
    + rewrite (drop_S _ _ _ Hkv). cbn [take_while map].
      destruct (passes i kv); cbn [fst snd map]; [|reflexivity].
      rewrite <- surjective_pairing. f_equal.
      assert (Hsc := scan_forward (length E) (moved i (examined i))
                                  (examined i) s eq_refl Hpos eq_refl Hr Hlim).
      rewrite Hent in Hsc. apply Hsc; lia.
  - rewrite Read_no_entry; [reflexivity|].
    unfold leveldb.current. rewrite Hpos. reflexivity.
Qed.

(** ** Prefixes and filters of ordered lists *)

Lemma filter_all_false {A} (P : A -> bool) (l : list A) :
  (forall m a, l !! m = Some a -> P a = false) -> List.filter P l = [].
Proof.
  induction l as [|x l IH]; intros H; [reflexivity|].
  cbn. rewrite (H O x eq_refl). apply IH.
  intros m a Hm. apply (H (S m) a Hm).
Qed.

(** When a passing element makes every earlier element pass, the passing
    elements form a prefix. *)
Lemma take_while_filter {A} (P : A -> bool) (l : list A) :
  (forall m n a b, (m < n)%nat -> l !! m = Some a -> l !! n = Some b ->
                   P b = true -> P a = true) ->
  take_while P l = List.filter P l.
Proof.
  induction l as [|x l IH]; intros H; [reflexivity|].
  cbn. destruct (P x) eqn:Px.
  - f_equal. apply IH. intros m n a b Hmn Ha Hb.
    apply (H (S m) (S n) a b); [lia|exact Ha|exact Hb].
  - symmetry. apply filter_all_false. intros m a Ha.
    destruct (P a) eqn:Pa; [|reflexivity].
    rewrite (H O (S m) x a ltac:(lia) eq_refl Ha Pa) in Px. discriminate.
Qed.

Lemma filter_reverse {A} (P : A -> bool) (l : list A) :
  List.filter P (reverse l) = reverse (List.filter P l).
Proof.
  induction l as [|x l IH]; [reflexivity|].
  rewrite reverse_cons, List.filter_app, IH. cbn [List.filter].
  destruct (P x); [rewrite reverse_cons; reflexivity|apply app_nil_r].
Qed.

(** Forward: the entries before index [s] fail, and from [s] on a passing
    entry makes the entries between [s] and it pass. *)
Lemma take_while_drop_filter {A} (P : A -> bool) (E : list A) (s : nat) :
  (forall m a, (m < s)%nat -> E !! m = Some a -> P a = false) ->
  (forall m n a b, (s <= m < n)%nat -> E !! m = Some a -> E !! n = Some b ->
                   P b = true -> P a = true) ->
  take_while P (drop s E) = List.filter P E.
Proof.
  intros Hbefore Hmono.
  rewrite <- (take_drop s E) at 2. rewrite List.filter_app.
  rewrite (filter_all_false P (take s E)).
  - cbn. apply take_while_filter. intros m n a b Hmn Ha Hb.
    rewrite lookup_drop in Ha, Hb.
    apply (Hmono (s + m)%nat (s + n)%nat a b); [lia|exact Ha|exact Hb].
  - intros m a Ha.
    destruct (decide (m < s)%nat) as [Hlt|Hge].
    + rewrite lookup_take_lt in Ha by exact Hlt. apply (Hbefore m a Hlt Ha).
    + rewrite lookup_take_ge in Ha by lia. discriminate.
Qed.

(** In reverse: the entries from index [u] on fail, and before [u] a
    passing entry makes the entries between it and [u] pass. *)
Lemma take_while_reverse_filter {A} (P : A -> bool) (E : list A) (u : nat) :
  (forall m a, (u <= m)%nat -> E !! m = Some a -> P a = false) ->
  (forall m n a b, (m < n < u)%nat -> E !! m = Some a -> E !! n = Some b ->
                   P a = true -> P b = true) ->
  take_while P (reverse (take u E)) = reverse (List.filter P E).
Proof.
  intros Hafter Hmono.
  rewrite <- (take_drop u E) at 2. rewrite List.filter_app.
  rewrite (filter_all_false P (drop u E)).
  - rewrite app_nil_r, <- filter_reverse.
    apply take_while_filter. intros m n a b Hmn Ha Hb.
    pose proof (lookup_lt_Some _ _ _ Ha) as Hm.
    pose proof (lookup_lt_Some _ _ _ Hb) as Hn.
    rewrite length_reverse in Hm, Hn.
    rewrite reverse_lookup in Ha, Hb by assumption.
    assert (HL : (length (take u E) <= u)%nat) by (rewrite length_take; lia).
    rewrite lookup_take_lt in Ha, Hb by lia.
    apply (Hmono (length (take u E) - S n)%nat (length (take u E) - S m)%nat
                 b a ltac:(lia) Hb Ha).
  - intros m a Ha. rewrite lookup_drop in Ha.
    apply (Hafter (u + m)%nat a ltac:(lia) Ha).
Qed.

(** ** Where the first read stands *)

Lemma passes_split i kv :
  limit_ i < 0 ->
  passes i kv
  = end_ok i (fst kv) && upper_ok i (fst kv) && lower_ok i (fst kv).
Proof.
  intros Hlim. unfold passes, in_range, end_ok, upper_ok, lower_ok.
  destruct (Z.ltb_spec (limit_ i) 0); [|lia].
  destruct (end_ i); reflexivity.
Qed.

(** Booleans of comparisons with zero, as inequalities. *)
Ltac zbool :=
  rewrite ?Z.geb_leb, ?Z.gtb_ltb in *;
  repeat match goal with
         | H : (_ <=? _) = true |- _ => apply Z.leb_le in H
         | H : (_ <=? _) = false |- _ => apply Z.leb_gt in H
         | H : (_ <? _) = true |- _ => apply Z.ltb_lt in H
         | H : (_ <? _) = false |- _ => apply Z.ltb_ge in H
         | H : (_ =? _) = true |- _ => apply Z.eqb_eq in H
         | H : (_ =? _) = false |- _ => apply Z.eqb_neq in H
         | |- (_ <=? _) = true => apply Z.leb_le
         | |- (_ <=? _) = false => apply Z.leb_gt
         | |- (_ <? _) = true => apply Z.ltb_lt
         | |- (_ <? _) = false => apply Z.ltb_ge
         end.

Lemma lower_bound_spec target (E : list (string * string)) :
  (forall m a, (m < leveldb.lower_bound target E)%nat -> E !! m = Some a ->
               compare (fst a) target < 0)
  /\ (forall a, E !! leveldb.lower_bound target E = Some a ->
                compare (fst a) target >= 0).
Proof.
  induction E as [|kv E (IH1 & IH2)]; cbn [leveldb.lower_bound].
  - split; [intros m a Hm; lia|intros a Ha; discriminate].
  - destruct (compare (fst kv) target >=? 0) eqn:Hc; zbool.
    + split; [intros m a Hm; lia|]. intros a [= <-]. lia.
    + split.
      * intros [|m] a Hm Ha; [injection Ha as <-; lia|].
        apply (IH1 m a); [lia|exact Ha].
      * intros a Ha. apply IH2. exact Ha.
Qed.

(** With sorted keys every entry from the lower bound on is at or past the
    target. *)
Lemma lower_bound_after target E m a :
  sorted E ->
  (leveldb.lower_bound target E <= m)%nat -> E !! m = Some a ->
  compare (fst a) target >= 0.
Proof.
  intros Hs Hm Ha.
  destruct (lower_bound_spec target E) as (_ & Hat).
  destruct (decide (m = leveldb.lower_bound target E)) as [->|Hne];
    [apply Hat; exact Ha|].
  destruct (lookup_lt_is_Some_2 E (leveldb.lower_bound target E)) as [b Hb].
  { apply lookup_lt_Some in Ha. lia. }
  pose proof (Hat b Hb) as Hge.
  pose proof (Hs (leveldb.lower_bound target E) m b a ltac:(lia) Hb Ha) as Hlt.
  rewrite (compare_antisym target (fst b)) in Hge.
  pose proof (compare_le_lt_trans target (fst b) (fst a) ltac:(lia) Hlt).
  rewrite (compare_antisym target (fst a)). lia.
Qed.

Lemma drop_at_index d n :
  match leveldb.pos (leveldb.at_index d n) with
  | Some s => drop s (leveldb.entries d)
  | None => []
  end = drop n (leveldb.entries d).
Proof.
  destruct (leveldb.entries d !! n) as [kv|] eqn:Hn.
  - destruct (at_index_inside d n kv Hn) as (-> & _). reflexivity.
  - apply lookup_ge_None in Hn.
    destruct (at_index_outside d n Hn) as (-> & _).
    rewrite drop_ge by lia. reflexivity.
Qed.

Lemma examined_forward i :
  dbIterator_ i = None ->
  reverse_ i = false ->
  examined i
  = match start_ i with
    | Some start =>
      let d := leveldb.Seek start (leveldb.NewIterator (options_ i)) in
      match gt_ i with
      | Some gt =>
        if leveldb.Valid d && (compare gt (leveldb.key d) =? 0)
        then leveldb.Next d else d
      | None => d
      end
    | None => leveldb.SeekToFirst (leveldb.NewIterator (options_ i))
    end.
Proof.
  intros Hd Hr. unfold examined, GetIterator. rewrite Hd, Hr.
  destruct (start_ i); reflexivity.
Qed.

(** Forward, when start_ is the bound of gt or gte and only one of them is
    given, the first read stands on the first entry at or past the bound,
    past it for gt: earlier entries fail the lower bound, later ones meet
    it. *)
Lemma forward_start i :
  let E := leveldb.snap_entries (leveldb.snapshot (options_ i)) in
  dbIterator_ i = None ->
  reverse_ i = false ->
  sorted E ->
  start_ i = match gt_ i with Some g => Some g | None => gte_ i end ->
  gt_ i = None \/ gte_ i = None ->
  exists s,
    match leveldb.pos (examined i) with
    | Some s' => drop s' E
    | None => []
    end = drop s E
    /\ (forall m a, (m < s)%nat -> E !! m = Some a ->
                    lower_ok i (fst a) = false)
    /\ (forall m a, (s <= m)%nat -> E !! m = Some a ->
                    lower_ok i (fst a) = true).
Proof.
  intros E Hd Hr Hs Hstart Hone.
  rewrite (examined_forward i Hd Hr), Hstart. unfold lower_ok.
  set (N := leveldb.NewIterator (options_ i)).
  assert (HN : leveldb.entries N = E) by reflexivity.
  destruct (gt_ i) as [g|] eqn:Hgt.
  - (* gt: step past an entry equal to the bound *)
    destruct Hone as [Hone|Hone]; [discriminate|]. clear Hone.
    cbn zeta. unfold leveldb.Seek.
    change (leveldb.entries N) with E.
    destruct (lower_bound_spec g E) as (Hbefore & Hat).
    pose proof (fun m a => lower_bound_after g E m a Hs) as Hafter.
    set (j := leveldb.lower_bound g E) in *.
    destruct (E !! j) as [a|] eqn:Hj.
    + destruct (at_index_inside N j a Hj) as (Hpos & Hcur).
      unfold leveldb.Valid, leveldb.key. rewrite Hcur. cbn [andb].
      destruct (compare g (fst a) =? 0) eqn:Heq; zbool.
      * exists (S j). split.
        { unfold leveldb.Next. rewrite Hpos.
          exact (drop_at_index (leveldb.at_index N j) (S j)). }
        split; intros m b Hm Hb; zbool.
        -- destruct (decide (m = j)) as [->|Hne].
           ++ rewrite Hj in Hb. injection Hb as <-. lia.
           ++ pose proof (Hbefore m b ltac:(lia) Hb).
              rewrite (compare_antisym (fst b) g). lia.
        -- pose proof (Hs j m a b ltac:(lia) Hj Hb) as Hlt.
           apply compare_eq in Heq. subst g. exact Hlt.
      * exists j. split; [rewrite Hpos; reflexivity|].
        split; intros m b Hm Hb; zbool.
        -- pose proof (Hbefore m b Hm Hb).
           rewrite (compare_antisym (fst b) g). lia.
        -- pose proof (Hafter m b Hm Hb) as Hge.
           rewrite (compare_antisym (fst b) g).
           destruct (decide (m = j)) as [->|Hne].
           ++ rewrite Hj in Hb. injection Hb as <-.
              rewrite (compare_antisym (fst a) g) in Heq. lia.
           ++ pose proof (Hs j m a b ltac:(lia) Hj Hb) as Hlt.
              pose proof (Hat a eq_refl) as Hja.
              rewrite (compare_antisym g (fst a)) in Hja.
              pose proof (compare_le_lt_trans g (fst a) (fst b)
                            ltac:(lia) Hlt).
              rewrite (compare_antisym g (fst b)). lia.
    + apply lookup_ge_None in Hj.
      destruct (at_index_outside N j Hj) as (Hpos & Hcur).
      unfold leveldb.Valid. rewrite Hcur. cbn [andb].
      exists j. split; [rewrite Hpos, drop_ge by lia; reflexivity|].
      split; intros m b Hm Hb; zbool.
      * pose proof (Hbefore m b Hm Hb).
        rewrite (compare_antisym (fst b) g). lia.
      * apply lookup_lt_Some in Hb. lia.
  - destruct (gte_ i) as [g|] eqn:Hgte.
    + (* gte: the lower bound itself *)
      cbn zeta. unfold leveldb.Seek.
      exists (leveldb.lower_bound g E).
      split; [exact (drop_at_index N (leveldb.lower_bound g E))|].
      destruct (lower_bound_spec g E) as (Hbefore & _).
      split; intros m b Hm Hb; zbool.
      * pose proof (Hbefore m b Hm Hb).
        rewrite (compare_antisym (fst b) g). lia.
      * pose proof (lower_bound_after g E m b Hs Hm Hb).
        rewrite (compare_antisym (fst b) g). lia.
    + (* no lower bound: the first entry *)
      unfold leveldb.SeekToFirst.
      exists O. split; [exact (drop_at_index N O)|].
      split; intros m b Hm Hb; [lia|reflexivity].
Qed.

(** ** Sorted stores, by test *)

Lemma sortedb_head (E : list (string * string)) :
  forall a n b,
    sortedb (a :: E) = true -> E !! n = Some b -> compare (fst a) (fst b) < 0.
Proof.
  induction E as [|x E IH]; intros a n b Hs Hn; [discriminate|].
  cbn [sortedb] in Hs. apply andb_prop in Hs. destruct Hs as (Hax & Hs).
  apply Z.ltb_lt in Hax.
  destruct n as [|n]; [injection Hn as <-; exact Hax|].
  apply (compare_lt_trans _ (fst x)); [exact Hax|].
  apply (IH x n b Hs Hn).
Qed.

Lemma sortedb_tail a (E : list (string * string)) :
  sortedb (a :: E) = true -> sortedb E = true.
Proof.
  destruct E as [|x E]; [reflexivity|]. cbn [sortedb].
  intros H. apply andb_prop in H. apply H.
Qed.

Lemma sortedb_sorted (E : list (string * string)) :
  sortedb E = true -> sorted E.
Proof.
  induction E as [|x E IH]; intros Hs m n a b Hmn Ha Hb; [discriminate|].
  destruct n as [|n]; [lia|]. destruct m as [|m].
  - injection Ha as <-. apply (sortedb_head E x n b Hs Hb).
  - apply (IH (sortedb_tail _ _ Hs) m n a b); [lia|exact Ha|exact Hb].
Qed.

(** ** Bounds along the order of keys *)

(** Forward, the end bound and the bound of lt or lte that a key meets are
    met by every smaller key. *)
Lemma end_ok_smaller i a b :
  reverse_ i = false -> compare a b < 0 ->
  end_ok i b = true -> end_ok i a = true.
Proof.
  intros Hr Hab. unfold end_ok. rewrite Hr. cbn.
  destruct (end_ i) as [e|]; [|reflexivity].
  rewrite (compare_antisym b e), (compare_antisym a e).
  intros H. zbool.
  pose proof (compare_lt_le_trans a b e Hab ltac:(lia)). lia.
Qed.

Lemma upper_ok_smaller i a b :
  compare a b < 0 -> upper_ok i b = true -> upper_ok i a = true.
Proof.
  intros Hab. unfold upper_ok.
  destruct (lt_ i) as [l|]; [|destruct (lte_ i) as [l|]; [|reflexivity]];
    rewrite (compare_antisym b l), (compare_antisym a l); intros H; zbool.
  - pose proof (compare_lt_trans a b l Hab ltac:(lia)). lia.
  - pose proof (compare_lt_le_trans a b l Hab ltac:(lia)). lia.
Qed.

(** In reverse, the end bound and the bound of gt or gte that a key meets
    are met by every larger key. *)
Lemma end_ok_larger i a b :
  reverse_ i = true -> compare a b < 0 ->
  end_ok i a = true -> end_ok i b = true.
Proof.
  intros Hr Hab. unfold end_ok. rewrite Hr. cbn.
  destruct (end_ i) as [e|]; [|reflexivity].
  rewrite !orb_false_r. intros H. zbool.
  pose proof (compare_le_lt_trans e a b H Hab). lia.
Qed.

Lemma lower_ok_larger i a b :
  compare a b < 0 -> lower_ok i a = true -> lower_ok i b = true.
Proof.
  intros Hab. unfold lower_ok.
  destruct (gt_ i) as [g|]; [|destruct (gte_ i) as [g|]; [|reflexivity]];
    intros H; zbool.
  - apply (compare_lt_trans g a b H Hab).
  - pose proof (compare_le_lt_trans g a b H Hab). lia.
Qed.

(** ** The forward range scan *)

Lemma scan_forward_filter (i : Iterator) :
  let E := leveldb.snap_entries (leveldb.snapshot (options_ i)) in
  dbIterator_ i = None ->
  reverse_ i = false ->
  limit_ i < 0 ->
  sorted E ->
  start_ i = match gt_ i with Some g => Some g | None => gte_ i end ->
  gt_ i = None \/ gte_ i = None ->
  remaining_range i = map (emit i) (List.filter (passes i) E).
Proof.
  intros E Hd Hr Hlim Hs Hstart Hone.
  rewrite (remaining_range_fresh i Hd Hlim). rewrite Hr. cbv beta iota zeta.
  destruct (forward_start i Hd Hr Hs Hstart Hone) as (s & -> & Hlow & Hhigh).
  fold E in Hlow, Hhigh |- *. f_equal.
  apply take_while_drop_filter.
  - intros m a Hm Ha. rewrite (passes_split i a Hlim), (Hlow m a Hm Ha).
    apply andb_false_r.
  - intros m n a b Hmn Ha Hb. rewrite !(passes_split i _ Hlim).
    intros H. apply andb_prop in H. destruct H as (H & _).
    apply andb_prop in H. destruct H as (He & Hu).
    pose proof (Hs m n a b ltac:(lia) Ha Hb) as Hab.
    rewrite (end_ok_smaller i _ _ Hr Hab He), (upper_ok_smaller i _ _ Hab Hu),
      (Hhigh m a ltac:(lia) Ha).
    reflexivity.
Qed.

(** X1.  A forward cursor that has not read yet, with no limit, over a
    snapshot whose keys are in ascending order, whose start_ is the bound of
    gt or gte (one of them at most, and no start option of its own): its
    scan emits exactly the entries whose key passes the bounds end, lt or
    lte, gt or gte, in the order of the store, each with its key and value
    as the flags keys_ and values_ say. *)
Theorem forward_scan_is_filter (i : Iterator) :
  let E := leveldb.snap_entries (leveldb.snapshot (options_ i)) in
  dbIterator_ i = None ->
  reverse_ i = false ->
  limit_ i < 0 ->
  sorted E ->
  start_ i = match gt_ i with Some g => Some g | None => gte_ i end ->
  gt_ i = None \/ gte_ i = None ->
  remaining_range i = map (emit i) (List.filter (passes i) E).
Proof. exact (scan_forward_filter i). Qed.

(** ** The reverse range scan *)

Lemma examined_reverse i :
  dbIterator_ i = None ->
  reverse_ i = true ->
  examined i
  = match start_ i with
    | Some start =>
      let d := leveldb.Seek start (leveldb.NewIterator (options_ i)) in
      let d :=
        if negb (leveldb.Valid d) then leveldb.SeekToLast d
        else
          match lt_ i, lte_ i with
          | Some lt, _ =>
            if compare lt (leveldb.key d) <=? 0 then leveldb.Prev d else d
          | None, Some lte =>
            if compare lte (leveldb.key d) <? 0 then leveldb.Prev d else d
          | None, None =>
            if negb (compare start (leveldb.key d) =? 0)
            then leveldb.Prev d else d
          end in
      match lt_ i with
      | Some lt =>
        if leveldb.Valid d && (compare lt (leveldb.key d) <=? 0)
        then leveldb.Prev d else d
      | None => d
      end
    | None => leveldb.SeekToLast (leveldb.NewIterator (options_ i))
    end.
Proof.
  intros Hd Hr. unfold examined, GetIterator. rewrite Hd, Hr.
  destruct (start_ i); reflexivity.
Qed.

Lemma behind_SeekToLast d :
  behind (leveldb.SeekToLast d) = reverse (leveldb.entries d).
Proof.
  unfold behind, leveldb.SeekToLast.
  destruct (length (leveldb.entries d)) as [|n] eqn:HL.
  - apply nil_length_inv in HL. rewrite HL. reflexivity.
  - destruct (lookup_lt_is_Some_2 (leveldb.entries d) n ltac:(lia)) as [a Ha].
    destruct (at_index_inside d n a Ha) as (-> & _).
    rewrite leveldb_facts.entries_at_index, take_ge by lia. reflexivity.
Qed.

Lemma behind_at_index d j kv :
  leveldb.entries d !! j = Some kv ->
  behind (leveldb.at_index d j) = reverse (take (S j) (leveldb.entries d)).
Proof.
  intros Hj. unfold behind.
  destruct (at_index_inside d j kv Hj) as (-> & _). reflexivity.
Qed.

Lemma behind_Prev_at_index d j kv :
  leveldb.entries d !! j = Some kv ->
  behind (leveldb.Prev (leveldb.at_index d j))
  = reverse (take j (leveldb.entries d)).
Proof.
  intros Hj. pose proof (lookup_lt_Some _ _ _ Hj) as Hlt.
  destruct (at_index_inside d j kv Hj) as (Hpos & _).
  unfold leveldb.Prev. rewrite Hpos.
  destruct j as [|q]; [reflexivity|].
  destruct (lookup_lt_is_Some_2 (leveldb.entries d) q ltac:(lia)) as [a Ha].
  exact (behind_at_index (leveldb.at_index d (S q)) q a Ha).
Qed.

(** The key under a reverse scan's position is the last key behind it. *)
Lemma Prev_at_index_current d j kv :
  leveldb.entries d !! j = Some kv ->
  leveldb.current (leveldb.Prev (leveldb.at_index d j))
  = match j with O => None | S q => leveldb.entries d !! q end.
Proof.
  intros Hj. pose proof (lookup_lt_Some _ _ _ Hj) as Hlt.
  destruct (at_index_inside d j kv Hj) as (Hpos & _).
  unfold leveldb.Prev. rewrite Hpos.
  destruct j as [|q]; [reflexivity|].
  destruct (lookup_lt_is_Some_2 (leveldb.entries d) q ltac:(lia)) as [a Ha].
  destruct (at_index_inside (leveldb.at_index d (S q)) q a Ha) as (_ & ->).
  symmetry. exact Ha.
Qed.

Lemma current_SeekToLast d :
  leveldb.current (leveldb.SeekToLast d)
  = match length (leveldb.entries d) with
    | O => None
    | S n => leveldb.entries d !! n
    end.
Proof.
  unfold leveldb.SeekToLast.
  destruct (length (leveldb.entries d)) as [|n] eqn:HL; [reflexivity|].
  destruct (lookup_lt_is_Some_2 (leveldb.entries d) n ltac:(lia)) as [a Ha].
  destruct (at_index_inside d n a Ha) as (_ & ->). symmetry. exact Ha.
Qed.

Lemma Valid_current d kv :
  leveldb.current d = Some kv ->
  leveldb.Valid d = true /\ leveldb.key d = fst kv.
Proof.
  intros H. unfold leveldb.Valid, leveldb.key. rewrite H. auto.
Qed.

Lemma Valid_no_current d :
  leveldb.current d = None -> leveldb.Valid d = false.
Proof. intros H. unfold leveldb.Valid. rewrite H. reflexivity. Qed.

(** No correction follows when the key under the position is below lt. *)
Lemma no_second_Prev d l :
  (forall c, leveldb.current d = Some c -> compare (fst c) l < 0) ->
  leveldb.Valid d && (compare l (leveldb.key d) <=? 0) = false.
Proof.
  intros H. unfold leveldb.Valid, leveldb.key.
  destruct (leveldb.current d) as [c|]; [|reflexivity].
  pose proof (H c eq_refl) as Hc. cbn [andb].
  rewrite (compare_antisym (fst c) l). zbool. lia.
Qed.

(** In reverse, when start_ is the bound of lt or lte and only one of them
    is given, the first read stands on the last entry below the bound, at
    or below it for lte: the entries behind it meet the upper bound, the
    others fail it. *)
Lemma reverse_start i :
  let E := leveldb.snap_entries (leveldb.snapshot (options_ i)) in
  dbIterator_ i = None ->
  reverse_ i = true ->
  sorted E ->
  start_ i = match lt_ i with Some b => Some b | None => lte_ i end ->
  lt_ i = None \/ lte_ i = None ->
  exists u,
    behind (examined i) = reverse (take u E)
    /\ (forall m a, (u <= m)%nat -> E !! m = Some a ->
                    upper_ok i (fst a) = false)
    /\ (forall m a, (m < u)%nat -> E !! m = Some a ->
                    upper_ok i (fst a) = true).
Proof.
  intros E Hd Hr Hs Hstart Hone.
  rewrite (examined_reverse i Hd Hr), Hstart. unfold upper_ok.
  set (N := leveldb.NewIterator (options_ i)).
  destruct (lt_ i) as [b|] eqn:Hlt.
  - (* lt: step back from the lower bound *)
    destruct Hone as [Hone|Hone]; [discriminate|]. clear Hone.
    cbn zeta. unfold leveldb.Seek. change (leveldb.entries N) with E.
    destruct (lower_bound_spec b E) as (Hbefore & Hat).
    pose proof (fun m a => lower_bound_after b E m a Hs) as Hafter.
    set (j := leveldb.lower_bound b E) in *.
    exists j.
    assert (Hupper :
              (forall m a, (j <= m)%nat -> E !! m = Some a ->
                           (compare b (fst a) >? 0) = false)
              /\ (forall m a, (m < j)%nat -> E !! m = Some a ->
                              (compare b (fst a) >? 0) = true)).
    { split; intros m a Hm Ha; rewrite (compare_antisym (fst a) b); zbool.
      - pose proof (Hafter m a Hm Ha). lia.
      - pose proof (Hbefore m a Hm Ha). lia. }
    split; [|exact Hupper].
    destruct (E !! j) as [a|] eqn:Hj.
    + destruct (at_index_inside N j a Hj) as (Hpos & Hcur).
      destruct (Valid_current _ _ Hcur) as (HV & HK).
      rewrite HV, HK. cbn [negb].
      pose proof (Hat a eq_refl) as Hge.
      destruct (Z.leb_spec (compare b (fst a)) 0) as [_|Hgt];
        [|rewrite (compare_antisym (fst a) b) in Hgt; lia].
      rewrite no_second_Prev.
      * exact (behind_Prev_at_index N j a Hj).
      * intros c. rewrite (Prev_at_index_current N j a Hj).
        destruct j as [|q]; [discriminate|]. intros Hc.
        apply (Hbefore q c ltac:(lia) Hc).
    + apply lookup_ge_None in Hj.
      destruct (at_index_outside N j Hj) as (Hpos & Hcur).
      rewrite (Valid_no_current _ Hcur). cbn [negb].
      rewrite no_second_Prev.
      * rewrite behind_SeekToLast. change (leveldb.entries _) with E.
        rewrite take_ge by exact Hj. reflexivity.
      * intros c. rewrite current_SeekToLast.
        change (leveldb.entries _) with E.
        destruct (length E) as [|n] eqn:HL; [discriminate|]. intros Hc.
        apply (Hbefore n c ltac:(lia) Hc).
  - destruct (lte_ i) as [b|] eqn:Hlte.
    + (* lte: step back unless the lower bound is the bound itself *)
      cbn zeta. unfold leveldb.Seek. change (leveldb.entries N) with E.
      destruct (lower_bound_spec b E) as (Hbefore & Hat).
      pose proof (fun m a => lower_bound_after b E m a Hs) as Hafter.
      set (j := leveldb.lower_bound b E) in *.
      destruct (E !! j) as [a|] eqn:Hj.
      * destruct (at_index_inside N j a Hj) as (Hpos & Hcur).
        destruct (Valid_current _ _ Hcur) as (HV & HK).
        rewrite HV, HK. cbn [negb].
        pose proof (Hat a eq_refl) as Hge.
        destruct (Z.ltb_spec (compare b (fst a)) 0) as [Hgt|Heq].
        -- exists j. split; [exact (behind_Prev_at_index N j a Hj)|].
           split; intros m c Hm Hc; zbool.
           ++ destruct (decide (m = j)) as [->|Hne].
              ** rewrite Hj in Hc. injection Hc as <-. exact Hgt.
              ** pose proof (Hs j m a c ltac:(lia) Hj Hc) as Hac.
                 apply (compare_lt_trans b (fst a) (fst c) Hgt Hac).
           ++ pose proof (Hbefore m c Hm Hc).
              rewrite (compare_antisym (fst c) b). lia.
        -- rewrite (compare_antisym (fst a) b) in Heq.
           assert (Hab : fst a = b) by (apply compare_eq; lia).
           exists (S j). split; [exact (behind_at_index N j a Hj)|].
           split; intros m c Hm Hc; zbool.
           ++ pose proof (Hs j m a c ltac:(lia) Hj Hc) as Hac.
              rewrite Hab in Hac. exact Hac.
           ++ destruct (decide (m = j)) as [->|Hne].
              ** rewrite Hj in Hc. injection Hc as <-.
                 rewrite Hab, compare_refl. lia.
              ** pose proof (Hbefore m c ltac:(lia) Hc).
                 rewrite (compare_antisym (fst c) b). lia.
      * apply lookup_ge_None in Hj.
        destruct (at_index_outside N j Hj) as (Hpos & Hcur).
        rewrite (Valid_no_current _ Hcur). cbn [negb].
        exists j. split.
        { rewrite behind_SeekToLast. change (leveldb.entries _) with E.
          rewrite take_ge by exact Hj. reflexivity. }
        split; intros m c Hm Hc; zbool.
        -- apply lookup_lt_Some in Hc. lia.
        -- pose proof (Hbefore m c Hm Hc).
           rewrite (compare_antisym (fst c) b). lia.
    + (* no upper bound: the last entry *)
      exists (length E). split.
      { rewrite behind_SeekToLast. change (leveldb.entries N) with E.
        rewrite firstn_all. reflexivity. }
      split; intros m c Hm Hc; [|reflexivity].
      apply lookup_lt_Some in Hc. lia.
Qed.

Lemma scan_reverse_filter (i : Iterator) :
  let E := leveldb.snap_entries (leveldb.snapshot (options_ i)) in
  dbIterator_ i = None ->
  reverse_ i = true ->
  limit_ i < 0 ->
  sorted E ->
  start_ i = match lt_ i with Some b => Some b | None => lte_ i end ->
  lt_ i = None \/ lte_ i = None ->
  remaining_range i = map (emit i) (reverse (List.filter (passes i) E)).
Proof.
  intros E Hd Hr Hlim Hs Hstart Hone.
  rewrite (remaining_range_fresh i Hd Hlim). rewrite Hr. cbv beta iota zeta.
  destruct (examined_fresh i Hd) as (_ & Hent).
  destruct (reverse_start i Hd Hr Hs Hstart Hone) as (u & Hb & Hhigh & Hlow).
  unfold behind in Hb. rewrite Hent in Hb. rewrite Hb.
  fold E in Hlow, Hhigh |- *. f_equal.
  apply take_while_reverse_filter.
  - intros m a Hm Ha. rewrite (passes_split i a Hlim), (Hhigh m a Hm Ha).
    rewrite andb_false_r. reflexivity.
  - intros m n a b Hmn Ha Hb'. rewrite !(passes_split i _ Hlim).
    intros H. apply andb_prop in H. destruct H as (H & Hl).
    apply andb_prop in H. destruct H as (He & _).
    pose proof (Hs m n a b ltac:(lia) Ha Hb') as Hab.
    rewrite (end_ok_larger i _ _ Hr Hab He), (lower_ok_larger i _ _ Hab Hl),
      (Hlow n b ltac:(lia) Hb').
    reflexivity.
Qed.

(** X2.  A reverse cursor that has not read yet, with no limit, over a
    snapshot whose keys are in ascending order, whose start_ is the bound of
    lt or lte (one of them at most, and no start option of its own): its
    scan emits exactly the entries whose key passes the bounds, from the
    largest key down. *)
Theorem reverse_scan_is_filter (i : Iterator) :
  let E := leveldb.snap_entries (leveldb.snapshot (options_ i)) in
  dbIterator_ i = None ->
  reverse_ i = true ->
  limit_ i < 0 ->
  sorted E ->
  start_ i = match lt_ i with Some b => Some b | None => lte_ i end ->
  lt_ i = None \/ lte_ i = None ->
  remaining_range i = map (emit i) (reverse (List.filter (passes i) E)).
Proof. exact (scan_reverse_filter i). Qed.

(** ** The limit cuts the scan short *)

Lemma examined_without_limit i : examined (without_limit i) = examined i.
Proof.
  unfold examined, GetIterator. cbn.
  destruct (dbIterator_ i); reflexivity.
Qed.

Lemma in_range_without_limit i c keyStr :
  in_range i c keyStr
  = ((limit_ i <? 0) || (c <=? limit_ i))
    && in_range (without_limit i) 0 keyStr.
Proof.
  unfold in_range. cbn [limit_ without_limit end_ reverse_ lt_ lte_ gt_ gte_].
  change (-1 <? 0) with true. cbn [orb andb].
  rewrite <- !andb_assoc. reflexivity.
Qed.

Lemma scan_limit (fuel : nat) :
  forall i,
    0 <= count_ i <= limit_ i ->
    limit_ i < 2 ^ 31 - 1 ->
    scan fuel i
    = take (Z.to_nat (limit_ i - count_ i)) (scan fuel (without_limit i)).
Proof.
  induction fuel as [|fuel IH]; intros i Hc Hl;
    [cbn [scan]; rewrite take_nil; reflexivity|].
  rewrite !scan_Read, !Read_unfold, examined_without_limit. cbn zeta.
  destruct (leveldb.Valid (examined i));
    [|cbn [fst snd]; rewrite take_nil; reflexivity].
  cbn [limit_ without_limit count_ keys_ values_].
  change (-1 <? 0) with true. cbv iota.
  rewrite (in_range_without_limit i).
  destruct (Z.ltb_spec (limit_ i) 0) as [|_]; [lia|].
  rewrite to_int32_small by lia. cbn [orb].
  destruct (in_range (without_limit i) 0 (leveldb.key (examined i)));
    [|rewrite andb_false_r; cbn [fst snd]; rewrite take_nil; reflexivity].
  rewrite andb_true_r.
  destruct (Z.leb_spec (count_ i + 1) (limit_ i)) as [Hle|Hgt]; cbn [fst snd].
  - replace (Z.to_nat (limit_ i - count_ i))
      with (S (Z.to_nat (limit_ i - (count_ i + 1)))) by lia.
    cbn [take]. f_equal.
    apply (IH (set_count (count_ i + 1)
                 (set_seeking false
                    (set_dbIterator (Some (examined i)) i))));
      cbn; lia.
  - replace (Z.to_nat (limit_ i - count_ i)) with O by lia. reflexivity.
Qed.

(** X3.  A cursor with a limit from 0 to INT_MAX - 1 that has counted no
    more than limit entries scans the first limit - count_ pairs of what the
    same cursor scans without limit. *)
Theorem limit_is_take (i : Iterator) :
  0 <= count_ i <= limit_ i ->
  limit_ i < 2 ^ 31 - 1 ->
  remaining_range i
  = take (Z.to_nat (limit_ i - count_ i)) (remaining_range (without_limit i)).
Proof.
  intros Hc Hl. unfold remaining_range.
  change (remaining (without_limit i)) with (remaining i).
  apply scan_limit; assumption.
Qed.

(** ** Batches against the range *)

Lemma scan_fuel (f1 : nat) :
  forall f2 i,
    (remaining i < f1)%nat -> (remaining i < f2)%nat ->
    scan f1 i = scan f2 i.
Proof.
  induction f1 as [|f1 IH]; intros [|f2] i H1 H2; try lia.
  rewrite !scan_Read.
  destruct (Read i) as [[[ok k] v] i1] eqn:ER. cbn [fst snd].
  destruct ok; [|reflexivity].
  f_equal. apply Read_remaining in ER. apply IH; lia.
Qed.

Lemma remaining_range_Read i :
  remaining_range i
  = (if fst (fst (fst (Read i)))
     then (snd (fst (fst (Read i))), snd (fst (Read i)))
          :: remaining_range (snd (Read i))
     else []).
Proof.
  unfold remaining_range at 1. rewrite scan_Read.
  destruct (Read i) as [[[ok k] v] i1] eqn:ER. cbn [fst snd].
  destruct ok; [|reflexivity].
  f_equal. apply Read_remaining in ER. apply scan_fuel; lia.
Qed.

Lemma examined_set_landed b i : examined (set_landed b i) = examined i.
Proof.
  unfold examined, GetIterator. cbn.
  destruct (dbIterator_ i); reflexivity.
Qed.

Lemma Read_set_landed b i :
  Read (set_landed b i)
  = (fst (fst (fst (Read i))), snd (fst (fst (Read i))), snd (fst (Read i)),
     set_landed b (snd (Read i))).
Proof.
  rewrite !Read_unfold, examined_set_landed. cbn zeta.
  destruct (leveldb.Valid (examined i)); [|reflexivity].
  change (in_range (set_landed b i)) with (in_range i).
  cbn [limit_ count_ set_landed keys_ values_].
  destruct (in_range i _ _); reflexivity.
Qed.

Lemma scan_set_landed b (fuel : nat) :
  forall i, scan fuel (set_landed b i) = scan fuel i.
Proof.
  induction fuel as [|fuel IH]; intros i; [reflexivity|].
  rewrite !scan_Read, Read_set_landed. cbn [fst snd].
  destruct (fst (fst (fst (Read i)))); [|reflexivity].
  rewrite IH. reflexivity.
Qed.

(** One advance takes its pairs off the front of the remaining range and
    leaves the cursor before the rest. *)
Lemma IteratorNext_loop_range (fuel : nat) :
  forall i result sz ok i' result',
    IteratorNext_loop fuel i result sz = Some (ok, i', result') ->
    exists new,
      result' = result ++ new
      /\ remaining_range i
         = new ++ (if ok then remaining_range i' else [])
      /\ (ok = true -> new <> [] /\ (remaining i' < remaining i)%nat).
Proof.
  induction fuel as [|fuel IH]; intros i result sz ok i' result';
    [discriminate|].
  cbn [IteratorNext_loop]. rewrite (remaining_range_Read i).
  destruct (Read i) as [[[ok1 k] v] i1] eqn:ER. cbn [fst snd].
  destruct ok1.
  - pose proof (Read_remaining _ _ _ _ ER) as Hrem.
    destruct (negb (landed_ i1)).
    + intros [= <- <- <-]. exists [(k, v)].
      split; [reflexivity|]. split.
      * unfold remaining_range at 2.
        change (remaining (set_landed true i1)) with (remaining i1).
        rewrite scan_set_landed. reflexivity.
      * intros _. split; [discriminate|exact Hrem].
    + destruct (_ >? _).
      * intros [= <- <- <-]. exists [(k, v)].
        split; [reflexivity|]. split; [reflexivity|].
        intros _. split; [discriminate|exact Hrem].
      * intros Hloop.
        destruct (IH _ _ _ _ _ _ Hloop) as (new & -> & Hrange & Hok).
        exists ((k, v) :: new). rewrite <- app_assoc.
        split; [reflexivity|]. split; [rewrite Hrange; reflexivity|].
        intros Ht. destruct (Hok Ht). split; [discriminate|lia].
  - intros [= <- <- <-]. exists []. rewrite app_nil_r.
    split; [reflexivity|]. split; [reflexivity|discriminate].
Qed.

(** X4.  Batching loses nothing: advancing a cursor until a call reports
    the range exhausted delivers, in order, exactly the pairs of its
    remaining range, in at most one call more than there are positions left;
    each call takes its pairs off the front of the range, and a call whose
    flag is true has delivered at least one pair. *)
Theorem batches_make_the_range (i : Iterator) :
  drain (S (remaining i)) i = Some (remaining_range i)
  /\ forall ok i' result,
       IteratorNext i [] = Some (ok, i', result) ->
       remaining_range i = result ++ (if ok then remaining_range i' else [])
       /\ (ok = true -> result <> []).
Proof.
  split.
  - assert (H : forall n j, (remaining j < n)%nat ->
                            drain n j = Some (remaining_range j)).
    { induction n as [|n IH]; intros j Hj; [lia|].
      cbn [drain].
      destruct (IteratorNext_total j []) as ([[ok j'] result] & EN).
      rewrite EN.
      destruct (IteratorNext_loop_range _ _ _ _ _ _ _ EN)
        as (new & -> & Hrange & Hok).
      cbn [app]. destruct ok.
      - destruct (Hok eq_refl) as (_ & Hlt).
        rewrite IH by lia. rewrite Hrange. reflexivity.
      - rewrite Hrange, app_nil_r. reflexivity. }
    apply H. lia.
  - intros ok i' result EN.
    destruct (IteratorNext_loop_range _ _ _ _ _ _ _ EN)
      as (new & -> & Hrange & Hok).
    cbn [app]. split; [exact Hrange|]. intros Ht. apply (Hok Ht).
Qed.

(** X5.  When the first pair of the remaining range alone is longer than
    highWaterMark_ (and shorter than 2^64 bytes), an advance returns that
    pair and no other with the flag true; when the range is empty it
    returns nothing with the flag false. *)
Theorem one_pair_below_the_mark (i : Iterator) :
  (forall kv rest, remaining_range i = kv :: rest ->
                   highWaterMark_ i < size (fst kv) + size (snd kv) < 2 ^ 64) ->
  exists i',
    IteratorNext i []
    = Some (match remaining_range i with [] => false | _ => true end, i',
            take 1 (remaining_range i)).
Proof.
  intros Hsmall. destruct (landed_ i) eqn:Hl.
  - destruct (IteratorNext_loop_batch (S (remaining i)) i [] 0 Hl) as (i' & Hi');
      [lia|].
    fold (remaining_range i) in Hi'. fold (IteratorNext i []) in Hi'.
    exists i'. rewrite Hi'.
    destruct (remaining_range i) as [|kv rest] eqn:Er; [reflexivity|].
    cbn [batch]. unfold accumulate, to_size_t.
    pose proof (Hsmall kv rest eq_refl) as Hkv.
    rewrite Z.mod_small by (unfold size in *; lia).
    destruct (Z.gtb_spec (0 + size (fst kv) + size (snd kv)) (highWaterMark_ i));
      [reflexivity|lia].
  - destruct (IteratorNext_loop_landing (remaining i) i [] 0 Hl) as (i' & Hi').
    fold (remaining_range i) in Hi'. fold (IteratorNext i []) in Hi'.
    exists i'. exact Hi'.
Qed.

(** ** What no event changes *)

Lemma same_config_trans i j k :
  same_config i j -> same_config j k -> same_config i k.
Proof.
  unfold same_config. intros H1 H2.
  decompose [and] H1. decompose [and] H2. repeat split; congruence.
Qed.

Lemma evolves_refl it : evolves it it.
Proof. split; [apply same_config_refl|auto]. Qed.

Lemma evolves_trans a b c : evolves a b -> evolves b c -> evolves a c.
Proof.
  intros (H1 & E1) (H2 & E2).
  split; [eapply same_config_trans; eassumption|auto].
Qed.

Lemma IteratorNext_loop_evolves (fuel : nat) :
  forall i result sz ok i' result',
    IteratorNext_loop fuel i result sz = Some (ok, i', result') ->
    evolves i i' /\ nexting_ i' = nexting_ i /\ endWorker_ i' = endWorker_ i.
Proof.
  induction fuel as [|fuel IH]; intros i result sz ok i' result';
    [discriminate|].
  cbn [IteratorNext_loop].
  destruct (Read i) as [[[ok1 k] v] i1] eqn:ER.
  destruct (Read_same_config _ _ _ _ _ ER) as (Hc & _ & _ & Hn & He & Hw).
  assert (H1 : evolves i i1) by (split; [exact Hc|congruence]).
  destruct ok1.
  - destruct (negb (landed_ i1)).
    + intros [= <- <- <-]. split; [|split; assumption].
      eapply evolves_trans; [exact H1|]. split; [repeat split|auto].
    + destruct (_ >? _).
      * intros [= <- <- <-]. auto.
      * intros Hloop. destruct (IH _ _ _ _ _ _ Hloop) as (H2 & Hn2 & Hw2).
        split; [eapply evolves_trans; eassumption|]. split; congruence.
  - intros [= <- <- <-]. auto.
Qed.

Lemma keeps_cursors_refl w : keeps_cursors w w.
Proof. intros p it Hp. exists it. split; [exact Hp|apply evolves_refl]. Qed.

Lemma keeps_cursors_trans a b c :
  keeps_cursors a b -> keeps_cursors b c -> keeps_cursors a c.
Proof.
  intros H1 H2 p it Hp. destruct (H1 p it Hp) as (it1 & Hp1 & E1).
  destruct (H2 p it1 Hp1) as (it2 & Hp2 & E2).
  exists it2. split; [exact Hp2|eapply evolves_trans; eassumption].
Qed.

Lemma keeps_cursors_same_heap w w' : heap w' = heap w -> keeps_cursors w w'.
Proof.
  intros H p it Hp. exists it. rewrite H. split; [exact Hp|apply evolves_refl].
Qed.

(** Storing an evolved cursor in place of a cursor keeps every cursor. *)
Lemma keeps_cursors_insert w w' p0 it0 it0' :
  heap w !! p0 = Some it0 ->
  evolves it0 it0' ->
  heap w' = <[p0 := it0']> (heap w) ->
  keeps_cursors w w'.
Proof.
  intros H0 E0 Hh p it Hp. rewrite Hh.
  destruct (decide (p0 = p)) as [->|Hne].
  - rewrite lookup_insert_eq. exists it0'. split; [reflexivity|].
    rewrite H0 in Hp. injection Hp as <-. exact E0.
  - rewrite lookup_insert_ne by exact Hne.
    exists it. split; [exact Hp|apply evolves_refl].
Qed.

Lemma iterator_next_keeps p callback w :
  keeps_cursors w (iterator_next p callback w).
Proof.
  unfold iterator_next. destruct (heap w !! p) as [it|] eqn:Hp;
    [|apply keeps_cursors_refl].
  destruct (ended_ it); [apply keeps_cursors_refl|].
  eapply (keeps_cursors_insert _ _ p it); [exact Hp| |reflexivity].
  split; [repeat split|auto].
Qed.

Lemma iterator_end_keeps p callback w :
  keeps_cursors w (iterator_end p callback w).
Proof.
  unfold iterator_end. destruct (heap w !! p) as [it|] eqn:Hp;
    [|apply keeps_cursors_refl].
  destruct (ended_ it); cbn [negb]; [apply keeps_cursors_refl|].
  cbn [nexting_ set_ended].
  destruct (nexting_ it);
    (eapply (keeps_cursors_insert _ _ p it); [exact Hp| |reflexivity]);
    (split; [repeat split|auto]).
Qed.

(** What a call of [iterator] that returns has read and built. *)
Lemma iterator_inv options w p w' :
  iterator options w = Some (p, w') ->
  exists reverse keys values fillCache keyAsBuffer valueAsBuffer limit
         highWaterMark engine,
    BooleanProperty options "reverse" false = Some reverse
    /\ BooleanProperty options "keys" true = Some keys
    /\ BooleanProperty options "values" true = Some values
    /\ BooleanProperty options "fillCache" false = Some fillCache
    /\ BooleanProperty options "keyAsBuffer" true = Some keyAsBuffer
    /\ BooleanProperty options "valueAsBuffer" true = Some valueAsBuffer
    /\ Int32Property options "limit" (-1) = Some limit
    /\ Uint32Property options "highWaterMark" (16 * 1024) = Some highWaterMark
    /\ db_ (database w) = Some engine
    /\ p = fresh (dom (heap w))
    /\ w'
       = mkWorld
           (mkDatabase (Some (fst (leveldb.GetSnapshot engine)))
                       (blockCache_ (database w)) (filterPolicy_ (database w))
                       (to_uint32 (currentIteratorId_ (database w) + 1))
                       (pendingCloseWorker_ (database w))
                       (<[currentIteratorId_ (database w) := p]>
                          (iterators_ (database w))))
           (<[p :=
                new_Iterator
                  (currentIteratorId_ (database w))
                  (override_start (negb reverse) (bound_option options "gte")
                     (override_start (negb reverse)
                        (bound_option options "gt")
                        (override_start reverse (bound_option options "lte")
                           (override_start reverse
                              (bound_option options "lt")
                              (bound_option options "start")))))
                  (bound_option options "end") reverse keys values limit
                  (bound_option options "lt") (bound_option options "lte")
                  (bound_option options "gt") (bound_option options "gte")
                  fillCache keyAsBuffer valueAsBuffer highWaterMark
                  (snd (leveldb.GetSnapshot engine))]> (heap w))
           (queue w) (calls w).
Proof.
  unfold iterator.
  destruct (BooleanProperty options "reverse" false) as [reverse|];
    [|discriminate].
  destruct (BooleanProperty options "keys" true) as [keys|]; [|discriminate].
  destruct (BooleanProperty options "values" true) as [values|];
    [|discriminate].
  destruct (BooleanProperty options "fillCache" false) as [fillCache|];
    [|discriminate].
  destruct (BooleanProperty options "keyAsBuffer" true) as [keyAsBuffer|];
    [|discriminate].
  destruct (BooleanProperty options "valueAsBuffer" true) as [valueAsBuffer|];
    [|discriminate].
  destruct (Int32Property options "limit" (-1)) as [limit|]; [|discriminate].
  destruct (Uint32Property options "highWaterMark" (16 * 1024))
    as [highWaterMark|]; [|discriminate].
  cbn [mbind option_bind].
  destruct (db_ (database w)) as [engine|]; [|discriminate].
  cbn. intros [= <- <-].
  exists reverse, keys, values, fillCache, keyAsBuffer, valueAsBuffer, limit,
    highWaterMark, engine.
  repeat (split; [reflexivity|]). reflexivity.
Qed.

Lemma iterator_keeps options w p w' :
  iterator options w = Some (p, w') ->
  heap w !! p = None /\ keeps_cursors w w'.
Proof.
  intros Hi.
  destruct (iterator_inv _ _ _ _ Hi)
    as (reverse & keys & values & fillCache & keyAsBuffer & valueAsBuffer
        & limit & highWaterMark & engine & _ & _ & _ & _ & _ & _ & _ & _
        & _ & -> & ->).
  assert (Hfresh : heap w !! fresh (dom (heap w)) = None).
  { apply not_elem_of_dom. apply is_fresh. }
  split; [exact Hfresh|].
  intros q it Hq. cbn.
  rewrite lookup_insert_ne by congruence.
  exists it. split; [exact Hq|apply evolves_refl].
Qed.

Lemma CheckEndCallback_keeps p w : keeps_cursors w (CheckEndCallback p w).
Proof.
  unfold CheckEndCallback. destruct (heap w !! p) as [it|] eqn:Hp;
    [|apply keeps_cursors_refl].
  cbn. destruct (endWorker_ it);
    (eapply (keeps_cursors_insert _ _ p it); [exact Hp| |reflexivity]);
    (split; [repeat split|auto]).
Qed.

Lemma heap_ReleaseIterator id w : heap (ReleaseIterator id w) = heap w.
Proof.
  unfold ReleaseIterator. cbn.
  destruct (pendingCloseWorker_ (database w)); [|reflexivity].
  destruct (bool_decide _); reflexivity.
Qed.

Lemma DoComplete_keeps worker w : keeps_cursors w (DoComplete worker w).
Proof.
  unfold DoComplete, HandleOKCallback.
  destruct (leveldb.ok (status_ worker));
    [|apply keeps_cursors_same_heap; reflexivity].
  destruct (kind worker) as [|key asBuffer fillCache value|p|p result ok];
    try (apply keeps_cursors_same_heap; reflexivity).
  - apply keeps_cursors_same_heap. cbn.
    destruct (heap w !! p); [apply heap_ReleaseIterator|reflexivity].
  - destruct (heap w !! p) as [it|]; [|apply keeps_cursors_refl].
    eapply keeps_cursors_trans; [apply (CheckEndCallback_keeps p)|].
    apply keeps_cursors_same_heap. reflexivity.
Qed.

Lemma DoExecute_keeps worker w worker' w' :
  DoExecute worker w = Some (worker', w') -> keeps_cursors w w'.
Proof.
  unfold DoExecute.
  destruct (kind worker) as [|key asBuffer fillCache value|p|p result ok].
  - intros [= <- <-]. apply keeps_cursors_same_heap. reflexivity.
  - destruct (db_ (database w)) as [engine|]; [|discriminate].
    cbn [mbind option_bind].
    destruct (leveldb.Get engine key). intros [= <- <-].
    apply keeps_cursors_refl.
  - destruct (heap w !! p) as [it|] eqn:Hp; [|discriminate].
    cbn [mbind option_bind].
    destruct (db_ (database w)) as [engine|]; [|discriminate].
    cbn [mbind option_bind].
    intros [= <- <-].
    eapply (keeps_cursors_insert _ _ p it); [exact Hp| |reflexivity].
    split; [repeat split|auto].
  - destruct (heap w !! p) as [it|] eqn:Hp; [|discriminate].
    cbn [mbind option_bind].
    destruct (match dbIterator_ it with
              | Some d => Some d
              | None => NewIterator (database w) (options_ it)
              end); [|discriminate].
    cbn [mbind option_bind].
    destruct (IteratorNext it result) as [[[ok' it'] result']|] eqn:EN;
      [|discriminate]. cbn [mbind option_bind].
    intros [= <- <-].
    eapply (keeps_cursors_insert _ _ p it); [exact Hp| |reflexivity].
    apply (IteratorNext_loop_evolves _ _ _ _ _ _ _ EN).
Qed.

Lemma step_keeps w w' : step w w' -> keeps_cursors w w'.
Proof.
  intros [cb w0|key options cb w0 w1 Hg|options w0 p w1 Hi|p cb w0|p cb w0
          |w0 before worker after worker' w1 Hq Hex].
  - apply keeps_cursors_same_heap. reflexivity.
  - apply keeps_cursors_same_heap. unfold db_get in Hg.
    destruct (BooleanProperty options "asBuffer" true); [|discriminate].
    destruct (BooleanProperty options "fillCache" true); [|discriminate].
    injection Hg as <-. reflexivity.
  - apply (iterator_keeps _ _ _ _ Hi).
  - apply iterator_next_keeps.
  - apply iterator_end_keeps.
  - eapply keeps_cursors_trans; [|apply DoComplete_keeps].
    eapply keeps_cursors_trans; [|apply (DoExecute_keeps _ _ _ _ Hex)].
    apply keeps_cursors_same_heap. reflexivity.
Qed.

(** X6.  Whatever sequence of calls and of workers running follows, a
    cursor stays where it is with the fields it was constructed with (id,
    bounds, direction, flags, limit, highWaterMark, snapshot), and once
    ended_ is set it stays set. *)
Theorem ended_is_permanent (w w' : World) (p : ptr) (it : Iterator) :
  rtc step w w' ->
  heap w !! p = Some it ->
  exists it',
    heap w' !! p = Some it'
    /\ same_config it it'
    /\ (ended_ it = true -> ended_ it' = true).
Proof.
  intros Hsteps. revert it.
  induction Hsteps as [w|w w1 w2 Hstep _ IH]; intros it Hp.
  - exists it. split; [exact Hp|]. split; [apply same_config_refl|auto].
  - destruct (step_keeps _ _ Hstep p it Hp) as (it1 & Hp1 & E1).
    destruct (IH it1 Hp1) as (it2 & Hp2 & Hc2 & He2).
    exists it2. split; [exact Hp2|].
    destruct (evolves_trans it it1 it2 E1 (conj Hc2 He2)) as (Hc & He).
    auto.
Qed.

(** ** The pending close *)

Lemma pending_ReleaseIterator id w :
  pendingCloseWorker_ (database w) = None ->
  ReleaseIterator id w
  = set_database
      (mkDatabase (db_ (database w)) (blockCache_ (database w))
                  (filterPolicy_ (database w))
                  (currentIteratorId_ (database w)) None
                  (delete id (iterators_ (database w)))) w.
Proof.
  intros H. unfold ReleaseIterator. cbn. rewrite H. reflexivity.
Qed.

Lemma step_pending w w' :
  step w w' ->
  pendingCloseWorker_ (database w) = None ->
  pendingCloseWorker_ (database w') = None.
Proof.
  intros [cb w0|key options cb w0 w1 Hg|options w0 p w1 Hi|p cb w0|p cb w0
          |w0 before worker after worker' w1 Hq Hex] Hnone.
  - exact Hnone.
  - unfold db_get in Hg.
    destruct (BooleanProperty options "asBuffer" true); [|discriminate].
    destruct (BooleanProperty options "fillCache" true); [|discriminate].
    injection Hg as <-. exact Hnone.
  - destruct (iterator_inv _ _ _ _ Hi)
      as (reverse & keys & values & fillCache & keyAsBuffer & valueAsBuffer
          & limit & highWaterMark & engine & _ & _ & _ & _ & _ & _ & _ & _
          & _ & _ & ->).
    exact Hnone.
  - unfold iterator_next. destruct (heap w0 !! p) as [it|]; [|exact Hnone].
    destruct (ended_ it); exact Hnone.
  - unfold iterator_end. destruct (heap w0 !! p) as [it|]; [|exact Hnone].
    destruct (negb (ended_ it)); [|exact Hnone].
    destruct (nexting_ (set_ended true it)); exact Hnone.
  - assert (H1 : pendingCloseWorker_ (database w1) = None).
    { unfold DoExecute in Hex.
      destruct (kind worker) as [|key asBuffer fillCache value|p|p result ok].
      - injection Hex as _ <-. exact Hnone.
      - cbn in Hex. destruct (db_ (database w0)); [|discriminate].
        cbn [mbind option_bind] in Hex.
        destruct (leveldb.Get _ _). injection Hex as _ <-. exact Hnone.
      - cbn [heap database] in Hex.
        destruct (heap w0 !! p); [|discriminate].
        cbn [mbind option_bind] in Hex.
        destruct (db_ (database w0)); [|discriminate].
        cbn [mbind option_bind] in Hex.
        injection Hex as _ <-. exact Hnone.
      - cbn [heap] in Hex. destruct (heap w0 !! p) as [it|]; [|discriminate].
        cbn [mbind option_bind] in Hex.
        destruct (match dbIterator_ it with
                  | Some d => Some d
                  | None => _
                  end); [|discriminate].
        cbn [mbind option_bind] in Hex.
        destruct (IteratorNext _ _) as [[[ok' it'] result']|]; [|discriminate].
        cbn [mbind option_bind] in Hex.
        injection Hex as _ <-. exact Hnone. }
    clear Hex Hq. unfold DoComplete, HandleOKCallback.
    destruct (leveldb.ok (status_ worker')); [|exact H1].
    destruct (kind worker') as [|key asBuffer fillCache value|p|p result ok];
      try exact H1.
    + cbn. destruct (heap w1 !! p) as [it|]; [|exact H1].
      rewrite (pending_ReleaseIterator _ _ H1). reflexivity.
    + destruct (heap w1 !! p) as [it|]; [|exact H1]. cbn.
      unfold CheckEndCallback. destruct (heap w1 !! p) as [it'|]; [|exact H1].
      cbn. destruct (endWorker_ it'); exact H1.
Qed.

(** X9.  No call and no worker ever stores a pending close: from a world
    without one, pendingCloseWorker_ is NULL after any sequence of events,
    so that ReleaseIterator never queues anything. *)
Theorem pending_close_is_never_stored (w w' : World) :
  rtc step w w' ->
  pendingCloseWorker_ (database w) = None ->
  pendingCloseWorker_ (database w') = None
  /\ forall id, queue (ReleaseIterator id w') = queue w'.
Proof.
  intros Hsteps Hnone.
  assert (H : pendingCloseWorker_ (database w') = None).
  { induction Hsteps as [w|w w1 w2 Hstep _ IH]; [exact Hnone|].
    apply IH. apply (step_pending _ _ Hstep Hnone). }
  split; [exact H|].
  intros id. rewrite (pending_ReleaseIterator id w' H). reflexivity.
Qed.

(** ** One callback for each worker *)

Lemma calls_ReleaseIterator id w : calls (ReleaseIterator id w) = calls w.
Proof.
  unfold ReleaseIterator. cbn.
  destruct (pendingCloseWorker_ (database w)); [|reflexivity].
  destruct (bool_decide _); reflexivity.
Qed.

(** X10.  A worker that completes calls its own callback once and calls no
    other: with an error made of the copied message (read as a C string and
    decoded as UTF-8) as the only argument when its status is not ok, with
    null as the first argument when it is.  (For an advance worker the
    cursor it points to has to exist.) *)
Theorem one_error_first_callback (worker : BaseWorker) (w : World) :
  (forall p result ok, kind worker = NextWorker p result ok ->
                       is_Some (heap w !! p)) ->
  exists argv,
    calls (DoComplete worker w) = calls w ++ [(callbackRef_ worker, argv)]
    /\ if leveldb.ok (status_ worker)
       then head argv = Some JsNull
       else argv
            = [JsError (napi_create_string_utf8
                          (c_str (default ""%string (errMsg_ worker))))].
Proof.
  intros Hlive. unfold DoComplete, HandleOKCallback.
  destruct (leveldb.ok (status_ worker)); [|eexists; split; reflexivity].
  destruct (kind worker) as [|key asBuffer fillCache value|p|p result ok] eqn:Hk.
  - eexists. split; [reflexivity|reflexivity].
  - eexists. split; [reflexivity|reflexivity].
  - exists [JsNull]. split; [|reflexivity]. cbn.
    destruct (heap w !! p); [rewrite calls_ReleaseIterator|]; reflexivity.
  - destruct (Hlive p result ok eq_refl) as [it Hit]. rewrite Hit.
    eexists. split; [cbn; rewrite calls_CheckEndCallback|]; reflexivity.
Qed.

(** ** A get that succeeds *)

(** X11.  A get on an open database, with the options asBuffer and
    fillCache absent or boolean, whose engine finds the key: the call queues
    one worker, and once it has run the callback has been called with null
    and the value, as a buffer of the value's bytes unless asBuffer is false
    and as the string napi_create_string_utf8 makes of them when it is (the
    same bytes when they are all below 80).  The key looked up is the bytes
    of the string or buffer given, and the world is otherwise as before. *)
Theorem get_delivers_the_value (key : napi_value)
  (options : gmap string napi_value) (callback : napi_ref) (w : World)
  (engine : leveldb.DB) (st : leveldb.Status) (value : string)
  (asBuffer fillCache : bool) :
  queue w = [] ->
  db_ (database w) = Some engine ->
  BooleanProperty options "asBuffer" true = Some asBuffer ->
  BooleanProperty options "fillCache" true = Some fillCache ->
  leveldb.Get engine (ToSlice key) = (st, Some value) ->
  leveldb.ok st = true ->
  exists requested,
    db_get key options callback w = Some requested
    /\ length (queue requested) = 1%nat
    /\ run_next requested
       = Some (napi_call_function callback
                 [JsNull;
                  if asBuffer then JsBuffer value
                  else JsString (napi_create_string_utf8 value)] w)
    /\ (seven_bit value = true -> napi_create_string_utf8 value = value).
Proof.
  intros Hq Hdb Has Hfc Hget Hok.
  unfold db_get. rewrite Has, Hfc. cbn [mbind option_bind].
  eexists. split; [reflexivity|].
  split; [unfold Queue; cbn [queue]; rewrite Hq; reflexivity|].
  split; [|apply utf8_seven_bit].
  unfold run_next, Queue. cbn [queue]. rewrite Hq. cbn [app].
  unfold DoExecute. cbn [kind new_worker database]. rewrite Hdb.
  cbn [mbind option_bind]. rewrite Hget. cbn [mbind option_bind default].
  unfold DoComplete, SetStatus. rewrite Hok. cbn [status_]. rewrite Hok.
  unfold HandleOKCallback, set_kind. cbn [kind callbackRef_ new_worker].
  unfold napi_call_function, to_js. cbn.
  destruct w as [db h q c]. cbn in *. subst q. reflexivity.
Qed.

(** ** A closed database *)

(** X13.  A close worker that runs deletes the engine, the block cache and
    the filter policy and calls back with null, whatever the registry holds;
    the registry and the cursors are left as they are.  On the closed
    database [iterator], a get worker, an end worker and an advance worker
    on a cursor that has no leveldb iterator yet have no defined outcome:
    they dereference the NULL db_. *)
Theorem close_leaves_no_engine (callback : napi_ref) (w : World) :
  queue w = [] ->
  exists w',
    run_next (db_close callback w) = Some w'
    /\ db_ (database w') = None
    /\ blockCache_ (database w') = None
    /\ filterPolicy_ (database w') = None
    /\ iterators_ (database w') = iterators_ (database w)
    /\ heap w' = heap w
    /\ calls w' = calls w ++ [(callback, [JsNull])]
    /\ (forall options, iterator options w' = None)
    /\ (forall worker key asBuffer fillCache value,
          kind worker = GetWorker key asBuffer fillCache value ->
          DoExecute worker w' = None)
    /\ (forall worker p, kind worker = EndWorker p ->
                         DoExecute worker w' = None)
    /\ (forall worker p result ok it,
          kind worker = NextWorker p result ok ->
          heap w' !! p = Some it -> dbIterator_ it = None ->
          DoExecute worker w' = None).
Proof.
  intros Hq. unfold run_next, db_close, Queue. cbn [queue]. rewrite Hq.
  cbn [app]. unfold DoExecute. cbn [kind new_worker].
  eexists. split; [reflexivity|].
  do 6 (split; [reflexivity|]).
  split; [|split; [|split]].
  - intros options. unfold iterator.
    destruct (BooleanProperty options "reverse" false); [|reflexivity].
    destruct (BooleanProperty options "keys" true); [|reflexivity].
    destruct (BooleanProperty options "values" true); [|reflexivity].
    destruct (BooleanProperty options "fillCache" false); [|reflexivity].
    destruct (BooleanProperty options "keyAsBuffer" true); [|reflexivity].
    destruct (BooleanProperty options "valueAsBuffer" true); [|reflexivity].
    destruct (Int32Property options "limit" (-1)); [|reflexivity].
    destruct (Uint32Property options "highWaterMark" (16 * 1024));
      reflexivity.
  - intros worker key asBuffer fillCache value Hk.
    unfold DoExecute. rewrite Hk. reflexivity.
  - intros worker p Hk. unfold DoExecute. rewrite Hk. cbn.
    destruct (heap w !! p); reflexivity.
  - intros worker p result ok it Hk Hp Hd. unfold DoExecute. rewrite Hk.
    rewrite Hp. cbn [mbind option_bind]. rewrite Hd. reflexivity.
Qed.

(** ** The cursor [iterator] creates *)

(** X14.  A call of [iterator] that returns a cursor (the database is open
    and the options it reads as booleans and numbers are absent or of that
    type) puts it at an address no cursor had, leaves every other cursor as
    it was, registers it under the current id and increments that id, takes
    one snapshot of the store, queues nothing and calls nothing back.  The
    cursor has no leveldb iterator yet and no flag set; its direction and
    limit are the options read, its bounds are the options that count, and
    its start_ is, in reverse, lte if given, else lt, else the start option;
    forward, gte if given, else gt, else the start option. *)
Theorem created_cursor (options : gmap string napi_value) (w : World)
  (p : ptr) (w' : World) :
  iterator options w = Some (p, w') ->
  exists engine it,
    db_ (database w) = Some engine
    /\ heap w !! p = None
    /\ heap w' = <[p := it]> (heap w)
    /\ iterators_ (database w')
       = <[currentIteratorId_ (database w) := p]> (iterators_ (database w))
    /\ currentIteratorId_ (database w')
       = to_uint32 (currentIteratorId_ (database w) + 1)
    /\ db_ (database w')
       = Some (leveldb.mkDB (leveldb.store engine) (leveldb.health engine)
                            (S (leveldb.held_snapshots engine)))
    /\ id_ it = currentIteratorId_ (database w)
    /\ leveldb.snap_entries (leveldb.snapshot (options_ it))
       = leveldb.store engine
    /\ dbIterator_ it = None /\ count_ it = 0 /\ seeking_ it = false
    /\ landed_ it = false /\ nexting_ it = false /\ ended_ it = false
    /\ endWorker_ it = None
    /\ BooleanProperty options "reverse" false = Some (reverse_ it)
    /\ Int32Property options "limit" (-1) = Some (limit_ it)
    /\ Uint32Property options "highWaterMark" (16 * 1024)
       = Some (highWaterMark_ it)
    /\ end_ it = bound_option options "end"
    /\ lt_ it = bound_option options "lt"
    /\ lte_ it = bound_option options "lte"
    /\ gt_ it = bound_option options "gt"
    /\ gte_ it = bound_option options "gte"
    /\ start_ it
       = (if reverse_ it
          then match lte_ it, lt_ it with
               | Some b, _ => Some b
               | None, Some b => Some b
               | None, None => bound_option options "start"
               end
          else match gte_ it, gt_ it with
               | Some b, _ => Some b
               | None, Some b => Some b
               | None, None => bound_option options "start"
               end)
    /\ queue w' = queue w /\ calls w' = calls w.
Proof.
  intros Hi.
  destruct (iterator_inv _ _ _ _ Hi)
    as (reverse & keys & values & fillCache & keyAsBuffer & valueAsBuffer
        & limit & highWaterMark & engine & Hr & _ & _ & _ & _ & _ & Hl & Hh
        & Hdb & -> & ->).
  exists engine. eexists. split; [exact Hdb|].
  split; [apply not_elem_of_dom; apply is_fresh|].
  split; [reflexivity|].
  cbn. do 12 (split; [reflexivity|]).
  split; [exact Hr|]. split; [exact Hl|]. split; [exact Hh|].
  do 5 (split; [reflexivity|]).
  split; [|split; reflexivity].
  unfold override_start.
  destruct reverse;
    destruct (bound_option options "lt"), (bound_option options "lte"),
      (bound_option options "gt"), (bound_option options "gte");
    reflexivity.
Qed.

(** ** Reverse mirrors forward *)

(** X12.  Reverse mirrors forward: two fresh cursors over the same sorted
    snapshot with the same bounds lt or lte and gt or gte, no end and no
    limit, one forward and one in reverse, scan the same pairs in opposite
    orders. *)
Theorem reverse_mirrors_forward (f r : Iterator) :
  let E := leveldb.snap_entries (leveldb.snapshot (options_ f)) in
  options_ r = options_ f ->
  sorted E ->
  dbIterator_ f = None -> dbIterator_ r = None ->
  reverse_ f = false -> reverse_ r = true ->
  limit_ f < 0 -> limit_ r < 0 ->
  end_ f = None -> end_ r = None ->
  lt_ r = lt_ f -> lte_ r = lte_ f -> gt_ r = gt_ f -> gte_ r = gte_ f ->
  keys_ r = keys_ f -> values_ r = values_ f ->
  lt_ f = None \/ lte_ f = None ->
  gt_ f = None \/ gte_ f = None ->
  start_ f = match gt_ f with Some g => Some g | None => gte_ f end ->
  start_ r = match lt_ f with Some b => Some b | None => lte_ f end ->
  remaining_range r = reverse (remaining_range f).
Proof.
  intros E Ho Hs Hdf Hdr Hrf Hrr Hlf Hlr Hef Her Hlt Hlte Hgt Hgte Hk Hv
         Hupper Hlower Hsf Hsr.
  rewrite (scan_forward_filter f Hdf Hrf Hlf Hs Hsf Hlower).
  assert (Hrev := scan_reverse_filter r Hdr Hrr Hlr).
  cbn zeta in Hrev. rewrite Ho, Hlt, Hlte in Hrev.
  rewrite (Hrev Hs Hsr Hupper). clear Hrev.
  fold E.
  assert (Hemit : forall kv, emit r kv = emit f kv)
    by (intros kv; unfold emit; rewrite Hk, Hv; reflexivity).
  assert (Hpass : forall kv, passes r kv = passes f kv).
  { intros kv. unfold passes, in_range.
    rewrite Hef, Her, Hlt, Hlte, Hgt, Hgte.
    destruct (Z.ltb_spec (limit_ f) 0); [|lia].
    destruct (Z.ltb_spec (limit_ r) 0); [|lia]. reflexivity. }
  rewrite (List.filter_ext _ _ Hpass), (map_ext _ _ Hemit).
  exact (fmap_reverse (emit f) (List.filter (passes f) E)).
Qed.

(** ** The status of the engine's iterator *)

Lemma status_at_index d n :
  leveldb.iter_status (leveldb.at_index d n) = leveldb.iter_status d.
Proof. reflexivity. Qed.







(** ** The coordination fields do not steer the scan *)





(** ** Running an advance and running an end *)







(** ** Ending a cursor, with and without an advance in flight *)



(** ** The start option alone *)

Lemma take_while_ext_lookup {A} (P Q : A -> bool) (l : list A) :
  (forall m a, l !! m = Some a -> P a = Q a) ->
  take_while P l = take_while Q l.
Proof.
  induction l as [|x l IH]; intros H; [reflexivity|].
  cbn. rewrite (H O x eq_refl).
  destruct (Q x); [|reflexivity]. f_equal. apply IH.
  intros m a Ha. apply (H (S m) a Ha).
Qed.

(** X15.  Forward, the start option alone (no gt, no gte) is an inclusive
    lower bound: the scan emits exactly the entries at or past start that
    pass the other bounds. *)
Theorem forward_scan_from_start (i : Iterator) (start : string) :
  let E := leveldb.snap_entries (leveldb.snapshot (options_ i)) in
  dbIterator_ i = None ->
  reverse_ i = false ->
  limit_ i < 0 ->
  sorted E ->
  start_ i = Some start -> gt_ i = None -> gte_ i = None ->
  remaining_range i
  = map (emit i)
        (List.filter (fun kv => passes i kv && (compare start (fst kv) <=? 0))
                     E).
Proof.
  intros E Hd Hr Hlim Hs Hstart Hgt Hgte.
  rewrite (remaining_range_fresh i Hd Hlim). rewrite Hr. cbv beta iota zeta.
  rewrite (examined_forward i Hd Hr), Hstart, Hgt. cbn zeta.
  unfold leveldb.Seek.
  rewrite (drop_at_index (leveldb.NewIterator (options_ i))).
  change (leveldb.entries (leveldb.NewIterator (options_ i))) with E.
  fold E. f_equal.
  destruct (lower_bound_spec start E) as (Hbefore & _).
  pose proof (fun m a => lower_bound_after start E m a Hs) as Hafter.
  set (j := leveldb.lower_bound start E) in *.
  rewrite (take_while_ext_lookup
             (passes i)
             (fun kv => passes i kv && (compare start (fst kv) <=? 0))).
  - apply take_while_drop_filter.
    + intros m a Hm Ha. pose proof (Hbefore m a Hm Ha).
      rewrite (compare_antisym (fst a) start).
      destruct (Z.leb_spec (- compare (fst a) start) 0); [lia|].
      apply andb_false_r.
    + intros m n a b Hmn Ha Hb H.
      apply andb_prop in H. destruct H as (H & _).
      pose proof (Hafter m a ltac:(lia) Ha).
      rewrite (compare_antisym (fst a) start).
      destruct (Z.leb_spec (- compare (fst a) start) 0); [|lia].
      rewrite andb_true_r.
      revert H. rewrite !(passes_split i _ Hlim).
      unfold lower_ok. rewrite Hgt, Hgte, !andb_true_r.
      intros H. apply andb_prop in H. destruct H as (He & Hu).
      pose proof (Hs m n a b ltac:(lia) Ha Hb) as Hab.
      rewrite (end_ok_smaller i _ _ Hr Hab He), (upper_ok_smaller i _ _ Hab Hu).
      reflexivity.
  - intros m a Ha. rewrite lookup_drop in Ha.
    pose proof (Hafter (j + m)%nat a ltac:(lia) Ha).
    rewrite (compare_antisym (fst a) start).
    destruct (Z.leb_spec (- compare (fst a) start) 0); [|lia].
    rewrite andb_true_r. reflexivity.
Qed.

(** X16.  In reverse, the start option alone (no lt, no lte) is an
    inclusive upper bound: the scan emits exactly the entries at or before
    start that pass the other bounds, from the largest key down. *)
Theorem reverse_scan_from_start (i : Iterator) (start : string) :
  let E := leveldb.snap_entries (leveldb.snapshot (options_ i)) in
  dbIterator_ i = None ->
  reverse_ i = true ->
  limit_ i < 0 ->
  sorted E ->
  start_ i = Some start -> lt_ i = None -> lte_ i = None ->
  remaining_range i
  = map (emit i)
        (reverse
           (List.filter
              (fun kv => passes i kv && (compare start (fst kv) >=? 0)) E)).
Proof.
  intros E Hd Hr Hlim Hs Hstart Hlt Hlte.
  rewrite (remaining_range_fresh i Hd Hlim). rewrite Hr. cbv beta iota zeta.
  destruct (examined_fresh i Hd) as (_ & Hent).
  assert (Hpos :
            exists u,
              behind (examined i) = reverse (take u E)
              /\ (forall m a, (u <= m)%nat -> E !! m = Some a ->
                              compare start (fst a) < 0)
              /\ (forall m a, (m < u)%nat -> E !! m = Some a ->
                              compare start (fst a) >= 0)).
  { rewrite (examined_reverse i Hd Hr), Hstart, Hlt, Hlte. cbn zeta.
    set (N := leveldb.NewIterator (options_ i)).
    unfold leveldb.Seek. change (leveldb.entries N) with E.
    destruct (lower_bound_spec start E) as (Hbefore & Hat).
    pose proof (fun m a => lower_bound_after start E m a Hs) as Hafter.
    set (j := leveldb.lower_bound start E) in *.
    destruct (E !! j) as [a|] eqn:Hj.
    - destruct (at_index_inside N j a Hj) as (Hpos & Hcur).
      destruct (Valid_current _ _ Hcur) as (HV & HK).
      rewrite HV, HK. cbn [negb].
      pose proof (Hat a eq_refl) as Hge.
      rewrite (compare_antisym start (fst a)) in Hge.
      destruct (Z.eqb_spec (compare start (fst a)) 0) as [Heq|Hne];
        cbn [negb].
      + apply compare_eq in Heq.
        exists (S j). split; [exact (behind_at_index N j a Hj)|].
        split; intros m c Hm Hc.
        * pose proof (Hs j m a c ltac:(lia) Hj Hc) as Hac.
          rewrite <- Heq in Hac. exact Hac.
        * destruct (decide (m = j)) as [->|Hnj].
          -- rewrite Hj in Hc. injection Hc as <-.
             rewrite <- Heq, compare_refl. lia.
          -- pose proof (Hbefore m c ltac:(lia) Hc).
             rewrite (compare_antisym (fst c) start). lia.
      + exists j. split; [exact (behind_Prev_at_index N j a Hj)|].
        split; intros m c Hm Hc.
        * destruct (decide (m = j)) as [->|Hnj].
          -- rewrite Hj in Hc. injection Hc as <-. lia.
          -- pose proof (Hs j m a c ltac:(lia) Hj Hc) as Hac.
             apply (compare_lt_trans start (fst a) (fst c)); [lia|exact Hac].
        * pose proof (Hbefore m c Hm Hc).
          rewrite (compare_antisym (fst c) start). lia.
    - apply lookup_ge_None in Hj.
      destruct (at_index_outside N j Hj) as (Hpos & Hcur).
      rewrite (Valid_no_current _ Hcur). cbn [negb].
      exists j. split.
      { rewrite behind_SeekToLast. change (leveldb.entries _) with E.
        rewrite take_ge by exact Hj. reflexivity. }
      split; intros m c Hm Hc.
      + apply lookup_lt_Some in Hc. lia.
      + pose proof (Hbefore m c Hm Hc).
        rewrite (compare_antisym (fst c) start). lia. }
  destruct Hpos as (u & Hb & Hhigh & Hlow).
  unfold behind in Hb. rewrite Hent in Hb. rewrite Hb.
  fold E. f_equal.
  rewrite (take_while_ext_lookup
             (passes i)
             (fun kv => passes i kv && (compare start (fst kv) >=? 0))).
  - apply take_while_reverse_filter.
    + intros m a Hm Ha. pose proof (Hhigh m a Hm Ha).
      destruct (Z.geb_spec (compare start (fst a)) 0); [lia|].
      apply andb_false_r.
    + intros m n a b Hmn Ha Hb' H.
      apply andb_prop in H. destruct H as (H & _).
      pose proof (Hlow n b ltac:(lia) Hb').
      destruct (Z.geb_spec (compare start (fst b)) 0); [|lia].
      rewrite andb_true_r.
      revert H. rewrite !(passes_split i _ Hlim).
      unfold upper_ok. rewrite Hlt, Hlte, !andb_true_r.
      intros H. apply andb_prop in H. destruct H as (He & Hl).
      pose proof (Hs m n a b ltac:(lia) Ha Hb') as Hab.
      rewrite (end_ok_larger i _ _ Hr Hab He), (lower_ok_larger i _ _ Hab Hl).
      reflexivity.
  - intros m a Ha.
    pose proof (lookup_lt_Some _ _ _ Ha) as Hm.
    rewrite length_reverse in Hm.
    rewrite reverse_lookup in Ha by exact Hm.
    assert (HL : (length (take u E) <= u)%nat) by (rewrite length_take; lia).
    rewrite lookup_take_lt in Ha by lia.
    pose proof (Hlow (length (take u E) - S m)%nat a ltac:(lia) Ha).
    destruct (Z.geb_spec (compare start (fst a)) 0); [|lia].
    rewrite andb_true_r. reflexivity.
Qed.

(** ** The theorems above at work on the keys a to f *)

Example range_forward_created :
  example_cursor (range_options false) = Some range_forward.
Proof. vm_compute. reflexivity. Qed.

Example range_reverse_created :
  example_cursor (range_options true) = Some range_reverse.
Proof. vm_compute. reflexivity. Qed.

Lemma example_store_sorted : sorted example_store.
Proof. apply sortedb_sorted. vm_compute. reflexivity. Qed.

Lemma forward_scan_is_filter_witness :
  remaining_range range_forward
  = [("b", "vb"); ("c", "vc"); ("d", "vd")]%string.
Proof.
  refine (eq_trans (forward_scan_is_filter range_forward _ _ _ _ _ _) _).
  - reflexivity.
  - reflexivity.
  - reflexivity.
  - exact example_store_sorted.
  - reflexivity.
  - left. reflexivity.
  - vm_compute. reflexivity.
Defined.

Lemma reverse_scan_is_filter_witness :
  remaining_range range_reverse
  = [("d", "vd"); ("c", "vc"); ("b", "vb")]%string.
Proof.
  refine (eq_trans (reverse_scan_is_filter range_reverse _ _ _ _ _ _) _).
  - reflexivity.
  - reflexivity.
  - reflexivity.
  - exact example_store_sorted.
  - reflexivity.
  - right. reflexivity.
  - vm_compute. reflexivity.
Defined.

Lemma limit_is_take_witness :
  remaining_range limit_cursor
  = take 2 (remaining_range (without_limit limit_cursor)).
Proof.
  refine (limit_is_take limit_cursor _ _).
  - cbn. lia.
  - cbn. lia.
Defined.

Lemma one_pair_below_the_mark_witness :
  exists i',
    IteratorNext tiny_cursor [] = Some (true, i', [("b", "vb")]%string).
Proof.
  destruct (one_pair_below_the_mark tiny_cursor) as (i' & H).
  - intros kv rest Hr. vm_compute in Hr. injection Hr as <- _.
    vm_compute. split; reflexivity.
  - exists i'. exact H.
Defined.

Lemma ended_is_permanent_witness :
  exists it',
    heap (iterator_next 1%positive 7%positive
            (db_close 5%positive ended_world)) !! 1%positive = Some it'
    /\ ended_ it' = true.
Proof.
  destruct (ended_is_permanent ended_world
              (iterator_next 1%positive 7%positive
                 (db_close 5%positive ended_world))
              1%positive (set_ended true landed_cursor))
    as (it' & Hp & _ & He).
  - eapply rtc_l; [apply step_db_close|].
    eapply rtc_l; [apply step_iterator_next|]. apply rtc_refl.
  - vm_compute. reflexivity.
  - exists it'. split; [exact Hp|]. apply He. reflexivity.
Defined.



Lemma pending_close_is_never_stored_witness :
  pendingCloseWorker_
    (database (iterator_end 1%positive 8%positive
                 (db_close 5%positive registered_world)))
  = None.
Proof.
  refine (proj1 (pending_close_is_never_stored registered_world _ _ _)).
  - eapply rtc_l; [apply step_db_close|].
    eapply rtc_l; [apply step_iterator_end|]. apply rtc_refl.
  - reflexivity.
Defined.

Lemma one_error_first_callback_witness :
  exists argv,
    calls (DoComplete executed_next_worker advancing_world)
    = [(7%positive, argv)]
    /\ head argv = Some JsNull.
Proof.
  destruct (one_error_first_callback executed_next_worker advancing_world)
    as (argv & Hc & Hh).
  - intros p result ok [= <- _ _]. eexists. vm_compute. reflexivity.
  - exists argv. split; [exact Hc|exact Hh].
Defined.

Lemma get_delivers_the_value_witness :
  exists requested,
    db_get (JsString "c") (<["asBuffer" := JsBoolean false]> ∅) 7%positive
           example_world
    = Some requested
    /\ run_next requested
       = Some (napi_call_function 7%positive [JsNull; JsString "vc"]
                                  example_world).
Proof.
  destruct (get_delivers_the_value
              (JsString "c") (<["asBuffer" := JsBoolean false]> ∅) 7%positive
              example_world (leveldb.mkDB example_store leveldb.OK 0)
              leveldb.OK "vc" false true)
    as (requested & Hget & _ & Hrun & _).
  - reflexivity.
  - reflexivity.
  - vm_compute. reflexivity.
  - vm_compute. reflexivity.
  - reflexivity.
  - reflexivity.
  - exists requested. split; [exact Hget|exact Hrun].
Defined.

Lemma reverse_mirrors_forward_witness :
  remaining_range range_reverse = reverse (remaining_range range_forward).
Proof.
  refine (reverse_mirrors_forward range_forward range_reverse
            _ _ _ _ _ _ _ _ _ _ _ _ _ _ _ _ _ _ _ _);
    try reflexivity.
  - exact example_store_sorted.
  - right. reflexivity.
  - left. reflexivity.
Defined.

Lemma close_leaves_no_engine_witness :
  exists w',
    run_next (db_close 5%positive registered_world) = Some w'
    /\ db_ (database w') = None
    /\ iterator ∅ w' = None.
Proof.
  destruct (close_leaves_no_engine 5%positive registered_world)
    as (w' & Hrun & Hdb & _ & _ & _ & _ & _ & Hit & _).
  - reflexivity.
  - exists w'. split; [exact Hrun|]. split; [exact Hdb|apply Hit].
Defined.

Lemma created_cursor_witness :
  exists it,
    heap registered_world = <[1%positive := it]> (heap example_world)
    /\ id_ it = 0 /\ start_ it = None /\ Some (limit_ it) = Some (-1).
Proof.
  destruct (created_cursor ∅ example_world 1%positive registered_world)
    as (engine & it & _ & _ & Hheap & _ & _ & _ & Hid & _ & _ & _ & _ & _ & _
        & _ & _ & Hrev & Hlim & _ & _ & Hlt & Hlte & Hgt & Hgte & Hstart
        & _).
  - vm_compute. reflexivity.
  - exists it. split; [exact Hheap|]. split; [exact Hid|].
    split; [|symmetry; exact Hlim].
    rewrite Hstart, Hlte, Hgte, Hlt, Hgt.
    destruct (reverse_ it); reflexivity.
Defined.

Lemma forward_scan_from_start_witness :
  remaining_range start_forward
  = [("c", "vc"); ("d", "vd"); ("e", "ve"); ("f", "vf")]%string.
Proof.
  refine (eq_trans (forward_scan_from_start start_forward "c"
                                            _ _ _ _ _ _ _) _).
  - reflexivity.
  - reflexivity.
  - reflexivity.
  - exact example_store_sorted.
  - reflexivity.
  - reflexivity.
  - reflexivity.
  - vm_compute. reflexivity.
Defined.

Lemma reverse_scan_from_start_witness :
  remaining_range start_reverse
  = [("c", "vc"); ("b", "vb"); ("a", "va")]%string.
Proof.
  refine (eq_trans (reverse_scan_from_start start_reverse "c"
                                            _ _ _ _ _ _ _) _).
  - reflexivity.
  - reflexivity.
  - reflexivity.
  - exact example_store_sorted.
  - reflexivity.
  - reflexivity.
  - reflexivity.
  - vm_compute. reflexivity.
Defined.
